(** * irrtree: membership graphs, origin resolution, graph transforms,
      aggregation and the whois worker session

    A shallow embedding of [irrtree/process_functions.py],
    [irrtree/query_workers.py] and the patterns of [irrtree/datamodels.py],
    with the properties of the specification stated and proved over it.

    Conventions of the embedding.
    - A Python [str] is a [string]; registry identifiers are ASCII, so
      [\d], [str.upper] and [str.split] are the ASCII ones.
    - A Python [set]/[frozenset] of strings is a [gset string]; a [dict] is a
      [gmap].  Python leaves the iteration order of a set unspecified: every
      [for x in some_set] of the source iterates [set_iter some_set], where
      [set_iter] is an arbitrary enumeration of the elements (class
      [IterOrder]); likewise [dict_items] for [for k, v in d.items()].
      [sorted(some_set)] is the sorted list of its elements.
    - A function that can raise returns a [result]; mutation of a dict that
      is passed around is explicit state passing.
    - Unbounded Python recursion is bounded by a fuel argument; running out
      of it is the distinct outcome [OutOfFuel], never a value.  The fuel each
      top-level function gives is shown to be enough
      ([get_origin_asns_from_members_total], [filter_autnum_total],
      [remove_recursivity_from_tree_total], [send_and_receive_total]). *)

From Stdlib Require Import ZArith Ascii.
From stdpp Require Import gmap strings list fin_maps fin_sets sorting pretty.

Local Open Scope string_scope.
Local Open Scope list_scope.

Set Warnings "-clear-no-such-hyp".

(** ** Outcomes of a call *)

Inductive exn : Type :=
  | KeyError (key : string)
  | ValueError (msg : string)
  | AssertionError (msg : string)
  | Exception (msg : string)
  | ExceptionFrom (msg : string) (cause : exn)   (* [raise Exception(msg) from cause] *)
  | AttributeError (msg : string)
  | IndexError (msg : string)
  | OSError (msg : string)
  | CancelledError.

Inductive result (A : Type) : Type :=
  | Ok (a : A)
  | Raise (e : exn)
  | OutOfFuel.
Arguments Ok {A} a.
Arguments Raise {A} e.
Arguments OutOfFuel {A}.

Global Instance result_bind : MBind result := λ A B k r,
  match r with
  | Ok a => k a
  | Raise e => Raise e
  | OutOfFuel => OutOfFuel
  end.

(** A [for] loop whose body may raise: the state is threaded left to right
    and the first exception leaves the loop. *)
Fixpoint for_each {A S} (body : S → A → result S) (l : list A) (st : S)
  : result S :=
  match l with
  | [] => Ok st
  | x :: l' => st' ← body st x ; for_each body l' st'
  end.

(** ** Iteration order of Python sets *)

Class IterOrder : Type := {
  (** [for x in X] for a set [X] *)
  set_iter : ∀ {A} `{Countable A}, gset A → list A;
  set_iter_perm : ∀ {A} `{Countable A} (X : gset A), set_iter X ≡ₚ elements X;
  (** [for k, v in m.items()] for a dict [m] *)
  dict_items : ∀ {K V} `{Countable K}, gmap K V → list (K * V);
  dict_items_perm : ∀ {K V} `{Countable K} (m : gmap K V),
    dict_items m ≡ₚ map_to_list m
}.

(** One possible order. *)
Definition elements_order : IterOrder :=
  {| set_iter := λ A _ _ X, elements X;
     set_iter_perm := λ A _ _ X, reflexivity (elements X);
     dict_items := λ K V _ _ m, map_to_list m;
     dict_items_perm := λ K V _ _ m, reflexivity (map_to_list m) |}.

(** ** Strings *)

(** [c in s] for a one-character [c]. *)
Fixpoint contains_char (c : ascii) (s : string) : bool :=
  match s with
  | EmptyString => false
  | String a s' => if Ascii.eqb a c then true else contains_char c s'
  end.

(** ["-" in member]: the lexical test the source uses for AS-SET names. *)
Definition has_hyphen (member : string) : bool := contains_char "-" member.

(** Python compares strings by code point, character by character. *)
Definition str_le (a b : string) : Prop := String.leb a b = true.

Global Instance str_le_dec : RelDecision str_le.
Proof. intros a b. unfold str_le. apply _. Defined.

(** [sorted(X)] for a set of strings. *)
Definition sorted (X : gset string) : list string :=
  merge_sort str_le (elements X).

(** [parents.index(x)]. *)
Fixpoint index (parents : list string) (x : string) : option nat :=
  match parents with
  | [] => None
  | p :: ps => if decide (p = x) then Some 0 else S <$> index ps x
  end.

(** ** Membership graph *)

Abbreviation graph := (gmap string (gset string)).
Abbreviation closures := (gmap string (gset string)).

(** ** Origin resolver ([get_origin_asns]) *)

(** State of the member loop of [get_origin_asns]:
    [recursive_parent], [nr_origin_asns], [origin_ases_per_asset],
    [recursive_as_sets]. *)
Definition loop_state : Type :=
  option string * gset string * closures * graph.

(** Truth value of [recursive_parent] in [if recursive_parent:]. *)
Definition truthy (rp : option string) : bool :=
  match rp with
  | None => false
  | Some s => negb (String.eqb s "")
  end.

(** [recursive_parent = candidate] unless a parent closer to the top is
    already recorded. *)
Definition pick_highest (parents : list string) (recursive_parent : option string)
    (candidate : string) : result (option string) :=
  match recursive_parent with
  | None => Ok (Some candidate)
  | Some rp =>
      match index parents candidate, index parents rp with
      | Some i, Some j => Ok (if decide (i < j) then Some candidate else Some rp)
      | _, _ => Raise (ValueError "x is not in list")
      end
  end.

(** [recursive_as_sets.setdefault(key, set()).add(x)]. *)
Definition setdefault_add (key x : string) (recursive_as_sets : graph) : graph :=
  <[key := default ∅ (recursive_as_sets !! key) ∪ {[x]}]> recursive_as_sets.

Section resolver.
Context `{IterOrder}.

(** The branch [if recursive_parent:] of [get_origin_asns]: [as_set] is
    registered under its recursive parent, and the AS-SETs that waited for
    [as_set] are moved there. *)
Definition defer_under (recursive_parent as_set : string)
    (recursive_as_sets : graph) : graph :=
  let rec := setdefault_add recursive_parent as_set recursive_as_sets in
  match rec !! as_set with
  | Some children =>
      delete as_set
        (foldl (λ r child, setdefault_add recursive_parent child r) rec
               (set_iter children))
  | None => rec
  end.

(** The [else] branch: the closure of [as_set] is stored, and the same
    frozen set is stored for every AS-SET that waited for [as_set]. *)
Definition finalize_closure (as_set : string) (nr_origin_asns : gset string)
    (origin_ases_per_asset : closures) (recursive_as_sets : graph)
  : closures * graph :=
  let db := <[as_set := nr_origin_asns]> origin_ases_per_asset in
  match recursive_as_sets !! as_set with
  | Some children =>
      (foldl (λ d child, <[child := nr_origin_asns]> d) db (set_iter children),
       delete as_set recursive_as_sets)
  | None => (db, recursive_as_sets)
  end.

(** The recursive call, as the body of the function sees it:
    [recurse member origin_ases_per_asset new_parents recursive_as_sets]. *)
Definition resolver : Type :=
  string → closures → list string → graph
  → result (option string * gset string * closures * graph).

(** One iteration of [for member in as_sets_members[as_set]]. *)
Definition member_step (recurse : resolver) (as_set : string)
    (parents : list string) (st : loop_state) (member : string)
  : result loop_state :=
  let '(recursive_parent, nr_origin_asns, db, rec) := st in
  if bool_decide (member = as_set) then Ok st
  else if bool_decide (member ∈ parents) then
    rp ← pick_highest parents recursive_parent member ;
    Ok (rp, nr_origin_asns, db, rec)
  else if negb (has_hyphen member) then
    Ok (recursive_parent, nr_origin_asns ∪ {[member]}, db, rec)
  else
    '(this_member_recursive_parent, member_origin_asns, db, rec) ←
      recurse member db (parents ++ [as_set]) rec ;
    let nr_origin_asns := nr_origin_asns ∪ member_origin_asns in
    match this_member_recursive_parent with
    | None => Ok (recursive_parent, nr_origin_asns, db, rec)
    | Some mrp =>
        if bool_decide (mrp = as_set) then
          Ok (recursive_parent, nr_origin_asns, db, rec)
        else if negb (bool_decide (mrp ∈ parents)) then
          Raise (Exception
            "we got a recursive parent for a child, that we dont have..")
        else
          rp ← pick_highest parents recursive_parent mrp ;
          Ok (rp, nr_origin_asns, db, rec)
    end.

(** The body of [get_origin_asns]. *)
Definition get_origin_asns_body (recurse : resolver) (as_set : string)
    (origin_ases_per_asset : closures) (as_sets_members : graph)
    (parents : list string) (recursive_as_sets : graph)
  : result (option string * gset string * closures * graph) :=
  match origin_ases_per_asset !! as_set with
  | Some origins => Ok (None, origins, origin_ases_per_asset, recursive_as_sets)
  | None =>
    match as_sets_members !! as_set with
    | None => Raise (KeyError as_set)
    | Some members =>
      '(recursive_parent, nr_origin_asns, db, rec) ←
        for_each (member_step recurse as_set parents) (set_iter members)
                 (None, ∅, origin_ases_per_asset, recursive_as_sets) ;
      if truthy recursive_parent then
        Ok (recursive_parent, nr_origin_asns, db,
            defer_under (default "" recursive_parent) as_set rec)
      else
        let '(db, rec) := finalize_closure as_set nr_origin_asns db rec in
        Ok (recursive_parent, nr_origin_asns, db, rec)
    end
  end.

Fixpoint get_origin_asns (fuel : nat) (as_set : string)
    (origin_ases_per_asset : closures) (as_sets_members : graph)
    (parents : list string) (recursive_as_sets : graph)
  : result (option string * gset string * closures * graph) :=
  match fuel with
  | 0 => OutOfFuel
  | S fuel =>
      get_origin_asns_body
        (λ member db new_parents rec,
           get_origin_asns fuel member db as_sets_members new_parents rec)
        as_set origin_ases_per_asset as_sets_members parents recursive_as_sets
  end.

End resolver.

Section resolver_top.
Context `{IterOrder}.

(** Every nested call of [get_origin_asns] extends [parents] by a key of
    the graph that is not yet in it, so the depth of the recursion is at
    most the number of keys, plus one for the outermost call. *)
Definition resolver_fuel (members_per_asset : graph) : nat :=
  S (size members_per_asset).

Definition get_origin_asns_from_members (root_as_set : string)
    (members_per_asset : graph) : result closures :=
  '(rp, _, origin_ases_per_asset, recursive_as_sets) ←
    get_origin_asns (resolver_fuel members_per_asset) root_as_set ∅
                    members_per_asset [] ∅ ;
  if negb (bool_decide (rp = None)) then
    Raise (AssertionError
      "The parent tree depends on a as-set that is not included")
  else if negb (bool_decide (recursive_as_sets = ∅)) then
    Raise (AssertionError
      "Internal error: The recursive_as_sets contains unmanaged recursive as_sets")
  else if negb (bool_decide (dom origin_ases_per_asset = dom members_per_asset)) then
    Raise (AssertionError
      "we did not find the origin ases for all as-sets on the tree")
  else Ok origin_ases_per_asset.

End resolver_top.

(** ** De-cycle transform ([remove_recursivity_from_tree]) *)

(** [_remove_recursivity]: the dict [members_per_asset] and the set
    [removed_links] are mutated in place by the source, so both are threaded
    through the loop and through the nested calls.  The loop runs over
    [sorted(members_per_asset[asset])], a list built when the loop starts. *)
Fixpoint _remove_recursivity (fuel : nat) (asset : string)
    (members_per_asset : graph) (parents : gset string)
    (removed_links : gset (string * string))
  : result (graph * gset (string * string)) :=
  match fuel with
  | 0 => OutOfFuel
  | S fuel =>
    let new_parents := parents ∪ {[asset]} in
    match members_per_asset !! asset with
    | None => Raise (KeyError asset)
    | Some members =>
      for_each
        (λ (st : graph * gset (string * string)) (member : string),
           let '(members_per_asset, removed_links) := st in
           if negb (has_hyphen member) then Ok st
           else if bool_decide (member ∈ parents) then
             let removed_links := removed_links ∪ {[(asset, member)]} in
             (* members_per_asset[asset].remove(member) *)
             match members_per_asset !! asset with
             | None => Raise (KeyError asset)
             | Some current =>
                 if bool_decide (member ∈ current) then
                   Ok (<[asset := current ∖ {[member]}]> members_per_asset,
                       removed_links)
                 else Raise (KeyError member)
             end
           else
             _remove_recursivity fuel member members_per_asset new_parents
                                 removed_links)
        (sorted members) (members_per_asset, removed_links)
    end
  end.

(** [set(m for s in members_per_asset.values() for m in s)]. *)
Definition all_members (members_per_asset : graph) : gset string :=
  map_fold (λ _ s acc, s ∪ acc) ∅ members_per_asset.

(** A nested call either extends [parents] by a new key or is the one
    re-entrant call on [asset] itself. *)
Definition remove_recursivity_fuel (members_per_asset : graph) : nat :=
  2 * size members_per_asset + 2.

Definition remove_recursivity_from_tree (root_asset : string)
    (members_per_asset : graph)
  : result (graph * gset (string * string)) :=
  (* copy.deepcopy: values are immutable here, the copy is the map itself *)
  '(new_members_per_asset, removed_links) ←
    _remove_recursivity (remove_recursivity_fuel members_per_asset) root_asset
                        members_per_asset ∅ ∅ ;
  if negb (bool_decide (dom new_members_per_asset = dom members_per_asset)) then
    Raise (AssertionError "")
  else if negb (bool_decide (all_members members_per_asset
                 = all_members new_members_per_asset ∪ {[root_asset]})) then
    Raise (AssertionError "")
  else Ok (new_members_per_asset, removed_links).

(** ** Leaf-reachability prune ([filter_autnum]) *)

(** State of the member loop of [_filter_autnum]: [new_members],
    [new_members_per_asset], [visited_assets]. *)
Definition filter_state : Type := gset string * graph * gset string.

Fixpoint _filter_autnum (fuel : nat) (as_set : string)
    (allowed_autnum : gset string) (original_members_per_asset : graph)
    (new_members_per_asset : graph) (visited_assets : gset string)
    (parents : gset string) : result (graph * gset string) :=
  match fuel with
  | 0 => OutOfFuel
  | S fuel =>
    if bool_decide (as_set ∈ visited_assets) then
      Ok (new_members_per_asset, visited_assets)
    else if bool_decide (as_set ∈ dom new_members_per_asset) then
      Ok (new_members_per_asset, visited_assets)
    else
      let visited_assets := visited_assets ∪ {[as_set]} in
      let new_parents := parents ∪ {[as_set]} in
      match original_members_per_asset !! as_set with
      | None => Raise (KeyError as_set)
      | Some members =>
        '(new_members, new_members_per_asset, visited_assets) ←
          for_each
            (λ (st : filter_state) (member : string),
               let '(new_members, new_members_per_asset, visited_assets) := st in
               if bool_decide (member ∈ parents) then Ok st
               else if negb (has_hyphen member) then
                 if bool_decide (member ∈ allowed_autnum) then
                   Ok (new_members ∪ {[member]}, new_members_per_asset,
                       visited_assets)
                 else Ok st
               else
                 '(new_members_per_asset, visited_assets) ←
                   (if negb (bool_decide (member ∈ visited_assets)) then
                      _filter_autnum fuel member allowed_autnum
                        original_members_per_asset new_members_per_asset
                        visited_assets new_parents
                    else Ok (new_members_per_asset, visited_assets)) ;
                 if bool_decide (member ∈ dom new_members_per_asset) then
                   Ok (new_members ∪ {[member]}, new_members_per_asset,
                       visited_assets)
                 else Ok (new_members, new_members_per_asset, visited_assets))
            (sorted members) (∅, new_members_per_asset, visited_assets) ;
        if negb (bool_decide (new_members = ∅)) then
          Ok (<[as_set := new_members]> new_members_per_asset, visited_assets)
        else Ok (new_members_per_asset, visited_assets)
      end
  end.

(** Every nested call adds a new key to [visited_assets]. *)
Definition filter_autnum_fuel (original_members_per_asset : graph) : nat :=
  S (size original_members_per_asset).

Definition filter_autnum (root_asset : string) (allowed_autnum : gset string)
    (original_members_per_asset : graph) : result graph :=
  '(new_members_per_asset, _) ←
    _filter_autnum (filter_autnum_fuel original_members_per_asset) root_asset
      allowed_autnum original_members_per_asset ∅ ∅ ∅ ;
  Ok new_members_per_asset.

(** ** Aggregation step of [irrtree_process] (lines 432-446) *)

Section aggregation.
Context `{IterOrder}.

(** [assets_per_origin_as_set.setdefault(origin_as_set, set()).add(asset)] *)
Definition group_step (acc : gmap (gset string) (gset string))
    (item : string * gset string) : gmap (gset string) (gset string) :=
  let '(asset, origin_as_set) := item in
  <[origin_as_set := default ∅ (acc !! origin_as_set) ∪ {[asset]}]> acc.

(** [assets_per_origin_as_set]: the AS-SETs grouped by their closure; the
    key is the frozenset itself, so closures are compared by value. *)
Definition assets_per_origin_as_set (origin_ases_per_asset : closures)
  : gmap (gset string) (gset string) :=
  foldl group_step ∅ (dict_items origin_ases_per_asset).

(** The union of the prefix sets of the AUT-NUMs of one closure. *)
Definition this_prefix_set (prefixes_per_autun : graph)
    (origin_as_set : gset string) : result (gset string) :=
  for_each (λ (acc : gset string) (asn_origin : string),
              match prefixes_per_autun !! asn_origin with
              | None => Raise (Exception
                          ("We did not preload prefixes for " +:+ asn_origin))
              | Some prefixes => Ok (acc ∪ prefixes)
              end)
           (set_iter origin_as_set) ∅.

(** Returns [number_prefixes_per_asset] and [number_origin_asn_per_asset]. *)
Definition number_per_asset (origin_ases_per_asset : closures)
    (prefixes_per_autun : graph) : result (gmap string nat * gmap string nat) :=
  for_each
    (λ (st : gmap string nat * gmap string nat)
       (item : gset string * gset string),
       let '(origin_as_set, assets) := item in
       prefix_set ← this_prefix_set prefixes_per_autun origin_as_set ;
       Ok (foldl (λ (st : gmap string nat * gmap string nat) (asset : string),
                    (<[asset := size prefix_set]> st.1,
                     <[asset := size origin_as_set]> st.2))
                 st (set_iter assets)))
    (dict_items (assets_per_origin_as_set origin_ases_per_asset)) (∅, ∅).

End aggregation.

(** ** Identifier patterns ([datamodels.py]) *)

Definition is_digit (c : ascii) : bool :=
  let n := nat_of_ascii c in (48 <=? n)%nat && (n <=? 57)%nat.

Definition is_aA (c : ascii) : bool := Ascii.eqb c "a" || Ascii.eqb c "A".
Definition is_sS (c : ascii) : bool := Ascii.eqb c "s" || Ascii.eqb c "S".

(** [re_asn.match(s) is not None] for [re_asn = ^[aA][sS]\d+]: the match is
    anchored at the start only, one digit is enough. *)
Definition re_asn (s : string) : bool :=
  match s with
  | String a (String b (String d _)) => is_aA a && is_sS b && is_digit d
  | _ => false
  end.

(** [re_starts_asn = ^[aA][sS]]. *)
Definition re_starts_asn (s : string) : bool :=
  match s with
  | String a (String b _) => is_aA a && is_sS b
  | _ => false
  end.

(** [re_as_set = ^[aA][sS]-.*]. *)
Definition re_as_set (s : string) : bool :=
  match s with
  | String a (String b (String c _)) => is_aA a && is_sS b && Ascii.eqb c "-"
  | _ => false
  end.

Definition is_as_set (as_set_text : string) : bool :=
  if negb (re_starts_asn as_set_text) then false
  else if has_hyphen as_set_text then true
  else false.

(** [str.upper()] on ASCII text. *)
Definition upper_char (c : ascii) : ascii :=
  let n := nat_of_ascii c in
  if (97 <=? n)%nat && (n <=? 122)%nat then ascii_of_nat (n - 32) else c.

Fixpoint upper (s : string) : string :=
  match s with
  | EmptyString => EmptyString
  | String c s' => String (upper_char c) (upper s')
  end.

(** [s[:-1]]. *)
Fixpoint drop_last (s : string) : string :=
  match s with
  | EmptyString => EmptyString
  | String c EmptyString => EmptyString
  | String c s' => String c (drop_last s')
  end.

(** Whitespace of [str.split()] in ASCII. *)
Definition is_space (c : ascii) : bool :=
  let n := nat_of_ascii c in
  ((9 <=? n)%nat && (n <=? 13)%nat) || ((28 <=? n)%nat && (n <=? 32)%nat).

(** [s.split()]: the maximal runs of non-whitespace characters.  [cur] is the
    run being read, reversed. *)
Fixpoint split_from (cur : list ascii) (s : string) : list string :=
  let flush := match cur with
               | [] => []
               | _ => [String.string_of_list_ascii (rev cur)]
               end in
  match s with
  | EmptyString => flush
  | String c s' =>
      if is_space c then (flush ++ split_from [] s')
      else split_from (c :: cur) s'
  end.

Definition split (s : string) : list string := split_from [] s.

(** ** Protocol session ([Worker]) *)

Inductive log_level : Type := DEBUG | WARNING | ERROR.

Record IRRServerOptions : Type := {
  irr_host : string;
  irr_port : Z;
  afi : Z;
  sources_list : option string;
  server_max_restarts : Z
}.

(** The attributes of a [Worker] and the part of the world it acts on.
    - [connection]: [None] before the first [initialize]; otherwise the raw
      lines [reader.readline()] is still going to return, each with its line
      end; when they are used up [readline()] returns the empty line of an
      end of stream.
    - [network]: what each later [asyncio.open_connection] gives, a refused
      connection ([None]) or the lines of the new stream.
    - [written]: the messages passed to [writer.write], in order.
    - [log]: the records sent to [LOGGER]. *)
Record Worker : Type := {
  worker_id : nat;
  server : IRRServerOptions;
  max_restarts : Z;
  restarts : Z;
  connection : option (list string);
  network : list (option (list string));
  written : list string;
  log : list (log_level * string)
}.


Definition set_restarts (n : Z) (w : Worker) : Worker :=
  {| worker_id := worker_id w; server := server w;
     max_restarts := max_restarts w; restarts := n;
     connection := connection w; network := network w;
     written := written w; log := log w |}.

Definition set_connection (c : option (list string)) (w : Worker) : Worker :=
  {| worker_id := worker_id w; server := server w;
     max_restarts := max_restarts w; restarts := restarts w;
     connection := c; network := network w;
     written := written w; log := log w |}.

Definition set_network (n : list (option (list string))) (w : Worker) : Worker :=
  {| worker_id := worker_id w; server := server w;
     max_restarts := max_restarts w; restarts := restarts w;
     connection := connection w; network := n;
     written := written w; log := log w |}.

Definition add_written (msg : string) (w : Worker) : Worker :=
  {| worker_id := worker_id w; server := server w;
     max_restarts := max_restarts w; restarts := restarts w;
     connection := connection w; network := network w;
     written := (written w ++ [msg]); log := log w |}.

Definition add_log (lvl : log_level) (msg : string) (w : Worker) : Worker :=
  {| worker_id := worker_id w; server := server w;
     max_restarts := max_restarts w; restarts := restarts w;
     connection := connection w; network := network w;
     written := written w;
     log := (log w ++ [(lvl, "w" +:+ pretty (worker_id w) +:+ ": " +:+ msg)]) |}.

Definition debug (msg : string) (w : Worker) : Worker := add_log DEBUG msg w.
Definition warning (msg : string) (w : Worker) : Worker := add_log WARNING msg w.

Definition send (command : string) (w : Worker) : result Worker :=
  let w := debug ("sending: " +:+ command) w in
  match connection w with
  | None => Raise (AttributeError "writer")
  | Some _ => Ok (add_written (command +:+ String "013" (String "010" "")) w)
  end.

Definition receive (w : Worker) : result (string * Worker) :=
  match connection w with
  | None => Raise (AttributeError "reader")
  | Some [] => Ok (drop_last "", w)
  | Some (line :: lines) => Ok (drop_last line, set_connection (Some lines) w)
  end.

(** [asyncio.open_connection]. *)
Definition open_connection (w : Worker) : result Worker :=
  match network w with
  | [] | None :: _ => Raise (OSError "connection failed")
  | Some lines :: net => Ok (set_connection (Some lines) (set_network net w))
  end.

Definition nonempty (s : string) : bool := negb (String.eqb s "").

Definition initialize (w : Worker) : result Worker :=
  w ← open_connection w ;
  w ← send "!!" w ;
  w ← send "!t1000" w ;
  '(_, w) ← receive w ;
  match sources_list (server w) with
  | Some sources =>
      if nonempty sources then
        w ← send ("!s" +:+ sources) w ;
        '(answer, w) ← receive w ;
        if negb (String.eqb answer "C") then
          Raise (Exception ("w" +:+ pretty (worker_id w)
                   +:+ ": Got an error while setting the list. Answer "
                   +:+ answer))
        else Ok w
      else Ok w
  | None => Ok w
  end.

(** [writer.close()] then [initialize()]. *)
Definition restart (w : Worker) : result Worker :=
  initialize (set_connection None w).

(** The [while True] loop of [send_and_receive]; every turn that does not
    return or raise has lowered [restarts] and left it non-negative. *)
Fixpoint send_and_receive_loop (fuel : nat) (command : string) (w : Worker)
  : result (string * Worker) :=
  match fuel with
  | 0 => OutOfFuel
  | S fuel =>
    w ← send command w ;
    '(response, w) ← receive w ;
    if negb (nonempty response) then
      let w := set_restarts (restarts w - 1) w in
      if bool_decide (restarts w < 0)%Z then
        Raise (Exception "We got to the limit of restarts, failing")
      else
        let w := warning "We got an EOF from socket. Restarting connection " w in
        match restart w with
        | Ok w => send_and_receive_loop fuel command w
        | Raise e => Raise (ExceptionFrom "Failed restarting connection." e)
        | OutOfFuel => OutOfFuel
        end
    else Ok (response, w)
  end.

Definition send_and_receive (command : string) (w : Worker)
  : result (string * Worker) :=
  send_and_receive_loop (S (Z.to_nat (restarts w))) command w.

Definition query_text (cmd as_set : string) (recurse : bool) : string :=
  "!" +:+ cmd +:+ as_set +:+ (if recurse then ",1" else "").

(** [s[1:]]. *)
Definition tail_str (s : string) : string :=
  match s with
  | EmptyString => EmptyString
  | String _ s' => s'
  end.

Definition query (cmd as_set : string) (recurse : bool) (w : Worker)
  : result (gset string * Worker) :=
  let query := query_text cmd as_set recurse in
  '(answer, w) ← send_and_receive query w ;
  if String.eqb answer "D" then Ok (∅, w)
  else
    match answer with
    | EmptyString => Raise (IndexError "string index out of range")
    | String first _ =>
      if Ascii.eqb first "F" then
        let w := debug ("Error: " +:+ tail_str answer) w in
        let w := debug ("Query was: " +:+ query) w in
        Raise (Exception ("w" +:+ pretty (worker_id w) +:+ ": Error on query "
                 +:+ query +:+ ", answer was " +:+ answer))
      else if Ascii.eqb first "A" then
        let w := debug ("Info: receiving " +:+ tail_str answer +:+ " bytes") w in
        '(unfiltered_value, w) ← receive w ;
        let results : gset string := list_to_set (split unfiltered_value) in
        '(close_return, w) ← receive w ;
        let w := if negb (String.eqb close_return "C") then
                   warning ("Error: something went wrong with: " +:+ query
                            +:+ ". Not closing with C") w
                 else w in
        Ok (results, w)
      else
        Ok (∅, warning ("Response for query not processed. Query is " +:+ query) w)
    end.

Section members.
Context `{IterOrder}.

(** One iteration of [for result in unfiltered_members]. *)
Definition validate_member (as_set : string) (st : gset string * Worker)
    (result : string) : gset string * Worker :=
  let '(members, w) := st in
  if re_asn result then (members ∪ {[upper result]}, w)
  else if re_as_set result then (members ∪ {[upper result]}, w)
  else (members,
        warning ("Warning: not honoring mbrs-by-ref for object " +:+ as_set
                 +:+ " with '" +:+ result +:+ "'") w).

Definition get_members (as_set : string) (recurse : bool) (w : Worker)
  : result (gset string * Worker) :=
  if negb (is_as_set as_set) then
    Raise (Exception ("Trying to get members from " +:+ as_set
             +:+ " which does not look like an as-set"))
  else
    '(unfiltered_members, w) ← query "i" as_set recurse w ;
    Ok (foldl (validate_member as_set) (∅, w) (set_iter unfiltered_members)).

End members.

(** ** Crawl coordinator ([join_queue_or_workers]) *)

(** The tasks handed to [asyncio.wait]: the task of [queue.join()] and one
    task per worker. *)
Inductive task : Type :=
  | queue_join_task
  | worker_task (n : nat).

Global Instance task_eq_dec : EqDecision task.
Proof. solve_decision. Defined.

(** How a task in [done] has ended. *)
Inductive outcome : Type :=
  | Returned
  | Failed (e : exn)
  | WasCancelled.

(** [task.exception()] of a task that is done. *)
Definition task_exception (o : outcome) : result (option exn) :=
  match o with
  | Returned => Ok None
  | Failed e => Ok (Some e)
  | WasCancelled => Raise CancelledError
  end.

(** One iteration of [for task in done]. *)
Definition raise_task_exception (_ : unit) (t : task * outcome) : result unit :=
  if negb (bool_decide (t.1 = queue_join_task)) then
    exception ← task_exception t.2 ;
    match exception with
    | Some e => Raise e
    | None => Ok ()
    end
  else Ok ().

(** The part of [join_queue_or_workers] after [asyncio.wait] has returned
    [(done, pending)]; [done] is given in the order the loop visits it.  The
    second component of the value lists the tasks [cancel()] was called on. *)
Definition join_queue_or_workers (done : list (task * outcome))
    (pending : list task) : result unit * list task :=
  match for_each raise_task_exception done () with
  | Ok _ =>
      if negb (bool_decide (queue_join_task ∈ done.*1)) then
        (Raise (Exception "Main job did not finish.."), [])
      else (Ok (), pending)
  | Raise e => (Raise e, [])
  | OutOfFuel => (OutOfFuel, [])
  end.

(** [e] is what [task.exception()] returns or raises for the outcome [o]. *)
Definition raised_for (o : outcome) (e : exn) : Prop :=
  o = Failed e ∨ (o = WasCancelled ∧ e = CancelledError).

(** ** Notions of the specification *)

(** [m] is a direct member of the key [s]. *)
Definition member_of (g : graph) (s m : string) : Prop :=
  ∃ members, g !! s = Some members ∧ m ∈ members.

(** [x] is reached from [s] by following members, descending only through
    AS-SET members (names with a hyphen): AUT-NUMs are leaves. *)
Inductive reaches (g : graph) : string → string → Prop :=
  | reaches_member s m : member_of g s m → reaches g s m
  | reaches_step s m x :
      member_of g s m → has_hyphen m = true → reaches g m x → reaches g s x.

(** [a] is an AUT-NUM transitively reachable from [s], other than [s]. *)
Definition origin_of (g : graph) (s a : string) : Prop :=
  reaches g s a ∧ has_hyphen a = false ∧ a ≠ s.

(** No path that starts at [root] visits a node twice. *)
Definition acyclic_from (g : graph) (root : string) : Prop :=
  ∀ n, n = root ∨ reaches g root n → ¬ reaches g n n.

(** Every AS-SET member of a key is itself a key. *)
Definition members_closed (g : graph) : Prop :=
  ∀ s m, member_of g s m → has_hyphen m = true → is_Some (g !! m).

(** The same, for the part of the graph that [root] reaches. *)
Definition complete_from (g : graph) (root : string) : Prop :=
  is_Some (g !! root) ∧
  ∀ m, reaches g root m → has_hyphen m = true → is_Some (g !! m).

(** The union of the prefix sets of the AUT-NUMs of a closure. *)
Definition prefix_union (prefixes_per_autun : graph) (closure : gset string)
  : gset string :=
  ⋃ ((λ asn, default ∅ (prefixes_per_autun !! asn)) <$> elements closure).

(** A member that the prune keeps: an allowed AUT-NUM, or an AS-SET that is
    a key of the output. *)
Definition retained (allowed_autnum : gset string) (out : graph) (m : string)
  : Prop :=
  (has_hyphen m = false ∧ m ∈ allowed_autnum)
  ∨ (has_hyphen m = true ∧ m ∈ dom out).

(** ** Invariants of the resolver *)

(** Every stored closure is the set of AUT-NUMs its AS-SET reaches. *)
Definition db_ok (g : graph) (db : closures) : Prop :=
  ∀ t c, db !! t = Some c → ∀ a, a ∈ c ↔ origin_of g t a.

(** With an AS-SET, the AS-SETs it reaches have their closure stored too. *)
Definition db_closed (g : graph) (db : closures) : Prop :=
  ∀ t x, is_Some (db !! t) → reaches g t x → has_hyphen x = true →
         is_Some (db !! x).

(** [t] is deferred under some key of [recursive_as_sets]. *)
Definition waits (rec : graph) (t : string) : Prop :=
  ∃ k X, rec !! k = Some X ∧ t ∈ X.

(** ** Invariant of the prune *)

(** Every key of the output has members, all taken from its members in the
    input, and all retained. *)
Definition filter_inv (allowed : gset string) (g new : graph) : Prop :=
  ∀ k ms, new !! k = Some ms →
    ms ≠ ∅ ∧ (∃ ms0, g !! k = Some ms0 ∧ ms ⊆ ms0)
    ∧ ∀ m, m ∈ ms → retained allowed new m.

(** ** Notions used for the worker *)

(** The record [warning] writes for a member token that is dropped. *)
Definition member_warning (w : Worker) (as_set t : string) : log_level * string :=
  (WARNING, "w" +:+ pretty (worker_id w) +:+ ": "
            +:+ ("Warning: not honoring mbrs-by-ref for object " +:+ as_set
                 +:+ " with '" +:+ t +:+ "'")).

(** The token matches the AUT-NUM pattern or the AS-SET pattern. *)
Definition is_member_name (t : string) : bool := re_asn t || re_as_set t.

(** ** Example sessions *)

Definition newline : string := String "010" "".

Definition example_server : IRRServerOptions :=
  {| irr_host := "rr.ntt.net"; irr_port := 43; afi := 4;
     sources_list := None; server_max_restarts := 1 |}.

(** A worker on the connection [lines], with one restart left, in a world
    where [net] is what later connections give. *)
Definition example_worker (lines : list string)
    (net : list (option (list string))) : Worker :=
  {| worker_id := 0; server := example_server; max_restarts := 1;
     restarts := 1; connection := Some lines; network := net;
     written := []; log := [] |}.

(** A session that answers a member query with two routing names and a
    role object, the tokens of the answer, and the worker after the query. *)
Definition members_session : Worker :=
  example_worker ["A19" +:+ newline; "AS1 as-bar ROLE-X" +:+ newline;
                  "C" +:+ newline] [].

Definition members_tokens : gset string := {[ "AS1"; "as-bar"; "ROLE-X" ]}.

Definition members_session_after : Worker :=
  {| worker_id := 0; server := example_server; max_restarts := 1;
     restarts := 1; connection := Some []; network := [];
     written := ["!iAS-FOO" +:+ String "013" newline];
     log := [(DEBUG, "w0: sending: !iAS-FOO");
             (DEBUG, "w0: Info: receiving 19 bytes")] |}.

(** ** Example graphs of the specification *)

Definition graph_cycle : graph :=
  {[ "AS-A" := {[ "AS-B" ]}; "AS-B" := {[ "AS-A"; "AS1" ]} ]}.

Definition graph_tree : graph :=
  {[ "AS-A" := {[ "AS-B"; "AS1" ]}; "AS-B" := {[ "AS2" ]} ]}.

(** A complete, acyclic graph under AS-A, and a key that AS-A does not reach. *)
Definition graph_island : graph :=
  {[ "AS-A" := {[ "AS1" ]}; "AS-X" := {[ "AS2" ]} ]}.

(** Two AS-SETs with the closure {AS1, AS2}; AS1 has three prefixes and AS2
    two, one of them shared. *)
Definition closures_shared : closures :=
  {[ "AS-A" := {[ "AS1"; "AS2" ]}; "AS-B" := {[ "AS1"; "AS2" ]} ]}.

Definition prefixes_overlap : graph :=
  {[ "AS1" := {[ "10.0.0.0/24"; "10.0.1.0/24"; "10.0.2.0/24" ]};
     "AS2" := {[ "10.0.2.0/24"; "10.0.3.0/24" ]} ]}.

(** ** [get_irr_output] ([analyze_functions.py]) *)

Section analyze.
Context `{IterOrder}.

(** [metadata_as_set] is [metadata.as_set], the only field of the metadata
    the function reads.  The function is [get_origin_asns_from_members]
    without its third assertion. *)
Definition get_irr_output (metadata_as_set : string) (as_sets_members : graph)
  : result closures :=
  '(rp, _, origin_ases_per_asset, recursive_as_sets) ←
    get_origin_asns (resolver_fuel as_sets_members) metadata_as_set ∅
                    as_sets_members [] ∅ ;
  if negb (bool_decide (rp = None)) then
    Raise (AssertionError
      "The parent tree depends on a as-set that is not included")
  else if negb (bool_decide (recursive_as_sets = ∅)) then
    Raise (AssertionError
      "The recursive_as_sets contains unmanaged recursive as_sets")
  else Ok origin_ases_per_asset.

(** [asn_objects] of [irrtree_process] (lines 372-377): the members without
    a hyphen, over all keys. *)
Definition asn_objects (members_per_asset : graph) : gset string :=
  foldl (λ (asn_objects : gset string) (item : string * gset string),
           foldl (λ (asn_objects : gset string) (member : string),
                    if has_hyphen member then asn_objects
                    else asn_objects ∪ {[member]})
                 asn_objects (set_iter item.2))
        ∅ (dict_items members_per_asset).

End analyze.

(** ** The worker loops ([Worker.run_get_tree], [Worker.run_resolve_objects]) *)

(** What the workers of the first phase share: the items of the
    [asyncio.Queue] in the order [get] returns them, [members_per_asset] and
    [visited]. *)
Record tree_state : Type := {
  tree_queue : list string;
  tree_members : graph;
  tree_visited : gset string
}.

(** [Worker.terminate]: [writer.close()] leaves the worker without a
    connection. *)
Definition terminate (w : Worker) : result Worker :=
  w ← send "!q" w ;
  Ok (set_connection None w).

Section worker_loops.
Context `{IterOrder}.

(** One turn of [for member in members_per_asset[item]] in [run_get_tree]. *)
Definition enqueue_member (st : tree_state) (member : string) : tree_state :=
  if negb (has_hyphen member) then st
  else if bool_decide (member ∈ tree_visited st)
          || bool_decide (member ∈ dom (tree_members st)) then st
  else {| tree_queue := tree_queue st ++ [member];
          tree_members := tree_members st;
          tree_visited := tree_visited st ∪ {[member]} |}.

(** One turn of the [while True] loop of [run_get_tree], for the [item] that
    [queue.get()] returned ([pbar] is [None]). *)
Definition get_tree_item (filtered_as_sets : gset string) (item : string)
    (w : Worker) (st : tree_state) : result (Worker * tree_state) :=
  let w := debug ("Processing " +:+ item +:+ " for members") w in
  if bool_decide (item ∈ dom (tree_members st)) then
    Ok (warning ("Reprocessing item " +:+ item) w, st)
  else
    '(unfiltered_sets, w) ← get_members item false w ;
    let members : gset string :=
      filter (λ m, m ∉ filtered_as_sets) unfiltered_sets in
    let st := {| tree_queue := tree_queue st;
                 tree_members := <[item := members]> (tree_members st);
                 tree_visited := tree_visited st |} in
    Ok (w, foldl enqueue_member st (set_iter members)).

(** The loop of [run_get_tree] run by one worker.  When the queue is empty
    [queue.get()] never returns: every item has been marked done, so
    [queue.join()] completes and the coordinator cancels the task; the state
    at that point is the value.  The fuel counts the turns. *)
Fixpoint run_get_tree_loop (fuel : nat) (filtered_as_sets : gset string)
    (w : Worker) (st : tree_state) : result (Worker * tree_state) :=
  match fuel with
  | 0 => OutOfFuel
  | S fuel =>
    match tree_queue st with
    | [] => Ok (w, st)
    | item :: items =>
      '(w, st) ← get_tree_item filtered_as_sets item w
                   {| tree_queue := items; tree_members := tree_members st;
                      tree_visited := tree_visited st |} ;
      run_get_tree_loop fuel filtered_as_sets w st
    end
  end.

Definition run_get_tree (fuel : nat) (filtered_as_sets : gset string)
    (w : Worker) (st : tree_state) : result (Worker * tree_state) :=
  match connection w with
  | None => Raise (AttributeError "reader")
  | Some _ =>
    if bool_decide (tree_visited st = ∅) then
      Raise (Exception
        "The starting visited set is empty but should contain at least the root as-set")
    else run_get_tree_loop fuel filtered_as_sets w st
  end.

(** One turn of the loop of [run_resolve_objects]; the state is the queue
    and [prefixes_per_autun]. *)
Definition resolve_item (item : string) (w : Worker) (prefixes_per_autun : graph)
  : result (Worker * graph) :=
  let w := debug ("Resolving " +:+ item) w in
  if has_hyphen item then
    Raise (Exception "Resolving as-sets is not yet implemented")
  else if bool_decide (item ∈ dom prefixes_per_autun) then
    Ok (warning ("Attempted repeated processing of " +:+ item) w,
        prefixes_per_autun)
  else
    '(prefixes, w) ←
      query (if bool_decide (afi (server w) = 4%Z) then "g" else "6") item false w ;
    Ok (w, <[item := prefixes]> prefixes_per_autun).

Fixpoint run_resolve_objects_loop (fuel : nat) (w : Worker)
    (queue : list string) (prefixes_per_autun : graph)
  : result (Worker * graph) :=
  match fuel with
  | 0 => OutOfFuel
  | S fuel =>
    match queue with
    | [] => Ok (w, prefixes_per_autun)
    | item :: items =>
      '(w, prefixes_per_autun) ← resolve_item item w prefixes_per_autun ;
      run_resolve_objects_loop fuel w items prefixes_per_autun
    end
  end.

Definition run_resolve_objects (fuel : nat) (w : Worker) (queue : list string)
    (prefixes_per_autun : graph) : result (Worker * graph) :=
  match connection w with
  | None => Raise (AttributeError "reader")
  | Some _ => run_resolve_objects_loop fuel w queue prefixes_per_autun
  end.

End worker_loops.

(** The messages [initialize] writes. *)
Definition handshake (sources : option string) : list string :=
  ["!!" +:+ String "013" (String "010" "");
   "!t1000" +:+ String "013" (String "010" "")]
  ++ match sources with
     | Some s => if nonempty s then ["!s" +:+ s +:+ String "013" (String "010" "")]
                 else []
     | None => []
     end.

(** ** Invariants of the resolver on graphs with cycles *)

(** [x] has its closure stored or is deferred. *)
Definition resolved (db : closures) (rec : graph) (x : string) : Prop :=
  is_Some (db !! x) ∨ waits rec x.

(** The AS-SET members of whatever is resolved are resolved, or are among
    the AS-SETs still being walked. *)
Definition resolved_closed (g : graph) (db : closures) (rec : graph)
    (walking : list string) : Prop :=
  ∀ x m, resolved db rec x → member_of g x m → has_hyphen m = true →
         resolved db rec m ∨ m ∈ walking.

(** Closures hold AUT-NUMs their AS-SET reaches. *)
Definition db_sound (g : graph) (db : closures) : Prop :=
  ∀ t c a, db !! t = Some c → a ∈ c → has_hyphen a = false ∧ reaches g t a.

(** Whatever is deferred under [k] reaches [k], and [k] is an AS-SET. *)
Definition rec_sound (g : graph) (rec : graph) : Prop :=
  ∀ k X t, rec !! k = Some X → t ∈ X → has_hyphen k = true ∧ reaches g t k.

(** Every key of the graph is the root or an AS-SET the root reaches. *)
Definition rooted (g : graph) (root : string) : Prop :=
  ∀ k, is_Some (g !! k) → k = root ∨ (reaches g root k ∧ has_hyphen k = true).

(** ** Invariant of the crawl *)

(** The root is visited; every visited name is a key or in the queue; what
    is in the queue is visited and is the root or an AS-SET the root reaches;
    every key passes [is_as_set], is visited and is the root or an AS-SET the
    root reaches; and every member of a key is not filtered, is an upper-case
    member name and, when it is an AS-SET, is visited. *)
Definition tree_inv (root : string) (filtered_as_sets : gset string)
    (st : tree_state) : Prop :=
  root ∈ tree_visited st
  ∧ (∀ x, x ∈ tree_visited st → is_Some (tree_members st !! x) ∨ x ∈ tree_queue st)
  ∧ (∀ x, x ∈ tree_queue st →
       x ∈ tree_visited st
       ∧ (x = root ∨ (reaches (tree_members st) root x ∧ has_hyphen x = true)))
  ∧ (∀ k ms, tree_members st !! k = Some ms →
       is_as_set k = true ∧ k ∈ tree_visited st
       ∧ (k = root ∨ (reaches (tree_members st) root k ∧ has_hyphen k = true))
       ∧ ∀ m, m ∈ ms → (m ∉ filtered_as_sets) ∧ is_member_name m = true
                       ∧ upper m = m
                       ∧ (has_hyphen m = true → m ∈ tree_visited st)).

(** The state [irrtree_process] starts the crawl from. *)
Definition tree_start (root : string) : tree_state :=
  {| tree_queue := [root]; tree_members := ∅; tree_visited := {[root]} |}.

(** ** Invariants of the resolver that give complete closures *)

(** [a] is at [b] or closer to the top of [parents] than [b]. *)
Definition at_or_above (parents : list string) (a b : string) : Prop :=
  ∃ i j, index parents a = Some i ∧ index parents b = Some j ∧ (i ≤ j)%nat.

(** Every closure holds the AUT-NUM members of its AS-SET and the closures
    of its AS-SET members. *)
Definition closures_local (g : graph) (db : closures) : Prop :=
  ∀ x c m, db !! x = Some c → member_of g x m →
    (has_hyphen m = false → m ∈ c)
    ∧ (has_hyphen m = true → ∃ c', db !! m = Some c' ∧ c' ⊆ c).

(** The state between two steps of the walk, with [parents] being walked. *)
Definition walk_inv (g : graph) (parents : list string) (db : closures)
    (rec : graph) : Prop :=
  (∀ k, is_Some (rec !! k) → k ∈ parents)
  ∧ rec_sound g rec ∧ db_sound g db
  ∧ (∀ p, p ∈ parents → db !! p = None)
  ∧ closures_local g db.

(** [N] are the AS-SETs a call has deferred: none is being walked, each
    waits under a key that
    [bound] allows, its AS-SET members have a closure, are deferred too or
    are allowed by [bound], and [c] holds its AUT-NUM members and the
    closures of its members. *)
Definition deferred_in (g : graph) (walking : list string)
    (bound : string → Prop) (c : gset string)
    (db' : closures) (rec rec' : graph) (N : gset string) : Prop :=
  (∀ t, t ∈ N → t ∉ walking)
  ∧ (∀ t, t ∈ N → ∃ k X, rec' !! k = Some X ∧ t ∈ X ∧ bound k)
  ∧ (∀ t m, t ∈ N → member_of g t m → has_hyphen m = true →
       is_Some (db' !! m) ∨ m ∈ N ∨ bound m)
  ∧ (∀ t m, t ∈ N → member_of g t m →
       (has_hyphen m = false → m ∈ c)
       ∧ (has_hyphen m = true → ∀ c', db' !! m = Some c' → c' ⊆ c))
  ∧ (∀ k X t, rec' !! k = Some X → t ∈ X →
       (∃ X0, rec !! k = Some X0 ∧ t ∈ X0) ∨ (t ∈ N ∧ bound k)).

(** What [bound] is when a call returns [rp]. *)
Definition under (parents : list string) (rp : option string) (x : string) : Prop :=
  ∃ p, rp = Some p ∧ at_or_above parents p x.

(** The members of [as_set] the loop has gone through: an AUT-NUM is in
    [nr]; an AS-SET is allowed by [bound], has a closure inside [nr], or is
    deferred. *)
Definition members_seen (bound : string → Prop) (nr : gset string)
    (db : closures) (N : gset string) (done : list string) : Prop :=
  ∀ m, m ∈ done →
    (has_hyphen m = false → m ∈ nr)
    ∧ (has_hyphen m = true →
         bound m ∨ (∃ c', db !! m = Some c' ∧ c' ⊆ nr) ∨ m ∈ N).

(** ** An example run of the two phases *)

(** A server that has AS-FOO = {AS1, as-bar, ROLE-X} and AS-BAR = {AS2,
    AS-FOO}, and one prefix for each AUT-NUM. *)
Definition crawl_session : Worker :=
  example_worker
    ["A19" +:+ newline; "AS1 as-bar ROLE-X" +:+ newline; "C" +:+ newline;
     "A11" +:+ newline; "AS2 AS-FOO" +:+ newline; "C" +:+ newline;
     "A12" +:+ newline; "10.0.0.0/24" +:+ newline; "C" +:+ newline;
     "A12" +:+ newline; "10.0.1.0/24" +:+ newline; "C" +:+ newline] [].

Definition crawl_graph : graph :=
  {[ "AS-FOO" := {[ "AS1"; "AS-BAR" ]}; "AS-BAR" := {[ "AS2"; "AS-FOO" ]} ]}.

Definition is_ok {A} (r : result A) : bool :=
  match r with Ok _ => true | _ => false end.

(** The first phase on that server, and the worker and the state it ends
    with. *)
Definition crawl_run : result (Worker * tree_state) :=
  run_get_tree (H:=elements_order) 3 ∅ crawl_session (tree_start "AS-FOO").

Definition crawl_out : Worker * tree_state :=
  match crawl_run with
  | Ok r => r
  | _ => (crawl_session, tree_start "AS-FOO")
  end.

(** The second phase, run by the same worker on the AUT-NUMs of the crawled
    graph. *)
Definition resolve_run : result (Worker * graph) :=
  run_resolve_objects 3 crawl_out.1
    (set_iter (IterOrder:=elements_order)
       (asn_objects (H:=elements_order) (tree_members crawl_out.2))) ∅.

Definition resolve_out : Worker * graph :=
  match resolve_run with
  | Ok r => r
  | _ => (crawl_out.1, ∅)
  end.

(** The resolver on the graph with a key the root does not reach. *)
Definition island_run : result closures :=
  get_origin_asns_from_members (H:=elements_order) "AS-A" graph_island.

Definition raises_assertion {A} (r : result A) (msg : string) : bool :=
  match r with
  | Raise (AssertionError m) => String.eqb m msg
  | _ => false
  end.

(** * Properties *)

(** ** Loops *)

Lemma for_each_app {A S} (body : S → A → result S) l1 l2 st :
  for_each body (l1 ++ l2) st = st' ← for_each body l1 st ; for_each body l2 st'.
Proof.
  revert st. induction l1 as [|x l1 IH]; intros st; simpl; [done|].
  destruct (body st x); simpl; auto.
Qed.

(** Invariant rule: [P done st] relates the elements already visited to the
    state. *)
Lemma for_each_inv {A S} (P : list A → S → Prop) (body : S → A → result S) l st0 :
  P [] st0 →
  (∀ done x st, x ∈ l → P done st →
     ∃ st', body st x = Ok st' ∧ P (done ++ [x]) st') →
  ∃ st', for_each body l st0 = Ok st' ∧ P l st'.
Proof.
  intros H0 Hstep.
  assert (Hgen : ∀ todo done st, (∀ x, x ∈ todo → x ∈ l) → P done st →
            ∃ st', for_each body todo st = Ok st' ∧ P (done ++ todo) st').
  { induction todo as [|x todo IH]; intros done st Hin HP; simpl.
    - exists st. by rewrite app_nil_r.
    - destruct (Hstep done x st) as (st' & -> & HP'); [apply Hin; left | done |].
      simpl. destruct (IH (done ++ [x]) st') as (st'' & Hrun & HP'').
      + intros y Hy. apply Hin. by right.
      + done.
      + exists st''. split; [done|]. by rewrite <-app_assoc in HP''. }
  destruct (Hgen l [] st0) as (st' & ? & ?); eauto.
Qed.

(** The same rule for runs that are known to have ended normally. *)
Lemma for_each_inv_ok {A S} (P : S → Prop) (body : S → A → result S) l st0 st1 :
  for_each body l st0 = Ok st1 →
  P st0 →
  (∀ x st st', x ∈ l → P st → body st x = Ok st' → P st') →
  P st1.
Proof.
  revert st0. induction l as [|x l IH]; intros st0 Hrun H0 Hstep; simpl in *.
  - by simplify_eq.
  - destruct (body st0 x) as [st'| |] eqn:Hb; simplify_eq/=.
    eapply IH; [done| |].
    + eapply Hstep; [left|done..].
    + intros y st st'' Hy. apply Hstep. by right.
Qed.


(** ** Sequencing *)


Lemma bind_not_out_of_fuel {A B} (r : result A) (k : A → result B) :
  r ≠ OutOfFuel → (∀ a, k a ≠ OutOfFuel) → r ≫= k ≠ OutOfFuel.
Proof. destruct r as [a| |]; simpl; [auto|done..]. Qed.

Lemma bind_ok {A B} (a : A) (k : A → result B) : Ok a ≫= k = k a.
Proof. reflexivity. Qed.

Lemma bind_raise {A B} (e : exn) (k : A → result B) : Raise e ≫= k = Raise e.
Proof. reflexivity. Qed.

Lemma for_each_not_out_of_fuel {A S} (body : S → A → result S) l st :
  (∀ st x, x ∈ l → body st x ≠ OutOfFuel) → for_each body l st ≠ OutOfFuel.
Proof.
  revert st. induction l as [|x l IH]; intros st Hb; simpl; [done|].
  destruct (body st x) as [st'| |] eqn:Hx; simpl; [|done|].
  - apply IH. intros st0 y Hy. apply Hb. by right.
  - exfalso. eapply Hb; [|done]. by left.
Qed.

Lemma for_each_total_inv {A S} (P : S → Prop) (body : S → A → result S) l st0 :
  P st0 →
  (∀ st x, x ∈ l → P st →
     body st x ≠ OutOfFuel ∧ ∀ st', body st x = Ok st' → P st') →
  for_each body l st0 ≠ OutOfFuel.
Proof.
  revert st0. induction l as [|x l IH]; intros st0 H0 Hb; simpl; [done|].
  destruct (Hb st0 x) as [Hne Hok]; [by left|done|].
  destruct (body st0 x) as [st'| |]; simpl; [|done..].
  apply IH; [by apply Hok|]. intros st y Hy. apply Hb. by right.
Qed.

(** ** Evaluation on concrete graphs, for every iteration order *)

Lemma perm_pair_cases {A} (l : list A) (a b : A) :
  l ≡ₚ [a; b] → l = [a; b] ∨ l = [b; a].
Proof.
  intros Hp. symmetry in Hp.
  apply Permutation_cons_inv_l in Hp as (k1 & k2 & -> & Hp).
  apply Permutation_singleton_l in Hp.
  destruct k1 as [|x [|y k1]]; simplify_eq/=; auto.
Qed.

(** Replaces [set_iter X], for a concrete [X] of at most two elements, by
    each of the orders it can have. *)
Ltac resolve_set_iter :=
  match goal with
  | |- context [@set_iter ?H ?A ?E ?C ?X] =>
      let Hp := fresh "Hp" in
      pose proof (@set_iter_perm H A E C X) as Hp;
      let l := eval vm_compute in (elements X) in
      change (elements X) with l in Hp;
      first
        [ apply Permutation_nil_r in Hp
        | apply Permutation_singleton_r in Hp
        | apply perm_pair_cases in Hp; destruct Hp as [Hp | Hp] ];
      rewrite Hp; clear Hp
  end.

(** Evaluates a subterm that does not depend on the iteration order. *)
Ltac eval_closed t :=
  lazymatch t with
  | context [@set_iter] => fail
  | _ => let v := eval vm_compute in t in
         replace t with v by (vm_compute; reflexivity)
  end.

Ltac eval_stuck :=
  repeat match goal with
  | |- context [@lookup ?K ?A ?M ?L ?k ?m] => eval_closed (@lookup K A M L k m)
  | |- context [@bool_decide ?P ?D] => eval_closed (@bool_decide P D)
  | |- context [has_hyphen ?s] => eval_closed (has_hyphen s)
  | |- context [pick_highest ?a ?b ?c] => eval_closed (pick_highest a b c)
  | |- context [truthy ?a] => eval_closed (truthy a)
  | |- context [size ?m] => eval_closed (size m)
  end.

Ltac run_step :=
  cbv beta iota zeta delta
    [for_each mbind result_bind get_origin_asns_body member_step
     get_origin_asns_from_members resolver_fuel finalize_closure
     defer_under setdefault_add foldl default negb app];
  eval_stuck.

Lemma get_origin_asns_S `{IterOrder} fuel as_set db g parents rec :
  get_origin_asns (S fuel) as_set db g parents rec
  = get_origin_asns_body
      (λ member db new_parents rec, get_origin_asns fuel member db g new_parents rec)
      as_set db g parents rec.
Proof. reflexivity. Qed.

(** The nested call on AS-B: it sees its ancestor AS-A among its members and
    is deferred under it. *)
Lemma cycle_inner `{IterOrder} fuel :
  get_origin_asns (S fuel) "AS-B" ∅ graph_cycle ["AS-A"] ∅
  = Ok (Some "AS-A", {[ "AS1" ]}, ∅, {[ "AS-A" := {[ "AS-B" ]} ]}).
Proof.
  rewrite get_origin_asns_S. run_step. resolve_set_iter.
  all: run_step; vm_compute; reflexivity.
Qed.

Lemma cycle_outer `{IterOrder} fuel :
  get_origin_asns (S (S fuel)) "AS-A" ∅ graph_cycle [] ∅
  = Ok (None, {[ "AS1" ]},
        {[ "AS-A" := {[ "AS1" ]}; "AS-B" := {[ "AS1" ]} ]}, ∅).
Proof.
  rewrite get_origin_asns_S. run_step. resolve_set_iter. run_step.
  rewrite cycle_inner. run_step. resolve_set_iter.
  vm_compute. reflexivity.
Qed.

(** C1. On the cyclic graph {AS-A: {AS-B}, AS-B: {AS-A, AS1}} resolved from
    AS-A, whatever the iteration order of the sets: the resolver returns no
    recursive parent for the root and an empty [recursive_as_sets], the
    closures of AS-A and of AS-B are both {AS1}, and
    [get_origin_asns_from_members] returns that closure map. *)
Theorem cycle_closures `{IterOrder} :
  ∃ db : closures,
    get_origin_asns (resolver_fuel graph_cycle) "AS-A" ∅ graph_cycle [] ∅
      = Ok (None, {[ "AS1" ]}, db, ∅)
    ∧ get_origin_asns_from_members "AS-A" graph_cycle = Ok db
    ∧ db !! "AS-A" = Some {[ "AS1" ]}
    ∧ db !! "AS-B" = Some {[ "AS1" ]}.
Proof.
  exists {[ "AS-A" := {[ "AS1" ]}; "AS-B" := {[ "AS1" ]} ]}.
  assert (Hfuel : resolver_fuel graph_cycle = 3) by (vm_compute; reflexivity).
  split; [|split; [|split]].
  - rewrite Hfuel. apply cycle_outer.
  - unfold get_origin_asns_from_members. rewrite Hfuel, cycle_outer.
    vm_compute. reflexivity.
  - vm_compute. reflexivity.
  - vm_compute. reflexivity.
Qed.

(** ** The resolver on acyclic graphs *)

Lemma reaches_inv g s x :
  reaches g s x →
  ∃ m, member_of g s m ∧ (x = m ∨ (has_hyphen m = true ∧ reaches g m x)).
Proof. destruct 1; eauto 6. Qed.

Lemma origin_of_members g s members :
  g !! s = Some members → ¬ reaches g s s →
  ∀ a, origin_of g s a ↔
       ∃ m, m ∈ members ∧ ((has_hyphen m = false ∧ a = m)
                            ∨ (has_hyphen m = true ∧ origin_of g m a)).
Proof.
  intros Hs Hacyc a. split.
  - intros (Hr & Ha & Hne). apply reaches_inv in Hr as (m & (ms & Hms & Hm) & Hcase).
    simplify_eq. exists m. split; [done|].
    destruct Hcase as [->|[Hh Hr]]; [by left|]. right. repeat split; try done.
    intros ->. congruence.
  - intros (m & Hm & [[Hh ->]|[Hh (Hr & Ha & Hne)]]).
    + repeat split; [apply reaches_member; by exists members|done|].
      intros ->. apply Hacyc, reaches_member. by exists members.
    + assert (reaches g s a) by (eapply reaches_step; [by exists members|done..]).
      repeat split; [done..|]. by intros ->.
Qed.

Lemma length_parents_lt (g : graph) (parents : list string) s :
  NoDup parents → (∀ p, p ∈ parents → is_Some (g !! p)) →
  is_Some (g !! s) → s ∉ parents → length parents < size g.
Proof.
  intros Hnd Hsub Hs Hnot.
  assert (Hsz : size (list_to_set (C:=gset string) (s :: parents)) = S (length parents)).
  { rewrite size_list_to_set; [done|]. by constructor. }
  assert (Hle : (size (list_to_set (C:=gset string) (s :: parents)) ≤ size (dom g))%nat).
  { apply subseteq_size. intros x Hx. apply elem_of_dom.
    apply elem_of_list_to_set, elem_of_cons in Hx as [->|Hx]; auto. }
  rewrite size_dom in Hle. lia.
Qed.

(** On an acyclic, complete part of the graph a call never sees one of its
    ancestors: it returns no recursive parent, the exact set of origins, and
    leaves the deferred table empty. *)
Lemma resolve_acyclic `{IterOrder} (g : graph) fuel : ∀ s (db : closures) parents,
  size g < fuel + length parents →
  NoDup parents → (∀ p, p ∈ parents → is_Some (g !! p)) →
  is_Some (g !! s) →
  (∀ x, x = s ∨ reaches g s x → x ∉ parents) →
  acyclic_from g s →
  (∀ x, reaches g s x → has_hyphen x = true → is_Some (g !! x)) →
  db_ok g db → db_closed g db →
  ∃ c db', get_origin_asns fuel s db g parents ∅ = Ok (None, c, db', ∅)
    ∧ (∀ a, a ∈ c ↔ origin_of g s a)
    ∧ (∀ t, is_Some (db !! t) → is_Some (db' !! t))
    ∧ db_ok g db' ∧ db_closed g db' ∧ is_Some (db' !! s).
Proof.
  induction fuel as [|fuel IH]; intros s db parents Hfuel Hnd Hsub Hs Hpar Hacyc Hcompl Hok Hclosed.
  { exfalso. pose proof (length_parents_lt g parents s Hnd Hsub Hs (Hpar s (or_introl eq_refl))). lia. }
  rewrite get_origin_asns_S. unfold get_origin_asns_body.
  destruct (db !! s) as [c|] eqn:Hdb.
  { exists c, db. split; [done|]. split; [by apply (Hok s)|]. split; [auto|]. split; [done|]. split; [done|]. eauto. }
  destruct Hs as [members Hmem]. rewrite Hmem.
  assert (Hnots : ¬ reaches g s s) by (apply Hacyc; by left).
  assert (Hin : ∀ m, m ∈ set_iter members ↔ m ∈ members).
  { intros m. rewrite set_iter_perm. apply elem_of_elements. }
  edestruct (for_each_inv
    (λ done (st : loop_state),
       ∃ nr dbi, st = (None, nr, dbi, ∅)
         ∧ (∀ a, a ∈ nr ↔ ∃ m, m ∈ done ∧ ((has_hyphen m = false ∧ a = m)
                                  ∨ (has_hyphen m = true ∧ origin_of g m a)))
         ∧ (∀ t, is_Some (db !! t) → is_Some (dbi !! t))
         ∧ db_ok g dbi ∧ db_closed g dbi
         ∧ (∀ m, m ∈ done → has_hyphen m = true → is_Some (dbi !! m)))
    (member_step (λ member db0 new_parents rec,
        get_origin_asns fuel member db0 g new_parents rec) s parents)
    (set_iter members) (None, ∅, db, ∅)) as (st' & Hrun & (nr & dbi & -> & Hnr & Hmono & Hoki & Hcli & Hdone)).
  { exists ∅, db. split; [done|]. split; [|split; [auto|split; [done|split; [done|]]]].
    - intros a. split; [set_solver|]. intros (m & Hm & _). by apply elem_of_nil in Hm.
    - intros m Hm. by apply elem_of_nil in Hm. }
  { intros done m st Hm (nr & dbi & -> & Hnr & Hmono & Hoki & Hcli & Hdone).
    apply Hin in Hm.
    assert (Hsm : member_of g s m) by (by exists members).
    assert (Hrm : reaches g s m) by (by apply reaches_member).
    unfold member_step.
    rewrite bool_decide_eq_false_2 by (intros ->; done).
    rewrite bool_decide_eq_false_2 by (apply Hpar; by right).
    destruct (has_hyphen m) eqn:Hh; simpl.
    - destruct (IH m dbi (parents ++ [s])) as (c & db' & -> & Hc & Hmono' & Hok' & Hcl' & Hsome); try done.
      + rewrite length_app. simpl. lia.
      + apply NoDup_app. split; [done|]. split; [|apply NoDup_singleton].
        intros x Hx Hx'. apply list_elem_of_singleton in Hx' as ->. by apply (Hpar s); [left|].
      + intros p [Hp|Hp]%elem_of_app; [auto|]. apply list_elem_of_singleton in Hp as ->. by exists members.
      + by apply Hcompl.
      + intros x Hx. assert (reaches g s x) as Hsx.
        { destruct Hx as [->|Hx]; [done|]. by eapply reaches_step. }
        intros [Hp|Hp]%elem_of_app; [by apply (Hpar x); [right|]|].
        apply list_elem_of_singleton in Hp as ->. done.
      + intros n Hn. apply Hacyc. right. destruct Hn as [->|Hn]; [done|]. by eapply reaches_step.
      + intros x Hx. apply Hcompl. by eapply reaches_step.
      + simpl. eexists. split; [done|]. exists (nr ∪ c), db'. split; [done|].
        split; [|split; [by auto|split; [done|split; [done|]]]].
        * intros a. rewrite elem_of_union, Hnr, Hc. split.
          -- intros [(m' & Hm' & Hcase)|Ho].
             ++ exists m'. split; [apply elem_of_app; by left|done].
             ++ exists m. split; [apply elem_of_app; right; by left|by right].
          -- intros (m' & [Hm'|Hm']%elem_of_app & Hcase).
             ++ left. by exists m'.
             ++ apply list_elem_of_singleton in Hm' as ->. destruct Hcase as [[? _]|[_ ?]]; [congruence|by right].
        * intros m' [Hm'|Hm']%elem_of_app Hh'; [by apply Hmono', Hdone|].
          by apply list_elem_of_singleton in Hm' as ->.
    - eexists. split; [done|]. exists (nr ∪ {[m]}), dbi. split; [done|].
      split; [|split; [done|split; [done|split; [done|]]]].
      + intros a. rewrite elem_of_union, Hnr, elem_of_singleton. split.
        * intros [(m' & Hm' & Hcase)| ->].
          -- exists m'. split; [apply elem_of_app; by left|done].
          -- exists m. split; [apply elem_of_app; right; by left|by left].
        * intros (m' & [Hm'|Hm']%elem_of_app & Hcase).
          -- left. by exists m'.
          -- apply list_elem_of_singleton in Hm' as ->. destruct Hcase as [[_ ?]|[? _]]; [by right|congruence].
      + intros m' [Hm'|Hm']%elem_of_app Hh'; [by apply Hdone|].
        apply list_elem_of_singleton in Hm' as ->. congruence. }
  rewrite Hrun. simpl. unfold finalize_closure. rewrite lookup_empty.
  exists nr, (<[s := nr]> dbi). split; [done|].
  assert (Hnr' : ∀ a, a ∈ nr ↔ origin_of g s a).
  { intros a. rewrite Hnr, (origin_of_members g s members) by done.
    by setoid_rewrite Hin. }
  split; [done|]. split; [|split; [|split]].
  - intros t Ht. destruct (decide (t = s)) as [->|?].
    + rewrite lookup_insert_eq. eauto.
    + rewrite lookup_insert_ne by done. auto.
  - intros t c. destruct (decide (t = s)) as [->|?].
    + rewrite lookup_insert_eq. by intros [= <-].
    + rewrite lookup_insert_ne by done. apply Hoki.
  - assert (Hsub' : ∀ t, is_Some (dbi !! t) → is_Some (<[s := nr]> dbi !! t)).
    { intros t Ht. destruct (decide (t = s)) as [->|?].
      - rewrite lookup_insert_eq. eauto.
      - by rewrite lookup_insert_ne. }
    intros t x Ht Hr Hh. apply Hsub'. destruct (decide (t = s)) as [->|?].
    + apply reaches_inv in Hr as (m & (ms & Hms & Hm) & Hcase). simplify_eq.
      destruct Hcase as [->|[Hhm Hr]].
      * apply Hdone; [by apply Hin|done].
      * eapply Hcli; [|done..]. apply Hdone; [by apply Hin|done].
    + rewrite lookup_insert_ne in Ht by done. by eapply Hcli.
  - rewrite lookup_insert_eq. eauto.
Qed.

Lemma waits_setdefault_add k x rec t :
  waits (setdefault_add k x rec) t → t = x ∨ waits rec t.
Proof.
  intros (k' & X & Hk & Ht). unfold setdefault_add in Hk.
  destruct (decide (k = k')) as [->|?].
  - rewrite lookup_insert_eq in Hk. simplify_eq.
    apply elem_of_union in Ht as [Ht|Ht]; [|left; set_solver].
    right. destruct (rec !! k') as [Y|] eqn:HY; simpl in Ht; [|set_solver].
    by exists k', Y.
  - rewrite lookup_insert_ne in Hk by done. right. by exists k', X.
Qed.

Lemma waits_foldl_setdefault_add k l rec t :
  waits (foldl (λ r child, setdefault_add k child r) rec l) t →
  t ∈ l ∨ waits rec t.
Proof.
  revert rec. induction l as [|x l IH]; intros rec Hw; simpl in *; [by right|].
  apply IH in Hw as [?|Hw]; [left; by right|].
  apply waits_setdefault_add in Hw as [->|?]; [left; by left|by right].
Qed.

Lemma waits_delete k rec t : waits (delete k rec) t → waits rec t.
Proof.
  intros (k' & X & Hk & Ht). apply lookup_delete_Some in Hk as [_ Hk].
  by exists k', X.
Qed.

Lemma is_Some_foldl_insert (v : gset string) l (db : closures) t :
  is_Some (foldl (λ d child, <[child := v]> d) db l !! t) →
  t ∈ l ∨ is_Some (db !! t).
Proof.
  revert db. induction l as [|x l IH]; intros db Hs; simpl in *; [by right|].
  apply IH in Hs as [?|Hs]; [left; by right|].
  destruct (decide (x = t)) as [->|?]; [left; by left|].
  rewrite lookup_insert_ne in Hs by done. by right.
Qed.

Lemma waits_defer_under `{IterOrder} rp s rec t :
  waits (defer_under rp s rec) t → t = s ∨ waits rec t.
Proof.
  unfold defer_under.
  destruct (setdefault_add rp s rec !! s) as [children|] eqn:Hc.
  - intros Hw%waits_delete%waits_foldl_setdefault_add.
    destruct Hw as [Hw|Hw].
    + rewrite set_iter_perm in Hw. apply elem_of_elements in Hw.
      apply (waits_setdefault_add rp). by exists s, children.
    + by apply (waits_setdefault_add rp).
  - apply waits_setdefault_add.
Qed.

Lemma finalize_closure_visits `{IterOrder} s nr db rec db' rec' t :
  finalize_closure s nr db rec = (db', rec') →
  is_Some (db' !! t) ∨ waits rec' t →
  t = s ∨ is_Some (db !! t) ∨ waits rec t.
Proof.
  unfold finalize_closure. destruct (rec !! s) as [children|] eqn:Hc; intros [= <- <-].
  - intros [Hs|Hw].
    + apply is_Some_foldl_insert in Hs as [Hs|Hs].
      * rewrite set_iter_perm in Hs. apply elem_of_elements in Hs.
        right; right. by exists s, children.
      * destruct (decide (s = t)) as [->|?]; [by left|].
        rewrite lookup_insert_ne in Hs by done. auto.
    + apply waits_delete in Hw. auto.
  - intros [Hs|Hw]; [|by auto].
    destruct (decide (s = t)) as [->|?]; [by left|].
    rewrite lookup_insert_ne in Hs by done. auto.
Qed.

(** Only the root of a call and the AS-SETs it reaches are added to the
    closure map or to the deferred table. *)
Lemma resolver_visits `{IterOrder} (g : graph) fuel :
  ∀ s (db : closures) parents (rec : graph) rp c db' rec',
  get_origin_asns fuel s db g parents rec = Ok (rp, c, db', rec') →
  ∀ t, is_Some (db' !! t) ∨ waits rec' t →
       is_Some (db !! t) ∨ waits rec t ∨ t = s
       ∨ (reaches g s t ∧ has_hyphen t = true).
Proof.
  induction fuel as [|fuel IH]; intros s db parents rec rp c db' rec' Hrun; [done|].
  rewrite get_origin_asns_S in Hrun. unfold get_origin_asns_body in Hrun.
  destruct (db !! s) as [c0|] eqn:Hdb.
  { simplify_eq. intros t [?|?]; auto. }
  destruct (g !! s) as [members|] eqn:Hmem; [|done].
  destruct (for_each _ _ _) as [[[[rp1 nr] db1] rec1]| |] eqn:Hloop; simplify_eq/=.
  assert (Hinv : ∀ t, is_Some (db1 !! t) ∨ waits rec1 t →
            is_Some (db !! t) ∨ waits rec t ∨ t = s
            ∨ (reaches g s t ∧ has_hyphen t = true)).
  { refine (for_each_inv_ok
      (λ st : loop_state, ∀ t, is_Some (st.1.2 !! t) ∨ waits st.2 t →
            is_Some (db !! t) ∨ waits rec t ∨ t = s
            ∨ (reaches g s t ∧ has_hyphen t = true))
      _ _ _ _ Hloop _ _); simpl.
    { intros t [?|?]; auto. }
    intros m [[[rpi nri] dbi] reci] st' Hm HP Hstep. simpl in *.
    rewrite set_iter_perm in Hm. apply elem_of_elements in Hm.
    unfold member_step in Hstep.
    case_bool_decide; [by simplify_eq|].
    case_bool_decide.
    { destruct (pick_highest _ _ _); simplify_eq/=. done. }
    destruct (has_hyphen m) eqn:Hh; simpl in Hstep; [|by simplify_eq].
    destruct (get_origin_asns fuel m dbi g _ reci) as [[[[mrp mo] db2] rec2]| |] eqn:Hcall;
      simplify_eq/=.
    assert (HP2 : ∀ t, is_Some (db2 !! t) ∨ waits rec2 t →
            is_Some (db !! t) ∨ waits rec t ∨ t = s
            ∨ (reaches g s t ∧ has_hyphen t = true)).
    { intros t Ht. destruct (IH _ _ _ _ _ _ _ _ Hcall t Ht) as [?|[?|[->|[Hr Hht]]]].
      - apply HP. auto.
      - apply HP. auto.
      - right; right; right. split; [|done]. apply reaches_member. by exists members.
      - right; right; right. split; [|done].
        eapply reaches_step; [by exists members|done..]. }
    destruct mrp as [mrp|]; [|by simplify_eq].
    case_bool_decide; [by simplify_eq|].
    case_bool_decide; simpl in Hstep; [|done].
    destruct (pick_highest _ _ _); simplify_eq/=. done. }
  destruct (truthy rp1) eqn:Htr.
  - simplify_eq. intros t [Hs|Hw]; [apply Hinv; auto|].
    apply waits_defer_under in Hw as [->|Hw]; [auto|]. apply Hinv. auto.
  - destruct (finalize_closure s nr db1 rec1) as [db2 rec2] eqn:Hfin. simplify_eq.
    intros t Ht. eapply finalize_closure_visits in Ht as [->|Ht]; [auto|by apply Hinv|done].
Qed.

Lemma pick_highest_not_out_of_fuel parents rp m :
  pick_highest parents rp m ≠ OutOfFuel.
Proof.
  unfold pick_highest. destruct rp; [|done].
  by destruct (index parents m), (index parents s).
Qed.

Lemma length_parents_le (g : graph) (parents : list string) :
  NoDup parents → (∀ p, p ∈ parents → is_Some (g !! p)) →
  (length parents ≤ size g)%nat.
Proof.
  intros Hnd Hsub.
  rewrite <-(size_list_to_set (C:=gset string) parents), <-size_dom by done.
  apply subseteq_size. intros x Hx. apply elem_of_dom.
  apply elem_of_list_to_set in Hx. auto.
Qed.

(** The fuel [get_origin_asns_from_members] gives is enough on every graph:
    a nested call extends [parents] by a key that is not yet in it. *)
Lemma get_origin_asns_total `{IterOrder} (g : graph) fuel :
  ∀ s (db : closures) parents (rec : graph),
  (size g < fuel + length parents)%nat →
  NoDup parents → (∀ p, p ∈ parents → is_Some (g !! p)) → s ∉ parents →
  get_origin_asns fuel s db g parents rec ≠ OutOfFuel.
Proof.
  induction fuel as [|fuel IH]; intros s db parents rec Hfuel Hnd Hsub Hs.
  { pose proof (length_parents_le g parents Hnd Hsub). simpl in Hfuel. lia. }
  rewrite get_origin_asns_S. unfold get_origin_asns_body.
  destruct (db !! s); [done|].
  destruct (g !! s) as [members|] eqn:Hmem; [|done].
  apply bind_not_out_of_fuel.
  - apply for_each_not_out_of_fuel. intros [[[rp nr] dbi] reci] m _.
    unfold member_step.
    case_bool_decide as Hms; [done|].
    case_bool_decide as Hmp.
    { apply bind_not_out_of_fuel; [apply pick_highest_not_out_of_fuel|done]. }
    destruct (negb (has_hyphen m)); [done|].
    apply bind_not_out_of_fuel.
    + apply IH.
      * rewrite length_app. simpl. lia.
      * apply NoDup_app. split; [done|]. split; [|apply NoDup_singleton].
        intros x Hx Hx'. by apply list_elem_of_singleton in Hx' as ->.
      * intros p [Hp|Hp]%elem_of_app; [auto|].
        apply list_elem_of_singleton in Hp as ->. eauto.
      * intros [Hp|Hp]%elem_of_app; [done|]. by apply list_elem_of_singleton in Hp.
    + intros [[[mrp mo] db2] rec2]. destruct mrp as [mrp|]; [|done].
      case_bool_decide; [done|]. destruct (negb _); [done|].
      apply bind_not_out_of_fuel; [apply pick_highest_not_out_of_fuel|done].
  - intros [[[rp nr] db1] rec1]. destruct (truthy rp); [done|].
    by destruct (finalize_closure s nr db1 rec1).
Qed.

Lemma get_origin_asns_from_members_total `{IterOrder} (root : string) (g : graph) :
  get_origin_asns_from_members root g ≠ OutOfFuel.
Proof.
  unfold get_origin_asns_from_members. apply bind_not_out_of_fuel.
  - apply get_origin_asns_total.
    + unfold resolver_fuel. simpl. lia.
    + constructor.
    + intros p Hp. by apply elem_of_nil in Hp.
    + apply not_elem_of_nil.
  - intros [[[rp c] db] rec]. repeat (destruct (negb _); [done|]). done.
Qed.

Lemma index_is_Some parents x : x ∈ parents → is_Some (index parents x).
Proof.
  induction parents as [|p ps IH]; [by intros ?%elem_of_nil|].
  intros Hx. simpl. case_decide; [eauto|].
  apply elem_of_cons in Hx as [->|Hx]; [done|].
  destruct (IH Hx) as [i ->]. simpl. eauto.
Qed.

Lemma pick_highest_parents parents rp m :
  m ∈ parents → (∀ p, rp = Some p → p ∈ parents) →
  ∃ p, pick_highest parents rp m = Ok (Some p) ∧ p ∈ parents.
Proof.
  intros Hm Hrp. unfold pick_highest. destruct rp as [q|]; [|eauto].
  destruct (index_is_Some parents m Hm) as [i ->].
  destruct (index_is_Some parents q (Hrp q eq_refl)) as [j ->].
  case_decide; eauto.
Qed.

(** On a complete part of the graph the resolver returns, cycles or not, and
    the recursive parent it reports is one of the ancestors it was given. *)
Lemma get_origin_asns_returns `{IterOrder} (g : graph) fuel :
  ∀ s (db : closures) parents (rec : graph),
  (size g < fuel + length parents)%nat →
  NoDup parents → (∀ p, p ∈ parents → is_Some (g !! p)) → s ∉ parents →
  is_Some (g !! s) →
  (∀ x, reaches g s x → has_hyphen x = true → is_Some (g !! x)) →
  ∃ rp c db' rec',
    get_origin_asns fuel s db g parents rec = Ok (rp, c, db', rec')
    ∧ ∀ p, rp = Some p → p ∈ parents.
Proof.
  induction fuel as [|fuel IH]; intros s db parents rec Hfuel Hnd Hsub Hs Hkey Hcompl.
  { pose proof (length_parents_le g parents Hnd Hsub). simpl in Hfuel. lia. }
  rewrite get_origin_asns_S. unfold get_origin_asns_body.
  destruct (db !! s) as [c|]; [do 4 eexists; split; [done|]; by intros p [=]|].
  destruct Hkey as [members Hmem]. rewrite Hmem.
  edestruct (for_each_inv
    (λ (_ : list string) (st : loop_state), ∀ p, st.1.1.1 = Some p → p ∈ parents)
    (member_step (λ member db0 new_parents rec,
        get_origin_asns fuel member db0 g new_parents rec) s parents)
    (set_iter members) (None, ∅, db, rec)) as ([[[rp nr] db1] rec1] & -> & Hrp).
  { by intros p [=]. }
  { intros _ m [[[rpi nri] dbi] reci] Hm Hrpi. simpl in Hrpi.
    rewrite set_iter_perm, elem_of_elements in Hm.
    unfold member_step.
    case_bool_decide as Hms; [eexists; split; [done|]; done|].
    case_bool_decide as Hmp.
    { destruct (pick_highest_parents parents rpi m Hmp Hrpi) as (p & -> & Hp).
      rewrite bind_ok. eexists. split; [done|]. by intros ? [= <-]. }
    destruct (has_hyphen m) eqn:Hh; simpl; [|eexists; split; [done|]; done].
    assert (Hsm : member_of g s m) by (by exists members).
    destruct (IH m dbi (parents ++ [s]) reci)
      as (mrp & mo & db2 & rec2 & -> & Hmrp).
    - rewrite length_app. simpl. lia.
    - apply NoDup_app. split; [done|]. split; [|apply NoDup_singleton].
      intros x Hx Hx'. by apply list_elem_of_singleton in Hx' as ->.
    - intros p [Hp|Hp]%elem_of_app; [auto|].
      apply list_elem_of_singleton in Hp as ->. eauto.
    - intros [Hp|Hp]%elem_of_app; [done|]. by apply list_elem_of_singleton in Hp.
    - apply Hcompl; [by apply reaches_member|done].
    - intros x Hx. apply Hcompl. by eapply reaches_step.
    - rewrite bind_ok. destruct mrp as [mrp|]; [|eexists; split; [done|]; done].
      case_bool_decide as Hmrps; [eexists; split; [done|]; done|].
      assert (Hin : mrp ∈ parents).
      { pose proof (Hmrp mrp eq_refl) as Hx.
        apply elem_of_app in Hx as [?|Hx]; [done|].
        by apply list_elem_of_singleton in Hx. }
      rewrite bool_decide_eq_true_2 by done. simpl.
      destruct (pick_highest_parents parents rpi mrp Hin Hrpi) as (p & -> & Hp).
      rewrite bind_ok. eexists. split; [done|]. by intros ? [= <-]. }
  rewrite bind_ok. simpl in Hrp.
  destruct (truthy rp) eqn:Htr; [do 4 eexists; split; [done|]; done|].
  destruct (finalize_closure s nr db1 rec1) as [db2 rec2].
  do 4 eexists. split; [done|]. done.
Qed.

Lemma acyclic_run `{IterOrder} (g : graph) (root : string) :
  complete_from g root → acyclic_from g root →
  ∃ c db,
    get_origin_asns (resolver_fuel g) root ∅ g [] ∅ = Ok (None, c, db, ∅)
    ∧ (∀ a, a ∈ c ↔ origin_of g root a)
    ∧ (∀ s, s = root ∨ (reaches g root s ∧ has_hyphen s = true) →
         ∃ cs, db !! s = Some cs ∧ ∀ a, a ∈ cs ↔ origin_of g s a)
    ∧ (∀ s, is_Some (db !! s) →
         s = root ∨ (reaches g root s ∧ has_hyphen s = true)).
Proof.
  intros [Hroot Hcompl] Hacyc.
  destruct (resolve_acyclic g (resolver_fuel g) root ∅ [])
    as (c & db & Hrun & Hc & _ & Hok & Hcl & Hsome); try done.
  - unfold resolver_fuel. simpl. lia.
  - constructor.
  - intros p Hp. by apply elem_of_nil in Hp.
  - intros x _ Hx. by apply elem_of_nil in Hx.
  - intros t x [? Ht]. by rewrite lookup_empty in Ht.
  - exists c, db. split; [done|]. split; [done|]. split.
    + intros s Hs.
      assert (is_Some (db !! s)) as [cs Hcs].
      { destruct Hs as [->|[Hr Hh]]; [done|]. by eapply Hcl. }
      exists cs. split; [done|]. by apply Hok.
    + intros s Hs.
      destruct (resolver_visits g _ _ _ _ _ _ _ _ _ Hrun s (or_introl Hs))
        as [[? Hx]|[(k & X & Hk & _)|[->|?]]]; auto.
      * by rewrite lookup_empty in Hx.
      * by rewrite lookup_empty in Hk.
Qed.

Lemma members_closed_complete (g : graph) root :
  is_Some (g !! root) → members_closed g → complete_from g root.
Proof.
  intros Hroot Hcl. split; [done|]. intros m Hr.
  clear Hroot. induction Hr as [s m Hm|s m x Hm Hh Hr IH]; [by apply (Hcl s)|done].
Qed.

(** C2. For a membership graph in which every AS-SET member is a key and no
    path from [root] visits a node twice, the resolver started at the key
    [root] returns (for every iteration order, with the fuel the top-level
    function gives it) the set of AUT-NUMs reachable from [root], and stores
    for every AS-SET [s] it reaches a closure equal to the set of AUT-NUMs
    reachable from [s], [s] itself excluded; when every key is such an AS-SET,
    [get_origin_asns_from_members] returns that closure map. *)
Theorem acyclic_closure `{IterOrder} (g : graph) (root : string) :
  is_Some (g !! root) → members_closed g → acyclic_from g root →
  ∃ c db,
    get_origin_asns (resolver_fuel g) root ∅ g [] ∅ = Ok (None, c, db, ∅)
    ∧ (∀ a, a ∈ c ↔ origin_of g root a)
    ∧ (∀ s, s = root ∨ (reaches g root s ∧ has_hyphen s = true) →
         ∃ cs, db !! s = Some cs ∧ ∀ a, a ∈ cs ↔ origin_of g s a)
    ∧ ((∀ k, is_Some (g !! k) → k = root ∨ (reaches g root k ∧ has_hyphen k = true)) →
         get_origin_asns_from_members root g = Ok db).
Proof.
  intros Hroot Hcl Hacyc.
  pose proof (members_closed_complete g root Hroot Hcl) as Hcompl.
  destruct (acyclic_run g root Hcompl Hacyc) as (c & db & Hrun & Hc & Hall & Hdom).
  exists c, db. split; [done|]. split; [done|]. split; [done|].
  intros Hkeys. unfold get_origin_asns_from_members. rewrite Hrun. simpl.
  rewrite bool_decide_eq_true_2 by done. simpl.
  rewrite bool_decide_eq_true_2; [done|].
  apply set_eq. intros k. rewrite !elem_of_dom. split.
  - intros [->|[Hr Hh]]%Hdom; [done|]. by apply Hcompl.
  - intros Hk. destruct (Hall k (Hkeys k Hk)) as (cs & -> & _). eauto.
Qed.

(** C10. [get_origin_asns_from_members] returns a closure map only if its key
    set equals the key set of the graph.  When the graph has a key that [root]
    does not reach, it raises; when moreover the part of the graph under
    [root] is complete, what it raises is an assertion failure, cycles or not;
    and when that part is complete and acyclic, it is the failure of the third
    assertion. *)
Theorem unreachable_key_raises `{IterOrder} (g : graph) (root : string) :
  (∀ db, get_origin_asns_from_members root g = Ok db → dom db = dom g)
  ∧ (∀ k, is_Some (g !! k) → k ≠ root → ¬ reaches g root k →
       (∃ e, get_origin_asns_from_members root g = Raise e)
       ∧ (complete_from g root →
            ∃ msg, get_origin_asns_from_members root g
                   = Raise (AssertionError msg))
       ∧ (complete_from g root → acyclic_from g root →
            get_origin_asns_from_members root g
            = Raise (AssertionError
                "we did not find the origin ases for all as-sets on the tree"))).
Proof.
  assert (Hdom : ∀ db, get_origin_asns_from_members root g = Ok db → dom db = dom g).
  { intros db. unfold get_origin_asns_from_members.
    destruct (get_origin_asns _ _ _ _ _ _) as [[[[rp c] db1] rec1]| |]; simpl; [|done..].
    repeat (case_bool_decide; simpl; try done). by intros [= <-]. }
  split; [done|]. intros k Hk Hne Hunreach.
  assert (Hnot : ∀ rp c db rec,
    get_origin_asns (resolver_fuel g) root ∅ g [] ∅ = Ok (rp, c, db, rec) →
    dom db ≠ dom g).
  { intros rp c db rec Hrun Heq.
    assert (is_Some (db !! k)) as Hs by (by rewrite <-elem_of_dom, Heq, elem_of_dom).
    destruct (resolver_visits g _ _ _ _ _ _ _ _ _ Hrun k (or_introl Hs))
      as [[? Hx]|[(k' & X & Hk' & _)|[->|[? _]]]]; done. }
  split; [|split].
  - pose proof (get_origin_asns_from_members_total root g) as Htot.
    destruct (get_origin_asns_from_members root g) as [db|e|] eqn:Hrun; [|eauto|done].
    exfalso. pose proof (Hdom db eq_refl) as Heq. revert Hrun.
    unfold get_origin_asns_from_members.
    destruct (get_origin_asns _ _ _ _ _ _) as [[[[rp c] db1] rec1]| |] eqn:Hrun; simpl; [|done..].
    repeat (case_bool_decide; simpl; try done). intros [= <-]. by eapply Hnot.
  - intros [Hroot Hcompl].
    destruct (get_origin_asns_returns g (resolver_fuel g) root ∅ [] ∅)
      as (rp & c & db & rec & Hrun & Hrp); try done.
    + unfold resolver_fuel. simpl. lia.
    + constructor.
    + intros p Hp. by apply elem_of_nil in Hp.
    + apply not_elem_of_nil.
    + unfold get_origin_asns_from_members. rewrite Hrun, bind_ok.
      destruct rp as [p|]; [by pose proof (Hrp p eq_refl) as ?%elem_of_nil|].
      rewrite bool_decide_eq_true_2 by done. simpl.
      case_bool_decide; simpl; [|by eauto].
      rewrite bool_decide_eq_false_2 by (by eapply Hnot). simpl. eauto.
  - intros Hcompl Hacyc.
    destruct (acyclic_run g root Hcompl Hacyc) as (c & db & Hrun & _).
    unfold get_origin_asns_from_members. rewrite Hrun. simpl.
    rewrite bool_decide_eq_true_2 by done. simpl.
    rewrite bool_decide_eq_false_2; [done|]. by eapply Hnot.
Qed.

(** ** The example graphs *)

Lemma member_of_tree s m :
  member_of graph_tree s m →
  (s = "AS-A" ∧ (m = "AS-B" ∨ m = "AS1")) ∨ (s = "AS-B" ∧ m = "AS2").
Proof.
  intros (ms & Hs & Hm). unfold graph_tree in Hs.
  apply lookup_insert_Some in Hs as [[<- <-]|[_ Hs]].
  - left. set_solver.
  - apply lookup_singleton_Some in Hs as [<- <-]. right. set_solver.
Qed.

Lemma reaches_tree s x :
  reaches graph_tree s x →
  (s = "AS-A" ∧ (x = "AS-B" ∨ x = "AS1" ∨ x = "AS2")) ∨ (s = "AS-B" ∧ x = "AS2").
Proof.
  induction 1 as [s m Hm|s m x Hm Hh Hr IH].
  - apply member_of_tree in Hm. naive_solver.
  - apply member_of_tree in Hm. naive_solver.
Qed.

Lemma graph_tree_closed : members_closed graph_tree.
Proof.
  intros s m Hm Hh. apply member_of_tree in Hm as [[-> [->| ->]]|[-> ->]];
    try discriminate Hh.
  eexists. vm_compute. reflexivity.
Qed.

Lemma graph_tree_acyclic : acyclic_from graph_tree "AS-A".
Proof. intros n _ Hn. apply reaches_tree in Hn. naive_solver. Qed.

Lemma acyclic_closure_witness :
  ∃ c db,
    get_origin_asns (H:=elements_order) (resolver_fuel graph_tree) "AS-A" ∅
                    graph_tree [] ∅ = Ok (None, c, db, ∅)
    ∧ (∀ a, a ∈ c ↔ origin_of graph_tree "AS-A" a)
    ∧ (∀ s, s = "AS-A" ∨ (reaches graph_tree "AS-A" s ∧ has_hyphen s = true) →
         ∃ cs, db !! s = Some cs ∧ ∀ a, a ∈ cs ↔ origin_of graph_tree s a)
    ∧ ((∀ k, is_Some (graph_tree !! k) →
          k = "AS-A" ∨ (reaches graph_tree "AS-A" k ∧ has_hyphen k = true)) →
         get_origin_asns_from_members (H:=elements_order) "AS-A" graph_tree = Ok db).
Proof.
  apply (acyclic_closure (H:=elements_order) graph_tree "AS-A").
  - eexists. vm_compute. reflexivity.
  - apply graph_tree_closed.
  - apply graph_tree_acyclic.
Defined.

Lemma member_of_island s m :
  member_of graph_island s m →
  (s = "AS-A" ∧ m = "AS1") ∨ (s = "AS-X" ∧ m = "AS2").
Proof.
  intros (ms & Hs & Hm). unfold graph_island in Hs.
  apply lookup_insert_Some in Hs as [[<- <-]|[_ Hs]].
  - left. set_solver.
  - apply lookup_singleton_Some in Hs as [<- <-]. right. set_solver.
Qed.

Lemma reaches_island s x :
  reaches graph_island s x →
  (s = "AS-A" ∧ x = "AS1") ∨ (s = "AS-X" ∧ x = "AS2").
Proof.
  induction 1 as [s m Hm|s m x Hm Hh Hr IH].
  - by apply member_of_island.
  - apply member_of_island in Hm as [[-> ->]|[-> ->]]; discriminate Hh.
Qed.

Lemma unreachable_key_raises_witness :
  (∃ e, get_origin_asns_from_members (H:=elements_order) "AS-A" graph_island = Raise e)
  ∧ get_origin_asns_from_members (H:=elements_order) "AS-A" graph_island
    = Raise (AssertionError
        "we did not find the origin ases for all as-sets on the tree").
Proof.
  destruct (proj2 (unreachable_key_raises (H:=elements_order) graph_island "AS-A") "AS-X")
    as (Hnot & _ & Hraise).
  - eexists. vm_compute. reflexivity.
  - discriminate.
  - intros Hr. apply reaches_island in Hr. destruct Hr as [[_ ?]|[? _]]; discriminate.
  - split; [done|]. apply Hraise.
    + split; [eexists; vm_compute; reflexivity|].
      intros m Hr Hh. apply reaches_island in Hr as [[_ ->]|[? _]]; discriminate.
    + intros n _ Hn. apply reaches_island in Hn.
      destruct Hn as [[-> ?]|[-> ?]]; discriminate.
Defined.

Example tree_closures :
  get_origin_asns_from_members (H:=elements_order) "AS-A" graph_tree
  = Ok {[ "AS-A" := {[ "AS1"; "AS2" ]}; "AS-B" := {[ "AS2" ]} ]}.
Proof. vm_compute. reflexivity. Qed.

(** ** Leaf-reachability prune *)

(** [sorted] lists the elements of the set, in order. *)
Lemma sorted_Sorted (X : gset string) :
  Sorted str_le (sorted X) ∧ sorted X ≡ₚ elements X.
Proof.
  split; [|apply merge_sort_Permutation].
  apply Sorted_merge_sort. intros x y. apply String.leb_total.
Qed.

Lemma sorted_elem (X : gset string) m : m ∈ sorted X ↔ m ∈ X.
Proof. unfold sorted. by rewrite merge_sort_Permutation, elem_of_elements. Qed.

Lemma retained_mono allowed (new new' : graph) m :
  dom new ⊆ dom new' → retained allowed new m → retained allowed new' m.
Proof. intros Hsub [?|[? ?]]; [by left|right; split; [done|by apply Hsub]]. Qed.

Lemma filter_inv_preserved allowed g fuel :
  ∀ as_set new visited parents new' visited',
  _filter_autnum fuel as_set allowed g new visited parents = Ok (new', visited') →
  filter_inv allowed g new →
  filter_inv allowed g new' ∧ dom new ⊆ dom new'.
Proof.
  induction fuel as [|fuel IH]; intros as_set new visited parents new' visited' Hrun Hinv; [done|].
  simpl in Hrun.
  case_bool_decide; [by simplify_eq|].
  case_bool_decide; [by simplify_eq|].
  destruct (g !! as_set) as [members|] eqn:Hmem; [|done].
  destruct (for_each _ _ _) as [[[nm new1] vis1]| |] eqn:Hloop; simplify_eq/=.
  assert (HP : filter_inv allowed g new1 ∧ dom new ⊆ dom new1
               ∧ nm ⊆ members ∧ ∀ m, m ∈ nm → retained allowed new1 m).
  { refine (for_each_inv_ok
      (λ st : filter_state,
         filter_inv allowed g st.1.2 ∧ dom new ⊆ dom st.1.2
         ∧ st.1.1 ⊆ members ∧ ∀ m, m ∈ st.1.1 → retained allowed st.1.2 m)
      _ _ _ _ Hloop _ _); simpl.
    { split; [done|]. split; [done|]. split; set_solver. }
    intros m [[nmi newi] visi] st' Hm (Hinvi & Hdomi & Hsubi & Hreti) Hstep.
    simpl in *. apply sorted_elem in Hm.
    case_bool_decide; [by simplify_eq|].
    destruct (has_hyphen m) eqn:Hh; simpl in Hstep.
    - assert (∃ new2 vis2,
          filter_inv allowed g new2 ∧ dom newi ⊆ dom new2
          ∧ (if bool_decide (m ∈ dom new2)
             then Ok (nmi ∪ {[m]}, new2, vis2)
             else Ok (nmi, new2, vis2)) = Ok st') as (new2 & vis2 & Hinv2 & Hdom2 & Hst).
      { case_bool_decide; simpl in Hstep.
        - by exists newi, visi.
        - destruct (_filter_autnum fuel m _ _ _ _ _) as [[new2 vis2]| |] eqn:Hcall;
            simplify_eq/=.
          destruct (IH _ _ _ _ _ _ Hcall Hinvi) as [? ?]. by exists new2, vis2. }
      assert (∀ x, x ∈ nmi → retained allowed new2 x) as Hret2.
      { intros x Hx. eapply retained_mono; [done|]. by apply Hreti. }
      case_bool_decide; simplify_eq/=.
      + split; [done|]. split; [set_solver|]. split; [set_solver|].
        intros x [Hx|Hx]%elem_of_union; [by apply Hret2|]. apply elem_of_singleton in Hx as ->.
        by right.
      + split; [done|]. split; [set_solver|]. done.
    - case_bool_decide; simplify_eq/=; [|done].
      split; [done|]. split; [done|]. split; [set_solver|].
      intros x [Hx|Hx]%elem_of_union; [by apply Hreti|]. apply elem_of_singleton in Hx as ->.
      by left. }
  destruct HP as (Hinv1 & Hdom1 & Hsub1 & Hret1).
  case_bool_decide; simplify_eq/=; [done|].
  split; [|rewrite dom_insert_L; set_solver].
  intros k ms Hk. destruct (decide (as_set = k)) as [->|Hne].
  - rewrite lookup_insert_eq in Hk. simplify_eq. split; [done|].
    split; [by exists members|].
    intros m Hm. eapply retained_mono; [|by apply Hret1].
    rewrite dom_insert_L. set_solver.
  - rewrite lookup_insert_ne in Hk by done.
    destruct (Hinv1 k ms Hk) as (? & ? & Hr). split; [done|]. split; [done|].
    intros m Hm. eapply retained_mono; [|by apply Hr].
    rewrite dom_insert_L. set_solver.
Qed.

(** The fuel of the prune is enough: a nested call adds a key to
    [visited_assets]. *)
Lemma _filter_autnum_total allowed (g : graph) fuel :
  ∀ as_set (new : graph) (visited parents : gset string),
  (size (dom g ∖ visited) < fuel)%nat →
  ∃ r, _filter_autnum fuel as_set allowed g new visited parents = r
       ∧ r ≠ OutOfFuel
       ∧ ∀ new' visited', r = Ok (new', visited') → visited ⊆ visited'.
Proof.
  induction fuel as [|fuel IH]; intros as_set new visited parents Hfuel; [lia|].
  eexists. split; [done|]. simpl.
  case_bool_decide as Hv; [split; [done|]; by intros ?? [= <- <-]|].
  case_bool_decide as Hn; [split; [done|]; by intros ?? [= <- <-]|].
  destruct (g !! as_set) as [members|] eqn:Hmem; [|done].
  assert (Hfuel' : ∀ vis, visited ∪ {[as_set]} ⊆ vis → (size (dom g ∖ vis) < fuel)%nat).
  { intros vis Hsub.
    assert (size (dom g ∖ vis) < size (dom g ∖ visited))%nat; [|lia].
    apply subset_size. apply (elem_of_dom_2 (D:=gset string)) in Hmem.
    split; [set_solver|]. intros Hsub'.
    assert (as_set ∈ dom g ∖ vis) by (apply Hsub'; set_solver). set_solver. }
  match goal with |- context [for_each ?b ?l ?s] =>
    assert (Hloop : match for_each b l s with
                    | Ok st => visited ∪ {[as_set]} ⊆ st.2
                    | Raise _ => True
                    | OutOfFuel => False
                    end) end.
  { generalize (sorted members). intros l.
    assert (Hgen : ∀ st : filter_state, visited ∪ {[as_set]} ⊆ st.2 →
      match for_each
        (λ (st : filter_state) (member : string),
           let '(new_members, new_members_per_asset, visited_assets) := st in
           if bool_decide (member ∈ parents) then Ok st
           else if negb (has_hyphen member) then
             if bool_decide (member ∈ allowed) then
               Ok (new_members ∪ {[member]}, new_members_per_asset, visited_assets)
             else Ok st
           else
             '(new_members_per_asset, visited_assets) ←
               (if negb (bool_decide (member ∈ visited_assets)) then
                  _filter_autnum fuel member allowed g new_members_per_asset
                    visited_assets (parents ∪ {[as_set]})
                else Ok (new_members_per_asset, visited_assets)) ;
             if bool_decide (member ∈ dom new_members_per_asset) then
               Ok (new_members ∪ {[member]}, new_members_per_asset, visited_assets)
             else Ok (new_members, new_members_per_asset, visited_assets)) l st
      with
      | Ok st => visited ∪ {[as_set]} ⊆ st.2
      | Raise _ => True
      | OutOfFuel => False
      end); [|by apply Hgen].
    induction l as [|m l IHl]; intros [[nm newi] visi] Hsub; simpl in *; [done|].
    case_bool_decide; simpl; [by apply IHl|].
    destruct (has_hyphen m); simpl.
    - case_bool_decide; simpl.
      + case_bool_decide; simpl; by apply IHl.
      + destruct (IH m newi visi (parents ∪ {[as_set]}) (Hfuel' _ Hsub))
          as (r & -> & Hr & Hvis).
        destruct r as [[new2 vis2]| |]; simpl; [|done..].
        specialize (Hvis _ _ eq_refl).
        case_bool_decide; simpl; apply IHl; simpl; set_solver.
    - case_bool_decide; simpl; by apply IHl. }
  destruct (for_each _ _ _) as [[[nm new1] vis1]| |]; simpl in *; [|done..].
  destruct (negb _); (split; [done|]); intros ?? [= <- <-]; set_solver.
Qed.

Lemma filter_autnum_total root allowed (g : graph) :
  filter_autnum root allowed g ≠ OutOfFuel.
Proof.
  unfold filter_autnum.
  destruct (_filter_autnum_total allowed g (filter_autnum_fuel g) root ∅ ∅ ∅)
    as (r & -> & Hr & _).
  { unfold filter_autnum_fuel. rewrite difference_empty_L, size_dom. lia. }
  by destruct r as [[new vis]| |].
Qed.

(** C6. The prune of {AS-A: {AS-B, AS1}, AS-B: {AS2}} from AS-A with AS2
    allowed is {AS-A: {AS-B}, AS-B: {AS2}}.  In general, in an output of
    [filter_autnum] every key has at least one member, and all its members
    are members of that key in the input and are retained (an allowed AUT-NUM
    or an AS-SET key of the output); so a key of the input none of whose
    members is retained is not a key of the output and, being an AS-SET, is
    not a member of any key of the output. *)
Theorem filter_autnum_retains :
  filter_autnum "AS-A" {[ "AS2" ]} graph_tree
    = Ok {[ "AS-A" := {[ "AS-B" ]}; "AS-B" := {[ "AS2" ]} ]}
  ∧ (∀ (root : string) (allowed : gset string) (g out : graph),
     filter_autnum root allowed g = Ok out →
     filter_inv allowed g out
     ∧ ∀ s members, g !! s = Some members →
         (∀ m, m ∈ members → ¬ retained allowed out m) →
         (s ∉ dom out)
         ∧ (has_hyphen s = true → ∀ k ms, out !! k = Some ms → s ∉ ms)).
Proof.
  split; [vm_compute; reflexivity|].
  unfold filter_autnum. intros root allowed g out Hrun.
  destruct (_filter_autnum _ _ _ _ _ _ _) as [[new vis]| |] eqn:Hcall; [|done..].
  simpl in Hrun. injection Hrun as ->.
  destruct (filter_inv_preserved _ _ _ _ _ _ _ _ _ Hcall) as [Hinv _].
  { intros k ms. by rewrite lookup_empty. }
  split; [done|]. intros s members Hs Hnone.
  assert (Hnot : s ∉ dom out).
  { intros [ms Hms]%elem_of_dom.
    destruct (Hinv s ms Hms) as (Hne & (ms0 & Hms0 & Hsub) & Hret). simplify_eq.
    apply Hne. apply set_eq. intros m. split; [|set_solver].
    intros Hm. destruct (Hnone m); auto. }
  split; [done|]. intros Hh k ms Hk Hin.
  destruct (Hinv k ms Hk) as (_ & _ & Hret).
  destruct (Hret s Hin) as [[? _]|[_ ?]]; [congruence|done].
Qed.

Lemma filter_autnum_retains_witness :
  ("AS-B" ∉ dom ({[ "AS-A" := {[ "AS1" ]} ]} : graph))
  ∧ (has_hyphen "AS-B" = true →
     ∀ k ms, ({[ "AS-A" := {[ "AS1" ]} ]} : graph) !! k = Some ms → "AS-B" ∉ ms).
Proof.
  refine (proj2 (proj2 filter_autnum_retains "AS-A" {[ "AS1" ]} graph_tree
                   {[ "AS-A" := {[ "AS1" ]} ]} _) "AS-B" {[ "AS2" ]} _ _).
  - vm_compute. reflexivity.
  - vm_compute. reflexivity.
  - intros m ->%elem_of_singleton [[_ Hm]|[Hh _]].
    + by apply elem_of_singleton in Hm.
    + discriminate Hh.
Defined.

(** ** Aggregation *)

Lemma group_foldl l acc c :
  (∀ asset, asset ∈ default ∅ (foldl group_step acc l !! c)
            ↔ asset ∈ default ∅ (acc !! c) ∨ (asset, c) ∈ l)
  ∧ (is_Some (foldl group_step acc l !! c)
     ↔ is_Some (acc !! c) ∨ ∃ asset, (asset, c) ∈ l).
Proof.
  revert acc. induction l as [|[a ca] l IH]; intros acc; simpl.
  { split; [intros asset|]; split; auto.
    - intros [?|Hin]; [done|]. by apply elem_of_nil in Hin.
    - intros [?|[? Hin]]; [done|]. by apply elem_of_nil in Hin. }
  destruct (IH (group_step acc (a, ca))) as [IH1 IH2]. split.
  - intros asset. rewrite IH1. unfold group_step.
    destruct (decide (ca = c)) as [->|Hne].
    + rewrite lookup_insert_eq. simpl. rewrite elem_of_union, elem_of_singleton, elem_of_cons.
      naive_solver.
    + rewrite lookup_insert_ne by done. rewrite elem_of_cons. naive_solver.
  - rewrite IH2. unfold group_step.
    destruct (decide (ca = c)) as [->|Hne].
    + rewrite lookup_insert_eq. split; [|eauto].
      intros _. right. exists a. by left.
    + rewrite lookup_insert_ne by done. setoid_rewrite elem_of_cons. naive_solver.
Qed.

Lemma assets_per_origin_as_set_spec `{IterOrder} (origin : closures) c A :
  assets_per_origin_as_set origin !! c = Some A →
  (∀ asset, asset ∈ A ↔ origin !! asset = Some c) ∧ ∃ asset, asset ∈ A.
Proof.
  unfold assets_per_origin_as_set. intros HA.
  destruct (group_foldl (dict_items origin) ∅ c) as [Hin Hsome].
  rewrite HA in Hin, Hsome. simpl in Hin.
  assert (Hspec : ∀ asset, asset ∈ A ↔ origin !! asset = Some c).
  { intros asset. rewrite Hin, lookup_empty. simpl.
    rewrite dict_items_perm, elem_of_map_to_list. set_solver. }
  split; [done|].
  destruct (proj1 Hsome) as [[? Hx]|[asset Hasset]]; [eauto|by rewrite lookup_empty in Hx|].
  exists asset. apply Hspec. by rewrite dict_items_perm, elem_of_map_to_list in Hasset.
Qed.

Lemma assets_per_origin_as_set_lookup `{IterOrder} (origin : closures) s c :
  origin !! s = Some c →
  ∃ A, assets_per_origin_as_set origin !! c = Some A ∧ s ∈ A.
Proof.
  intros Hs. unfold assets_per_origin_as_set.
  destruct (group_foldl (dict_items origin) ∅ c) as [Hin Hsome].
  assert (Hitem : (s, c) ∈ dict_items origin).
  { by rewrite dict_items_perm, elem_of_map_to_list. }
  destruct (proj2 Hsome) as [A HA]; [right; eauto|].
  exists A. split; [done|]. specialize (Hin s). rewrite HA in Hin. simpl in Hin.
  apply Hin. by right.
Qed.

Lemma prefix_fold_ok (prefixes : graph) l acc :
  (∀ a, a ∈ l → is_Some (prefixes !! a)) →
  for_each (λ (acc : gset string) (asn_origin : string),
              match prefixes !! asn_origin with
              | None => Raise (Exception
                          ("We did not preload prefixes for " +:+ asn_origin))
              | Some p => Ok (acc ∪ p)
              end) l acc
  = Ok (acc ∪ ⋃ ((λ asn, default ∅ (prefixes !! asn)) <$> l)).
Proof.
  revert acc. induction l as [|a l IH]; intros acc Hall; simpl.
  - f_equal. set_solver.
  - destruct (Hall a) as [p Hp]; [by left|]. rewrite Hp. simpl.
    rewrite IH by (intros; apply Hall; by right). f_equal. set_solver.
Qed.

Lemma this_prefix_set_ok `{IterOrder} (prefixes : graph) (c : gset string) :
  (∀ a, a ∈ c → is_Some (prefixes !! a)) →
  this_prefix_set prefixes c = Ok (prefix_union prefixes c).
Proof.
  intros Hall. unfold this_prefix_set.
  rewrite prefix_fold_ok.
  - f_equal. unfold prefix_union. apply set_eq. intros x.
    rewrite elem_of_union, !elem_of_union_list.
    setoid_rewrite list_elem_of_fmap. setoid_rewrite set_iter_perm. set_solver.
  - intros a Ha. apply Hall. by rewrite set_iter_perm, elem_of_elements in Ha.
Qed.

Lemma assign_foldl (n1 n2 : nat) l (st : gmap string nat * gmap string nat) s :
  let st' := foldl (λ (st : gmap string nat * gmap string nat) (asset : string),
                      (<[asset := n1]> st.1, <[asset := n2]> st.2)) st l in
  (s ∈ l → st'.1 !! s = Some n1 ∧ st'.2 !! s = Some n2)
  ∧ (s ∉ l → st'.1 !! s = st.1 !! s ∧ st'.2 !! s = st.2 !! s).
Proof.
  revert st. induction l as [|a l IH]; intros st; simpl.
  { split; [by intros ?%elem_of_nil|done]. }
  destruct (IH (<[a:=n1]> st.1, <[a:=n2]> st.2)) as [IH1 IH2]. simpl in *. split.
  - intros Hin. destruct (decide (s ∈ l)) as [?|Hnl]; [by apply IH1|].
    apply elem_of_cons in Hin as [->|?]; [|done].
    destruct (IH2 Hnl) as [-> ->]. by rewrite !lookup_insert_eq.
  - intros Hnot. apply not_elem_of_cons in Hnot as [? ?].
    destruct IH2 as [-> ->]; [done|]. by rewrite !lookup_insert_ne.
Qed.

(** C7. When the prefixes of every AUT-NUM of every closure are loaded, the
    aggregation returns, and gives every AS-SET a prefix count equal to the
    size of the union of the prefix sets of the AUT-NUMs of its closure and an
    origin count equal to the size of its closure; two AS-SETs whose closures
    are equal sets get the same two counts. *)
Theorem number_per_asset_counts `{IterOrder} (origin : closures) (prefixes : graph) :
  (∀ s c a, origin !! s = Some c → a ∈ c → is_Some (prefixes !! a)) →
  ∃ np no,
    number_per_asset origin prefixes = Ok (np, no)
    ∧ (∀ s c, origin !! s = Some c →
         np !! s = Some (size (prefix_union prefixes c))
         ∧ no !! s = Some (size c))
    ∧ (∀ s1 s2 c1 c2, origin !! s1 = Some c1 → origin !! s2 = Some c2 →
         c1 = c2 → np !! s1 = np !! s2 ∧ no !! s1 = no !! s2).
Proof.
  intros Hpre. unfold number_per_asset.
  set (G := assets_per_origin_as_set origin).
  edestruct (for_each_inv
    (λ done (st : gmap string nat * gmap string nat),
       (∀ s n, st.1 !! s = Some n →
          ∃ c, origin !! s = Some c ∧ n = size (prefix_union prefixes c))
       ∧ (∀ s n, st.2 !! s = Some n → ∃ c, origin !! s = Some c ∧ n = size c)
       ∧ (∀ c A s, (c, A) ∈ done → s ∈ A →
            is_Some (st.1 !! s) ∧ is_Some (st.2 !! s)))
    (λ (st : gmap string nat * gmap string nat) (item : gset string * gset string),
       let '(origin_as_set, assets) := item in
       prefix_set ← this_prefix_set prefixes origin_as_set ;
       Ok (foldl (λ (st : gmap string nat * gmap string nat) (asset : string),
                    (<[asset := size prefix_set]> st.1,
                     <[asset := size origin_as_set]> st.2))
                 st (set_iter assets)))
    (dict_items G) (∅, ∅)) as ([np no] & Hrun & Hnp & Hno & Hall).
  { simpl. split; [|split].
    - intros s n. by rewrite lookup_empty.
    - intros s n. by rewrite lookup_empty.
    - intros c A s Hin. by apply elem_of_nil in Hin. }
  { intros done [c A] [np no] Hitem (Hnp & Hno & Hall). simpl in *.
    rewrite dict_items_perm, elem_of_map_to_list in Hitem.
    destruct (assets_per_origin_as_set_spec origin c A Hitem) as [HA [s0 Hs0]].
    rewrite this_prefix_set_ok; simpl.
    2:{ intros a Ha. eapply Hpre; [|done]. by apply HA. }
    eexists. split; [done|].
    split; [|split].
    - intros s n Hs.
      destruct (assign_foldl (size (prefix_union prefixes c)) (size c)
                  (set_iter A) (np, no) s) as [Hin Hout]. simpl in *.
      destruct (decide (s ∈ set_iter A)) as [Hs'|Hs'].
      + destruct (Hin Hs') as [Heq _]. rewrite Heq in Hs. simplify_eq.
        exists c. split; [|done]. apply HA. by rewrite set_iter_perm, elem_of_elements in Hs'.
      + destruct (Hout Hs') as [Heq _]. rewrite Heq in Hs. by apply Hnp.
    - intros s n Hs.
      destruct (assign_foldl (size (prefix_union prefixes c)) (size c)
                  (set_iter A) (np, no) s) as [Hin Hout]. simpl in *.
      destruct (decide (s ∈ set_iter A)) as [Hs'|Hs'].
      + destruct (Hin Hs') as [_ Heq]. rewrite Heq in Hs. simplify_eq.
        exists c. split; [|done]. apply HA. by rewrite set_iter_perm, elem_of_elements in Hs'.
      + destruct (Hout Hs') as [_ Heq]. rewrite Heq in Hs. by apply Hno.
    - intros c' A' s Hin HsA.
      destruct (assign_foldl (size (prefix_union prefixes c)) (size c)
                  (set_iter A) (np, no) s) as [Hin' Hout]. simpl in *.
      destruct (decide (s ∈ set_iter A)) as [Hs'|Hs'].
      + destruct (Hin' Hs') as [-> ->]. eauto.
      + destruct (Hout Hs') as [-> ->].
        apply elem_of_app in Hin as [Hin|Hin]; [by eapply Hall|].
        apply list_elem_of_singleton in Hin. simplify_eq.
        exfalso. apply Hs'. by rewrite set_iter_perm, elem_of_elements. }
  exists np, no. split; [done|].
  assert (Hcount : ∀ s c, origin !! s = Some c →
         np !! s = Some (size (prefix_union prefixes c)) ∧ no !! s = Some (size c)).
  { intros s c Hs.
    destruct (assets_per_origin_as_set_lookup origin s c Hs) as (A & HA & HsA).
    destruct (Hall c A s) as [[n1 Hn1] [n2 Hn2]]; [|done|].
    { by rewrite dict_items_perm, elem_of_map_to_list. }
    simpl in *.
    destruct (Hnp s n1 Hn1) as (c1 & Hc1 & ->).
    destruct (Hno s n2 Hn2) as (c2 & Hc2 & ->). by simplify_eq. }
  split; [done|].
  intros s1 s2 c1 c2 H1 H2 ->.
  destruct (Hcount s1 c2 H1) as [-> ->]. destruct (Hcount s2 c2 H2) as [-> ->]. done.
Qed.

Lemma number_per_asset_counts_witness :
  ∃ np no,
    number_per_asset (H:=elements_order) closures_shared prefixes_overlap
      = Ok (np, no)
    ∧ (∀ s c, closures_shared !! s = Some c →
         np !! s = Some (size (prefix_union prefixes_overlap c))
         ∧ no !! s = Some (size c))
    ∧ (∀ s1 s2 c1 c2, closures_shared !! s1 = Some c1 →
         closures_shared !! s2 = Some c2 →
         c1 = c2 → np !! s1 = np !! s2 ∧ no !! s1 = no !! s2).
Proof.
  apply (number_per_asset_counts (H:=elements_order) closures_shared prefixes_overlap).
  intros s c a Hs Ha. unfold closures_shared in Hs.
  assert (c = {[ "AS1"; "AS2" ]}) as ->.
  { apply lookup_insert_Some in Hs as [[_ <-]|[_ Hs]]; [done|].
    by apply lookup_singleton_Some in Hs as [_ <-]. }
  apply elem_of_union in Ha as [Ha|Ha]; apply elem_of_singleton in Ha as ->;
    eexists; vm_compute; reflexivity.
Defined.

(** The count is the size of the union (4), not the sum of the sizes (5). *)
Example number_per_asset_overlap :
  number_per_asset (H:=elements_order) closures_shared prefixes_overlap
  = Ok ({[ "AS-A" := 4; "AS-B" := 4 ]}, {[ "AS-A" := 2; "AS-B" := 2 ]}).
Proof. vm_compute. reflexivity. Qed.

(** ** De-cycle transform *)

(** The transform never adds or removes a key: its first assertion cannot
    fail. *)
Lemma _remove_recursivity_dom fuel :
  ∀ asset (g : graph) parents removed g' removed',
  _remove_recursivity fuel asset g parents removed = Ok (g', removed') →
  dom g' = dom g.
Proof.
  induction fuel as [|fuel IH]; intros asset g parents removed g' removed' Hrun; [done|].
  simpl in Hrun. destruct (g !! asset) as [members|] eqn:Hmem; [|done].
  refine (for_each_inv_ok
    (λ st : graph * gset (string * string), dom st.1 = dom g)
    _ _ _ _ Hrun _ _); simpl; [done|].
  intros m [gi ri] [gi' ri'] _ Hdom Hstep. simpl in *.
  destruct (has_hyphen m); simpl in Hstep; [|by simplify_eq].
  case_bool_decide.
  - destruct (gi !! asset) as [current|] eqn:Hcur; [|done].
    case_bool_decide; simplify_eq.
    rewrite dom_insert_L, <-Hdom. apply (elem_of_dom_2 (D:=gset string)) in Hcur. set_solver.
  - apply IH in Hstep. congruence.
Qed.

(** The fuel of the de-cycle walk: a nested call extends [parents] by a new
    key, except the one call that re-enters [asset] through a self-reference,
    and the calls below that one extend it again. *)
Lemma _remove_recursivity_total fuel :
  ∀ asset (g : graph) (parents : gset string) removed,
  (2 * size (dom g ∖ parents) + (if decide (asset ∈ parents) then 2 else 1)
   ≤ fuel)%nat →
  _remove_recursivity fuel asset g parents removed ≠ OutOfFuel.
Proof.
  induction fuel as [|fuel IH]; intros asset g parents removed Hfuel.
  { destruct (decide (asset ∈ parents)); lia. }
  simpl. destruct (g !! asset) as [members|] eqn:Hmem; [|done].
  apply (for_each_total_inv (λ st : graph * gset (string * string), dom st.1 = dom g));
    [done|].
  intros [gi ri] m _ Hdom. simpl in *.
  destruct (has_hyphen m); simpl; [|split; [done|by intros ? [= <-]]].
  case_bool_decide as Hmp.
  - destruct (gi !! asset) as [current|] eqn:Hcur; [|done].
    case_bool_decide; [|done]. split; [done|]. intros ? [= <-]. simpl.
    rewrite dom_insert_L, <-Hdom. apply (elem_of_dom_2 (D:=gset string)) in Hcur. set_solver.
  - split.
    + apply IH. rewrite Hdom.
      apply (elem_of_dom_2 (D:=gset string)) in Hmem.
      destruct (decide (asset ∈ parents)) as [Hap|Hap].
      * replace (parents ∪ {[asset]}) with parents by set_solver.
        rewrite decide_False by done. lia.
      * assert (size (dom g ∖ parents)
                = S (size (dom g ∖ (parents ∪ {[asset]})))) as Hsz.
        { replace (dom g ∖ parents)
            with ({[asset]} ∪ dom g ∖ (parents ∪ {[asset]})).
          - rewrite size_union by set_solver. by rewrite size_singleton.
          - apply set_eq. intros x.
            destruct (decide (x = asset)) as [->|]; set_solver. }
        destruct (decide (m ∈ parents ∪ {[asset]})); lia.
    + intros [g' r'] Hcall. simpl. apply _remove_recursivity_dom in Hcall. congruence.
Qed.

Lemma remove_recursivity_from_tree_total root (g : graph) :
  remove_recursivity_from_tree root g ≠ OutOfFuel.
Proof.
  unfold remove_recursivity_from_tree. apply bind_not_out_of_fuel.
  - apply _remove_recursivity_total. unfold remove_recursivity_fuel.
    rewrite difference_empty_L, size_dom, decide_False by set_solver. lia.
  - intros [g' r']. repeat (destruct (negb _); [done|]). done.
Qed.

(** C3 (not met by the code). The de-cycle transform is specified to return,
    on every graph in which every AS-SET member is a key, a graph with the
    same keys and the removed edges.  The graph {AS-A: {AS-B, AS1},
    AS-B: {AS2}} is such a graph, with no cycle under AS-A, and
    [remove_recursivity_from_tree] does not return on it: its second
    assertion fails, because the root is not a member of any AS-SET (the
    first one cannot fail, by [_remove_recursivity_dom]). *)
Theorem remove_recursivity_from_tree_acyclic :
  members_closed graph_tree
  ∧ acyclic_from graph_tree "AS-A"
  ∧ remove_recursivity_from_tree "AS-A" graph_tree = Raise (AssertionError "").
Proof.
  split; [apply graph_tree_closed|]. split; [apply graph_tree_acyclic|].
  vm_compute. reflexivity.
Qed.

(** On the cyclic graph of the specification the transform does return what
    the specification says. *)
Example remove_recursivity_from_tree_cycle :
  remove_recursivity_from_tree "AS-A" graph_cycle
  = Ok ({[ "AS-A" := {[ "AS-B" ]}; "AS-B" := {[ "AS1" ]} ]},
        {[ ("AS-B", "AS-A") ]}).
Proof. vm_compute. reflexivity. Qed.

(** A self-reference below the root makes the walk enter AS-A twice; the
    outer walk then removes a member the inner one has already removed. *)
Example remove_recursivity_from_tree_self_loop :
  remove_recursivity_from_tree "AS-R"
    {[ "AS-R" := {[ "AS-A" ]}; "AS-A" := {[ "AS-A"; "AS-R" ]} ]}
  = Raise (KeyError "AS-R").
Proof. vm_compute. reflexivity. Qed.

(** ** Protocol session *)

Lemma append_assoc (a b c : string) : (a +:+ b) +:+ c = a +:+ (b +:+ c).
Proof.
  induction a as [|x a IH]; [done|].
  change (String x ((a +:+ b) +:+ c) = String x (a +:+ (b +:+ c))). by f_equal.
Qed.


















(** With no restart left the next end of stream is fatal. *)
Example restart_budget_exhausted :
  send_and_receive "!iAS-FOO"
    (set_restarts 0 (example_worker [] [Some ["A" +:+ newline; "D" +:+ newline]]))
  = Raise (Exception "We got to the limit of restarts, failing").
Proof. vm_compute. reflexivity. Qed.

(** ** Replies to a query *)

(** C5. Whatever reply [send_and_receive] hands to [query]: the reply "D"
    gives the empty set and no error; a reply that starts with "F" raises an
    error whose message ends with the reply, the server's text included; a
    reply whose first character is none of "D", "F", "A" gives the empty set,
    one warning, and no error. *)
Theorem query_reply (cmd as_set : string) (recurse : bool) (w w1 : Worker)
    (answer : string) :
  send_and_receive (query_text cmd as_set recurse) w = Ok (answer, w1) →
  (answer = "D" → query cmd as_set recurse w = Ok (∅, w1))
  ∧ (∀ text, answer = String "F" text →
       ∃ prefix, query cmd as_set recurse w
                 = Raise (Exception (prefix +:+ String "F" text)))
  ∧ (∀ first rest, answer = String first rest →
       first ≠ "D"%char → first ≠ "F"%char → first ≠ "A"%char →
       query cmd as_set recurse w
       = Ok (∅, warning ("Response for query not processed. Query is "
                         +:+ query_text cmd as_set recurse) w1)).
Proof.
  intros Hsr. unfold query. rewrite Hsr, bind_ok. split; [|split].
  - intros ->. done.
  - intros text ->.
    exists ("w" +:+ pretty (worker_id w1) +:+ ": Error on query "
            +:+ query_text cmd as_set recurse +:+ ", answer was ").
    change (String.eqb (String "F" text) "D") with false. cbv iota.
    change (Ascii.eqb "F" "F") with true. cbv iota zeta.
    do 2 f_equal. rewrite !append_assoc. done.
  - intros first rest -> HD HF HA.
    assert (String.eqb (String first rest) "D" = false) as ->.
    { apply String.eqb_neq. intros [= -> _]. done. }
    apply Ascii.eqb_neq in HF, HA. rewrite HF, HA. done.
Qed.

(** ** Validation of member lists *)

Lemma validate_member_foldl as_set l : ∀ (M0 : gset string) (w0 : Worker),
  ∃ M w', foldl (validate_member as_set) (M0, w0) l = (M, w')
    ∧ (∀ x, x ∈ M ↔ x ∈ M0 ∨ ∃ t, t ∈ l ∧ is_member_name t = true ∧ x = upper t)
    ∧ log w' = log w0 ++ (member_warning w0 as_set
                            <$> filter (λ t, is_member_name t = false) l)
    ∧ worker_id w' = worker_id w0 ∧ restarts w' = restarts w0
    ∧ connection w' = connection w0.
Proof.
  induction l as [|t l IH]; intros M0 w0.
  { exists M0, w0. split; [done|]. split.
    - intros x. split; [auto|]. intros [?|(t & Ht & _)]; [done|]. by apply elem_of_nil in Ht.
    - simpl. by rewrite app_nil_r. }
  cbn [foldl]. rewrite filter_cons.
  assert (Hcase :
    (is_member_name t = true
     ∧ validate_member as_set (M0, w0) t = (M0 ∪ {[upper t]}, w0))
    ∨ (is_member_name t = false
       ∧ validate_member as_set (M0, w0) t
         = (M0, warning ("Warning: not honoring mbrs-by-ref for object "
                         +:+ as_set +:+ " with '" +:+ t +:+ "'") w0))).
  { unfold is_member_name, validate_member. destruct (re_asn t), (re_as_set t); auto. }
  destruct Hcase as [[Hn ->]|[Hn ->]].
  - destruct (IH (M0 ∪ {[upper t]}) w0) as (M & w' & -> & HM & Hlog & Hid).
    exists M, w'. split; [done|].
    split; [|rewrite decide_False by (rewrite Hn; done); done].
    intros x. rewrite HM, elem_of_union, elem_of_singleton.
    setoid_rewrite elem_of_cons. split.
    + intros [[?| ->]|(t' & ? & ? & ?)]; [by left| |by eauto 8].
      right. exists t. auto.
    + intros [?|(t' & [->|?] & ? & ->)]; [auto|auto|]. right. by exists t'.
  - destruct (IH M0 (warning ("Warning: not honoring mbrs-by-ref for object "
                 +:+ as_set +:+ " with '" +:+ t +:+ "'") w0))
      as (M & w' & -> & HM & Hlog & Hid & Hre & Hco).
    exists M, w'. split; [done|]. split; [|split; [|done]].
    + intros x. rewrite HM. setoid_rewrite elem_of_cons. split.
      * intros [?|(t' & ? & ? & ?)]; [by left|by eauto 8].
      * intros [?|(t' & [->|?] & Hn' & ->)]; [auto|congruence|].
        right. by exists t'.
    + rewrite decide_True by done. rewrite Hlog. simpl.
      rewrite <-app_assoc. done.
Qed.

(** C8. For every set of tokens [query] returns for an AS-SET, [get_members]
    returns (it does not raise) exactly the upper-cased tokens that match the
    AUT-NUM pattern or the AS-SET pattern, and logs one warning for each
    other token, in the order it visits them. *)
Theorem get_members_validates `{IterOrder} (as_set : string) (recurse : bool)
    (w w1 : Worker) (R : gset string) :
  is_as_set as_set = true →
  query "i" as_set recurse w = Ok (R, w1) →
  ∃ M w2,
    get_members as_set recurse w = Ok (M, w2)
    ∧ (∀ x, x ∈ M ↔ ∃ t, t ∈ R ∧ (re_asn t = true ∨ re_as_set t = true)
                        ∧ x = upper t)
    ∧ log w2 = log w1 ++ (member_warning w1 as_set
                 <$> filter (λ t, is_member_name t = false) (set_iter R)).
Proof.
  intros Has Hq. unfold get_members. rewrite Has, Hq, bind_ok. simpl.
  destruct (validate_member_foldl as_set (set_iter R) ∅ w1)
    as (M & w2 & -> & HM & Hlog & _).
  exists M, w2. split; [done|]. split; [|done].
  intros x. rewrite HM. setoid_rewrite set_iter_perm. setoid_rewrite elem_of_elements.
  unfold is_member_name. setoid_rewrite orb_true_iff. set_solver.
Qed.

(** ** The coordinator *)

Lemma join_loop_cases done : ∀ u,
  match for_each raise_task_exception done u with
  | Ok _ => ∀ t o, (t, o) ∈ done → t ≠ queue_join_task → o = Returned
  | Raise e => ∃ t o, (t, o) ∈ done ∧ t ≠ queue_join_task ∧ raised_for o e
  | OutOfFuel => False
  end.
Proof.
  induction done as [|[t o] done IH]; intros u; cbn [for_each].
  { intros t o Hin. by apply elem_of_nil in Hin. }
  assert (Hhead : (raise_task_exception u (t, o) = Ok ()
                   ∧ (o = Returned ∨ t = queue_join_task))
                  ∨ (∃ e, raise_task_exception u (t, o) = Raise e
                          ∧ t ≠ queue_join_task ∧ raised_for o e)).
  { unfold raise_task_exception. simpl. case_bool_decide; simpl; [by auto|].
    destruct o as [|e|]; simpl; [by auto|right..].
    - exists e. split; [done|]. split; [done|by left].
    - exists CancelledError. split; [done|]. split; [done|by right]. }
  destruct Hhead as [[-> Hto]|(e & -> & Hne & Hr)].
  - rewrite bind_ok. specialize (IH ()).
    destruct (for_each raise_task_exception done ()) as [[]|e|]; [| |done].
    + intros t' o' [[= -> ->]|?]%elem_of_cons; [destruct Hto; done|]. by apply IH.
    + destruct IH as (t' & o' & ? & ?). exists t', o'. split; [by right|done].
  - simpl. exists t, o. split; [by left|done].
Qed.

(** C4 (amended). When a worker task in [done] has ended with an error,
    [join_queue_or_workers] raises what [exception()] gives for a worker task
    of [done], and calls [cancel()] on no task.  When every worker task in
    [done] has returned and the task of [queue.join()] is in [done], it returns
    and cancels exactly the pending tasks. *)
Theorem coordinator_raises_worker_error (done : list (task * outcome))
    (pending : list task) :
  (∀ n e, (worker_task n, Failed e) ∈ done →
     ∃ e', join_queue_or_workers done pending = (Raise e', [])
           ∧ ∃ t o, (t, o) ∈ done ∧ t ≠ queue_join_task ∧ raised_for o e')
  ∧ ((∀ t o, (t, o) ∈ done → t ≠ queue_join_task → o = Returned) →
     queue_join_task ∈ done.*1 →
     join_queue_or_workers done pending = (Ok (), pending)).
Proof.
  unfold join_queue_or_workers.
  pose proof (join_loop_cases done ()) as Hloop.
  split.
  - intros n e Hin.
    destruct (for_each raise_task_exception done ()) as [[]|e'|]; [|eauto|done].
    by specialize (Hloop _ _ Hin ltac:(done)).
  - intros Hall Hq.
    destruct (for_each raise_task_exception done ()) as [[]|e'|]; [|exfalso|done].
    + by rewrite bool_decide_eq_true_2.
    + destruct Hloop as (t & o & Hin & Hne & Hr). specialize (Hall t o Hin Hne).
      destruct Hr as [->|[-> _]]; done.
Qed.

(** C4 as the specification states it fails: worker 0 has failed, worker 1
    is still running, and [cancel()] is not called on worker 1. *)
Lemma coordinator_leaves_workers_running :
  let done := [(worker_task 0, Failed (Exception "boom"))] in
  let pending := [queue_join_task; worker_task 1] in
  ¬ (∃ e, (join_queue_or_workers done pending).1 = Raise e
          ∧ ∀ t, t ∈ pending → t ≠ queue_join_task →
                 t ∈ (join_queue_or_workers done pending).2).
Proof.
  intros done pending (e & _ & Hcancel).
  specialize (Hcancel (worker_task 1)). 
  assert (worker_task 1 ∈ (join_queue_or_workers done pending).2) as Hin.
  { apply Hcancel; [|done]. right. by left. }
  vm_compute in Hin. by apply elem_of_nil in Hin.
Qed.

Lemma query_reply_witness :
  ∃ w1, query "i" "AS-FOO" false (example_worker ["D" +:+ newline] []) = Ok (∅, w1).
Proof.
  eexists.
  apply (proj1 (query_reply "i" "AS-FOO" false
                  (example_worker ["D" +:+ newline] []) _ "D" eq_refl)).
  reflexivity.
Defined.

(** An "F" reply, end to end. *)
Example query_error_reply :
  query "i" "AS-FOO" false (example_worker ["F no such object" +:+ newline] [])
  = Raise (Exception "w0: Error on query !iAS-FOO, answer was F no such object").
Proof. vm_compute. reflexivity. Qed.

Lemma get_members_validates_witness :
  ∃ M w2,
    get_members (H:=elements_order) "AS-FOO" false members_session = Ok (M, w2)
    ∧ (∀ x, x ∈ M ↔ ∃ t, t ∈ members_tokens
                        ∧ (re_asn t = true ∨ re_as_set t = true) ∧ x = upper t)
    ∧ log w2 = log members_session_after
               ++ (member_warning members_session_after "AS-FOO"
                     <$> filter (λ t, is_member_name t = false)
                           (set_iter (IterOrder:=elements_order) members_tokens)).
Proof.
  apply (get_members_validates (H:=elements_order) "AS-FOO" false
           members_session members_session_after members_tokens).
  - reflexivity.
  - vm_compute. reflexivity.
Defined.

Example get_members_example :
  get_members (H:=elements_order) "AS-FOO" false members_session
  = Ok ({[ "AS1"; "AS-BAR" ]},
        add_log WARNING
          "Warning: not honoring mbrs-by-ref for object AS-FOO with 'ROLE-X'"
          members_session_after).
Proof. vm_compute. reflexivity. Qed.

Lemma coordinator_raises_worker_error_witness :
  ∃ e', join_queue_or_workers [(worker_task 0, Failed (Exception "boom"))]
                              [queue_join_task; worker_task 1] = (Raise e', [])
        ∧ ∃ t o, (t, o) ∈ [(worker_task 0, Failed (Exception "boom"))]
                 ∧ t ≠ queue_join_task ∧ raised_for o e'.
Proof.
  apply (proj1 (coordinator_raises_worker_error
                  [(worker_task 0, Failed (Exception "boom"))]
                  [queue_join_task; worker_task 1]) 0 (Exception "boom")).
  by left.
Defined.

(** ** The resolver on graphs with cycles *)

Lemma pick_highest_cases parents rp m r :
  pick_highest parents rp m = Ok r → r = Some m ∨ (r = rp ∧ is_Some rp).
Proof.
  unfold pick_highest. destruct rp as [q|]; [|intros [= <-]; by left].
  destruct (index parents m), (index parents q); try done.
  intros [= <-]. case_decide; [by left|right; eauto].
Qed.

Lemma setdefault_add_keys k x (rec : graph) k' :
  is_Some (setdefault_add k x rec !! k') ↔ k' = k ∨ is_Some (rec !! k').
Proof.
  unfold setdefault_add. destruct (decide (k = k')) as [->|?].
  - rewrite lookup_insert_eq. naive_solver.
  - rewrite lookup_insert_ne by done. naive_solver.
Qed.

Lemma foldl_setdefault_add_keys k l (rec : graph) k' :
  is_Some (foldl (λ r child, setdefault_add k child r) rec l !! k') →
  k' = k ∨ is_Some (rec !! k').
Proof.
  revert rec. induction l as [|x l IH]; intros rec; simpl; [auto|].
  intros [?|Hs%setdefault_add_keys]%IH; tauto.
Qed.

Lemma defer_under_keys `{IterOrder} rp s (rec : graph) k :
  is_Some (defer_under rp s rec !! k) →
  k = rp ∨ (k ≠ s ∧ is_Some (rec !! k)).
Proof.
  unfold defer_under.
  destruct (setdefault_add rp s rec !! s) as [children|] eqn:Hc.
  - intros Hk. destruct (decide (k = s)) as [->|Hne].
    { rewrite lookup_delete_eq in Hk. by destruct Hk. }
    rewrite lookup_delete_ne in Hk by done.
    apply foldl_setdefault_add_keys in Hk as [?|Hk]; [by left|].
    apply setdefault_add_keys in Hk as [?|?]; auto.
  - intros Hk. apply setdefault_add_keys in Hk as [?|Hk]; [by left|].
    right. split; [|done]. intros ->.
    assert (is_Some (setdefault_add rp s rec !! s)) as [? Hx].
    { apply setdefault_add_keys. by right. }
    congruence.
Qed.

Lemma finalize_closure_keys `{IterOrder} s nr (db : closures) (rec : graph) db' rec' k :
  finalize_closure s nr db rec = (db', rec') →
  is_Some (rec' !! k) → k ≠ s ∧ is_Some (rec !! k).
Proof.
  unfold finalize_closure. destruct (rec !! s) as [children|] eqn:Hc; intros [= <- <-].
  - intros Hk. destruct (decide (k = s)) as [->|?].
    + rewrite lookup_delete_eq in Hk. by destruct Hk.
    + by rewrite lookup_delete_ne in Hk.
  - intros Hk. split; [|done]. intros ->. rewrite Hc in Hk. by destruct Hk.
Qed.

(** Whenever a call returns, the recursive parent it reports is one of the
    ancestors it was given and is not the AS-SET itself, and the keys of the
    deferred table are ancestors. *)
Lemma resolver_parents `{IterOrder} (g : graph) fuel :
  ∀ s (db : closures) parents (rec : graph) rp c db' rec',
  get_origin_asns fuel s db g parents rec = Ok (rp, c, db', rec') →
  (∀ k, is_Some (rec !! k) → k ∈ parents) →
  (∀ p, rp = Some p → p ∈ parents ∧ p ≠ s)
  ∧ (∀ k, is_Some (rec' !! k) → k ∈ parents).
Proof.
  induction fuel as [|fuel IH]; intros s db parents rec rp c db' rec' Hrun Hkeys; [done|].
  rewrite get_origin_asns_S in Hrun. unfold get_origin_asns_body in Hrun.
  destruct (db !! s) as [c0|] eqn:Hdb.
  { simplify_eq. split; [done|done]. }
  destruct (g !! s) as [members|] eqn:Hmem; [|done].
  destruct (for_each _ _ _) as [[[[rp1 nr] db1] rec1]| |] eqn:Hloop; simplify_eq/=.
  assert (Hinv : (∀ p, rp1 = Some p → p ∈ parents ∧ p ≠ s)
                 ∧ (∀ k, is_Some (rec1 !! k) → k ∈ parents ++ [s])).
  { refine (for_each_inv_ok
      (λ st : loop_state,
         (∀ p, st.1.1.1 = Some p → p ∈ parents ∧ p ≠ s)
         ∧ (∀ k, is_Some (st.2 !! k) → k ∈ parents ++ [s]))
      _ _ _ _ Hloop _ _); simpl.
    { split; [done|]. intros k Hk. apply elem_of_app. left. auto. }
    intros m [[[rpi nri] dbi] reci] st' _ [Hrpi Hreci] Hstep. simpl in *.
    unfold member_step in Hstep.
    case_bool_decide as Hms; [by simplify_eq|].
    case_bool_decide as Hmp.
    { destruct (pick_highest _ _ _) as [r| |] eqn:Hpick; simplify_eq/=.
      split; [|done]. intros p ->.
      apply pick_highest_cases in Hpick as [[= <-]|[<- _]]; auto. }
    destruct (has_hyphen m) eqn:Hh; simpl in Hstep; [|by simplify_eq].
    destruct (get_origin_asns fuel m dbi g _ reci) as [[[[mrp mo] db2] rec2]| |] eqn:Hcall;
      simplify_eq/=.
    destruct (IH _ _ _ _ _ _ _ _ Hcall Hreci) as [_ Hrec2].
    destruct mrp as [mrp|]; [|by simplify_eq].
    case_bool_decide as Hmrps; [by simplify_eq|].
    case_bool_decide as Hmrpp; simpl in Hstep; [|done].
    destruct (pick_highest _ _ _) as [r| |] eqn:Hpick; simplify_eq/=.
    split; [|done]. intros p ->.
    apply pick_highest_cases in Hpick as [[= <-]|[<- _]]; auto. }
  destruct Hinv as [Hrp1 Hrec1].
  assert (Hnots : ∀ k, is_Some (rec1 !! k) → k ≠ s → k ∈ parents).
  { intros k Hk Hne. apply Hrec1 in Hk. apply elem_of_app in Hk as [?|Hk]; [done|].
    by apply list_elem_of_singleton in Hk. }
  destruct (truthy rp1) eqn:Htr.
  - simplify_eq. split; [done|].
    destruct rp as [p|]; [|done]. simpl.
    intros k [->|[Hne Hk]]%defer_under_keys; [by apply Hrp1|auto].
  - destruct (finalize_closure s nr db1 rec1) as [db2 rec2] eqn:Hfin. simplify_eq.
    split; [done|]. intros k Hk.
    destruct (finalize_closure_keys _ _ _ _ _ _ _ Hfin Hk). auto.
Qed.

Lemma for_each_raise {A S} (P : S → Prop) (body : S → A → result S) l st0 e :
  for_each body l st0 = Raise e →
  P st0 →
  (∀ x st st', x ∈ l → P st → body st x = Ok st' → P st') →
  ∃ x st, x ∈ l ∧ P st ∧ body st x = Raise e.
Proof.
  revert st0. induction l as [|x l IH]; intros st0 Hrun HP Hstep; [done|].
  simpl in Hrun. destruct (body st0 x) as [st1|e1|] eqn:Hb; simpl in Hrun; [| |done].
  - destruct (IH st1 Hrun) as (y & st & Hy & HPst & Hraise).
    + eapply Hstep; [left|done|done].
    + intros z st st' Hz. apply Hstep. by right.
    + exists y, st. split; [by right|done].
  - simplify_eq. exists x, st0. split; [left|done].
Qed.

Lemma pick_highest_ok parents rp m :
  m ∈ parents → (∀ p, rp = Some p → p ∈ parents) →
  ∃ r, pick_highest parents rp m = Ok r.
Proof.
  intros Hm Hrp. destruct (pick_highest_parents parents rp m Hm Hrp) as (p & -> & _).
  eauto.
Qed.

(** The only exception a call raises is the [KeyError] of a name that is
    not a key: the AS-SET of the call, or an AS-SET it reaches. *)
Lemma resolver_raises `{IterOrder} (g : graph) fuel :
  ∀ s (db : closures) parents (rec : graph) e,
  get_origin_asns fuel s db g parents rec = Raise e →
  (∀ k, is_Some (rec !! k) → k ∈ parents) →
  ∃ m, e = KeyError m ∧ g !! m = None
       ∧ (m = s ∨ (reaches g s m ∧ has_hyphen m = true)).
Proof.
  induction fuel as [|fuel IH]; intros s db parents rec e Hrun Hkeys; [done|].
  rewrite get_origin_asns_S in Hrun. unfold get_origin_asns_body in Hrun.
  destruct (db !! s) as [c0|] eqn:Hdb; [done|].
  destruct (g !! s) as [members|] eqn:Hmem.
  2:{ simplify_eq. exists s. auto. }
  destruct (for_each _ _ _) as [[[[rp1 nr] db1] rec1]|e1|] eqn:Hloop; simpl in Hrun.
  { destruct (truthy rp1); [done|]. by destruct (finalize_closure s nr db1 rec1). }
  2:{ done. }
  simplify_eq.
  destruct (for_each_raise
      (λ st : loop_state,
         (∀ p, st.1.1.1 = Some p → p ∈ parents)
         ∧ (∀ k, is_Some (st.2 !! k) → k ∈ parents ++ [s]))
      _ _ _ _ Hloop) as (m & [[[rpi nri] dbi] reci] & Hm & [Hrpi Hreci] & Hraise); simpl in *.
  { split; [done|]. intros k Hk. apply elem_of_app. left. auto. }
  { intros m [[[rpi nri] dbi] reci] st' _ [Hrpi Hreci] Hstep. simpl in *.
    unfold member_step in Hstep.
    case_bool_decide as Hms; [by simplify_eq|].
    case_bool_decide as Hmp.
    { destruct (pick_highest _ _ _) as [r| |] eqn:Hpick; simplify_eq/=.
      split; [|done]. intros p ->.
      apply pick_highest_cases in Hpick as [[= <-]|[<- _]]; auto. }
    destruct (has_hyphen m) eqn:Hh; simpl in Hstep; [|by simplify_eq].
    destruct (get_origin_asns fuel m dbi g _ reci) as [[[[mrp mo] db2] rec2]| |] eqn:Hcall;
      simplify_eq/=.
    destruct (resolver_parents _ _ _ _ _ _ _ _ _ _ Hcall Hreci) as [_ Hrec2].
    destruct mrp as [mrp|]; [|by simplify_eq].
    case_bool_decide as Hmrps; [by simplify_eq|].
    case_bool_decide as Hmrpp; simpl in Hstep; [|done].
    destruct (pick_highest _ _ _) as [r| |] eqn:Hpick; simplify_eq/=.
    split; [|done]. intros p ->.
    apply pick_highest_cases in Hpick as [[= <-]|[<- _]]; auto. }
  rewrite set_iter_perm, elem_of_elements in Hm.
  unfold member_step in Hraise.
  case_bool_decide as Hms; [done|].
  case_bool_decide as Hmp.
  { destruct (pick_highest_ok parents rpi m Hmp Hrpi) as [r Hr].
    rewrite Hr in Hraise. done. }
  destruct (has_hyphen m) eqn:Hh; simpl in Hraise; [|done].
  destruct (get_origin_asns fuel m dbi g _ reci) as [[[[mrp mo] db2] rec2]|e2|] eqn:Hcall;
    simpl in Hraise; [| |done].
  - destruct (resolver_parents _ _ _ _ _ _ _ _ _ _ Hcall Hreci) as [Hmrp _].
    destruct mrp as [mrp|]; [|done].
    case_bool_decide as Hmrps; [done|].
    destruct (Hmrp mrp eq_refl) as [Hin _].
    apply elem_of_app in Hin as [Hin|Hin]; [|apply list_elem_of_singleton in Hin; done].
    case_bool_decide; [|done]. simpl in Hraise.
    destruct (pick_highest_ok parents rpi mrp Hin Hrpi) as [r Hr].
    rewrite Hr in Hraise. done.
  - simplify_eq.
    destruct (IH _ _ _ _ _ Hcall Hreci) as (k & -> & Hk & Hreach).
    exists k. split; [done|]. split; [done|]. right.
    assert (member_of g s m) by (exists members; done).
    destruct Hreach as [->|[Hr Hhk]].
    + split; [by apply reaches_member|done].
    + split; [|done]. by eapply reaches_step.
Qed.

Lemma for_each_inv_done {A S} (P : list A → S → Prop) (body : S → A → result S)
    l st0 st1 :
  for_each body l st0 = Ok st1 →
  P [] st0 →
  (∀ done x st st', x ∈ l → P done st → body st x = Ok st' → P (done ++ [x]) st') →
  P l st1.
Proof.
  intros Hrun H0 Hstep.
  enough (Hgen : ∀ done rest st, done ++ rest = l → P done st →
                   for_each body rest st = Ok st1 → P l st1)
    by exact (Hgen [] l st0 eq_refl H0 Hrun).
  intros done rest. revert done.
  induction rest as [|x rest IH]; intros done st Hl HP Hr.
  - simpl in Hr. simplify_eq. by rewrite app_nil_r.
  - simpl in Hr. destruct (body st x) as [st'| |] eqn:Hb; simplify_eq/=.
    apply (IH (done ++ [x]) st'); [by rewrite <- app_assoc| |done].
    eapply Hstep; [|done|done]. apply elem_of_app. right. left.
Qed.

Lemma setdefault_add_keeps k x (rec : graph) k' t :
  (∃ X, rec !! k' = Some X ∧ t ∈ X) →
  ∃ X, setdefault_add k x rec !! k' = Some X ∧ t ∈ X.
Proof.
  intros (X & HX & Ht). unfold setdefault_add.
  destruct (decide (k = k')) as [->|?].
  - rewrite lookup_insert_eq, HX. simpl. eexists. split; [done|set_solver].
  - rewrite lookup_insert_ne by done. eauto.
Qed.

Lemma setdefault_add_adds k x (rec : graph) :
  ∃ X, setdefault_add k x rec !! k = Some X ∧ x ∈ X.
Proof.
  unfold setdefault_add. rewrite lookup_insert_eq. eexists. split; [done|set_solver].
Qed.

Lemma foldl_setdefault_add_keeps k l (rec : graph) k' t :
  (∃ X, rec !! k' = Some X ∧ t ∈ X) →
  ∃ X, foldl (λ r child, setdefault_add k child r) rec l !! k' = Some X ∧ t ∈ X.
Proof.
  revert rec. induction l as [|x l IH]; intros rec Hk; simpl; [done|].
  apply IH. by apply setdefault_add_keeps.
Qed.

Lemma foldl_setdefault_add_adds k l (rec : graph) t :
  t ∈ l →
  ∃ X, foldl (λ r child, setdefault_add k child r) rec l !! k = Some X ∧ t ∈ X.
Proof.
  revert rec. induction l as [|x l IH]; intros rec Ht; [by apply elem_of_nil in Ht|].
  apply elem_of_cons in Ht as [->|Ht]; simpl.
  - apply foldl_setdefault_add_keeps, setdefault_add_adds.
  - by apply IH.
Qed.

(** What [defer_under] keeps: [as_set] waits under its recursive parent, and
    whatever waited still waits. *)
Lemma defer_under_waits `{IterOrder} rp s (rec : graph) :
  rp ≠ s →
  (∃ X, defer_under rp s rec !! rp = Some X ∧ s ∈ X)
  ∧ (∀ k X t, rec !! k = Some X → t ∈ X →
       ∃ k' X', defer_under rp s rec !! k' = Some X' ∧ t ∈ X'
                ∧ (k' = k ∨ (k = s ∧ k' = rp))).
Proof.
  intros Hne. unfold defer_under.
  destruct (setdefault_add rp s rec !! s) as [children|] eqn:Hc.
  - split.
    + rewrite lookup_delete_ne by done.
      apply foldl_setdefault_add_keeps, setdefault_add_adds.
    + intros k X t HX Ht. destruct (decide (k = s)) as [->|Hks].
      * exists rp. assert (children = X) as ->.
        { unfold setdefault_add in Hc. rewrite lookup_insert_ne in Hc by done. congruence. }
        destruct (foldl_setdefault_add_adds rp (set_iter X) (setdefault_add rp s rec) t)
          as (X' & HX' & Ht').
        { rewrite set_iter_perm. by apply elem_of_elements. }
        exists X'. rewrite lookup_delete_ne by done. auto.
      * exists k.
        destruct (foldl_setdefault_add_keeps rp (set_iter children)
                    (setdefault_add rp s rec) k t) as (X' & HX' & Ht').
        { apply setdefault_add_keeps. eauto. }
        exists X'. rewrite lookup_delete_ne by done. auto.
  - split; [apply setdefault_add_adds|].
    intros k X t HX Ht.
    destruct (setdefault_add_keeps rp s rec k t) as (X' & HX' & Ht'); [eauto|].
    exists k, X'. auto.
Qed.

Lemma foldl_insert_keeps (v : gset string) l (db : closures) t :
  is_Some (db !! t) → is_Some (foldl (λ d child, <[child := v]> d) db l !! t).
Proof.
  revert db. induction l as [|x l IH]; intros db Ht; simpl; [done|].
  apply IH. destruct (decide (x = t)) as [->|?].
  - rewrite lookup_insert_eq. eauto.
  - by rewrite lookup_insert_ne.
Qed.

Lemma foldl_insert_adds (v : gset string) l (db : closures) t :
  t ∈ l → is_Some (foldl (λ d child, <[child := v]> d) db l !! t).
Proof.
  revert db. induction l as [|x l IH]; intros db Ht; [by apply elem_of_nil in Ht|].
  apply elem_of_cons in Ht as [->|Ht]; simpl; [|by apply IH].
  apply foldl_insert_keeps. rewrite lookup_insert_eq. eauto.
Qed.

(** What [finalize_closure] keeps: [as_set] has its closure, whatever had a
    closure has one, and whatever waited waits or has a closure. *)
Lemma finalize_closure_resolves `{IterOrder} s nr (db : closures) (rec : graph) db' rec' :
  finalize_closure s nr db rec = (db', rec') →
  is_Some (db' !! s)
  ∧ (∀ t, is_Some (db !! t) → is_Some (db' !! t))
  ∧ (∀ t, waits rec t → waits rec' t ∨ is_Some (db' !! t)).
Proof.
  unfold finalize_closure. destruct (rec !! s) as [children|] eqn:Hc; intros [= <- <-].
  - split; [|split].
    + apply foldl_insert_keeps. rewrite lookup_insert_eq. eauto.
    + intros t Ht. apply foldl_insert_keeps.
      destruct (decide (s = t)) as [->|?]; [rewrite lookup_insert_eq; eauto|].
      by rewrite lookup_insert_ne.
    + intros t (k & X & HX & Ht). destruct (decide (k = s)) as [->|Hks].
      * right. apply foldl_insert_adds. rewrite set_iter_perm.
        apply elem_of_elements. congruence.
      * left. exists k, X. by rewrite lookup_delete_ne.
  - split; [|split].
    + rewrite lookup_insert_eq. eauto.
    + intros t Ht.
      destruct (decide (s = t)) as [->|?]; [rewrite lookup_insert_eq; eauto|].
      by rewrite lookup_insert_ne.
    + auto.
Qed.

(** The invariant of the walk: after a call its AS-SET is resolved, what was
    resolved stays resolved, and the AS-SET members of what is resolved are
    resolved or are ancestors that are still being walked. *)
Lemma resolver_covers `{IterOrder} (g : graph) fuel :
  ∀ s (db : closures) parents (rec : graph) rp c db' rec',
  get_origin_asns fuel s db g parents rec = Ok (rp, c, db', rec') →
  (∀ k, is_Some (rec !! k) → k ∈ parents) →
  resolved_closed g db rec parents →
  resolved db' rec' s
  ∧ (∀ x, resolved db rec x → resolved db' rec' x)
  ∧ resolved_closed g db' rec' parents.
Proof.
  induction fuel as [|fuel IH]; intros s db parents rec rp c db' rec' Hrun Hkeys Hcl; [done|].
  pose proof (resolver_parents _ _ _ _ _ _ _ _ _ _ Hrun Hkeys) as [Hrp _].
  rewrite get_origin_asns_S in Hrun. unfold get_origin_asns_body in Hrun.
  destruct (db !! s) as [c0|] eqn:Hdb.
  { simplify_eq. split; [left; rewrite Hdb; eauto|]. split; [done|done]. }
  destruct (g !! s) as [members|] eqn:Hmem; [|done].
  destruct (for_each _ _ _) as [[[[rp1 nr] db1] rec1]| |] eqn:Hloop; simplify_eq/=.
  assert (Hinv :
    (∀ k, is_Some (rec1 !! k) → k ∈ parents ++ [s])
    ∧ (∀ x, resolved db rec x → resolved db1 rec1 x)
    ∧ resolved_closed g db1 rec1 (parents ++ [s])
    ∧ (∀ m, m ∈ set_iter members → has_hyphen m = true →
         m = s ∨ m ∈ parents ∨ resolved db1 rec1 m)).
  { refine (for_each_inv_done
      (λ done (st : loop_state),
         (∀ k, is_Some (st.2 !! k) → k ∈ parents ++ [s])
         ∧ (∀ x, resolved db rec x → resolved st.1.2 st.2 x)
         ∧ resolved_closed g st.1.2 st.2 (parents ++ [s])
         ∧ (∀ m, m ∈ done → has_hyphen m = true →
              m = s ∨ m ∈ parents ∨ resolved st.1.2 st.2 m))
      _ _ _ _ Hloop _ _); simpl.
    { split; [|split; [done|split]].
      - intros k Hk. apply elem_of_app. left. auto.
      - intros x m Hx Hm Hh. destruct (Hcl x m Hx Hm Hh); [by left|].
        right. apply elem_of_app. by left.
      - intros m Hm. by apply elem_of_nil in Hm. }
    intros done m [[[rpi nri] dbi] reci] st' _ (Hreci & Hmono & Hcli & Hdone) Hstep.
    simpl in *.
    unfold member_step in Hstep.
    case_bool_decide as Hms.
    { simplify_eq/=. split; [done|]. split; [done|]. split; [done|].
      intros m [Hm|Hm%list_elem_of_singleton]%elem_of_app Hh; auto. }
    case_bool_decide as Hmp.
    { destruct (pick_highest _ _ _) as [r| |] eqn:Hpick; simplify_eq/=.
      split; [done|]. split; [done|]. split; [done|].
      intros m' [Hm|Hm%list_elem_of_singleton]%elem_of_app Hh; [auto|].
      subst. auto. }
    destruct (has_hyphen m) eqn:Hh; simpl in Hstep.
    2:{ simplify_eq/=. split; [done|]. split; [done|]. split; [done|].
        intros m' [Hm|Hm%list_elem_of_singleton]%elem_of_app Hh'; [auto|].
        subst. congruence. }
    destruct (get_origin_asns fuel m dbi g _ reci) as [[[[mrp mo] db2] rec2]| |] eqn:Hcall;
      simplify_eq/=.
    destruct (resolver_parents _ _ _ _ _ _ _ _ _ _ Hcall Hreci) as [_ Hrec2].
    destruct (IH _ _ _ _ _ _ _ _ Hcall Hreci Hcli) as (Hres & Hmono2 & Hcl2).
    assert (Hpost :
      (∀ k, is_Some (rec2 !! k) → k ∈ parents ++ [s])
      ∧ (∀ x, resolved db rec x → resolved db2 rec2 x)
      ∧ resolved_closed g db2 rec2 (parents ++ [s])
      ∧ (∀ m0, m0 ∈ done ++ [m] → has_hyphen m0 = true →
           m0 = s ∨ m0 ∈ parents ∨ resolved db2 rec2 m0)).
    { split; [done|]. split; [auto|]. split; [done|].
      intros m' [Hm|Hm%list_elem_of_singleton]%elem_of_app Hh'.
      - destruct (Hdone m' Hm Hh') as [?|[?|?]]; auto.
      - subst. auto. }
    destruct mrp as [mrp|]; [|by simplify_eq].
    case_bool_decide as Hmrps; [by simplify_eq|].
    case_bool_decide as Hmrpp; simpl in Hstep; [|done].
    destruct (pick_highest _ _ _) as [r| |] eqn:Hpick; simplify_eq/=. done. }
  destruct Hinv as (Hrec1 & Hmono & Hcl1 & Hmembers).
  assert (Hfinal : ∀ db' rec',
    resolved db' rec' s →
    (∀ x, resolved db1 rec1 x → resolved db' rec' x) →
    (∀ x, resolved db' rec' x → x = s ∨ resolved db1 rec1 x) →
    resolved db' rec' s
    ∧ (∀ x, resolved db rec x → resolved db' rec' x)
    ∧ resolved_closed g db' rec' parents).
  { intros db2 rec2 Hs Hkeep Hback. split; [done|]. split; [auto|].
    intros x m Hx Hm Hh.
    assert (Hcase : m = s ∨ m ∈ parents ∨ resolved db1 rec1 m).
    { destruct (Hback x Hx) as [->|Hx1].
      - destruct Hm as (ms & Hms & Hin). rewrite Hmem in Hms. simplify_eq.
        apply Hmembers; [|done]. rewrite set_iter_perm. by apply elem_of_elements.
      - destruct (Hcl1 x m Hx1 Hm Hh) as [?|Hin]; [auto|].
        apply elem_of_app in Hin as [?|Hin%list_elem_of_singleton]; auto. }
    destruct Hcase as [->|[?|?]]; auto. }
  destruct (truthy rp1) eqn:Htr.
  - simplify_eq. destruct rp as [p|]; [|done]. simpl.
    destruct (Hrp p eq_refl) as [_ Hne].
    destruct (defer_under_waits p s rec1 Hne) as [(X & HX & HsX) Hkeep].
    apply Hfinal.
    + right. by exists p, X.
    + intros x [Hx|(k & Y & HY & Hx)]; [by left|].
      destruct (Hkeep k Y x HY Hx) as (k' & X' & HX' & Hx' & _).
      right. by exists k', X'.
    + intros x [Hx|Hx]; [right; by left|].
      apply waits_defer_under in Hx as [->|Hx]; [by left|]. right. by right.
  - destruct (finalize_closure s nr db1 rec1) as [db2 rec2] eqn:Hfin. simplify_eq.
    destruct (finalize_closure_resolves _ _ _ _ _ _ Hfin) as (Hs & Hdbk & Hwk).
    apply Hfinal.
    + by left.
    + intros x [Hx|Hx]; [left; auto|].
      destruct (Hwk x Hx); [by right|by left].
    + intros x Hx.
      assert (is_Some (db' !! x) ∨ waits rec' x) as Hx' by exact Hx.
      eapply finalize_closure_visits in Hx' as [->|Hx']; [by left| |done].
      right. exact Hx'.
Qed.

(** Only keys of the graph get a closure or are deferred. *)
Lemma resolver_keys `{IterOrder} (g : graph) fuel :
  ∀ s (db : closures) parents (rec : graph) rp c db' rec',
  get_origin_asns fuel s db g parents rec = Ok (rp, c, db', rec') →
  (∀ t, resolved db rec t → is_Some (g !! t)) →
  ∀ t, resolved db' rec' t → is_Some (g !! t).
Proof.
  induction fuel as [|fuel IH]; intros s db parents rec rp c db' rec' Hrun Hpre; [done|].
  rewrite get_origin_asns_S in Hrun. unfold get_origin_asns_body in Hrun.
  destruct (db !! s) as [c0|] eqn:Hdb.
  { by simplify_eq. }
  destruct (g !! s) as [members|] eqn:Hmem; [|done].
  destruct (for_each _ _ _) as [[[[rp1 nr] db1] rec1]| |] eqn:Hloop; simplify_eq/=.
  assert (Hinv : ∀ t, resolved db1 rec1 t → is_Some (g !! t)).
  { refine (for_each_inv_ok
      (λ st : loop_state, ∀ t, resolved st.1.2 st.2 t → is_Some (g !! t))
      _ _ _ _ Hloop _ _); simpl; [done|].
    intros m [[[rpi nri] dbi] reci] st' _ HP Hstep. simpl in *.
    unfold member_step in Hstep.
    case_bool_decide; [by simplify_eq|].
    case_bool_decide.
    { destruct (pick_highest _ _ _); simplify_eq/=. done. }
    destruct (has_hyphen m) eqn:Hh; simpl in Hstep; [|by simplify_eq].
    destruct (get_origin_asns fuel m dbi g _ reci) as [[[[mrp mo] db2] rec2]| |] eqn:Hcall;
      simplify_eq/=.
    pose proof (IH _ _ _ _ _ _ _ _ Hcall HP) as HP2.
    destruct mrp as [mrp|]; [|by simplify_eq].
    case_bool_decide; [by simplify_eq|].
    case_bool_decide; simpl in Hstep; [|done].
    destruct (pick_highest _ _ _); simplify_eq/=. done. }
  destruct (truthy rp1) eqn:Htr.
  - simplify_eq. intros t [Hs|Hw]; [apply Hinv; by left|].
    apply waits_defer_under in Hw as [->|Hw]; [by rewrite Hmem|]. apply Hinv. by right.
  - destruct (finalize_closure s nr db1 rec1) as [db2 rec2] eqn:Hfin. simplify_eq.
    intros t Ht.
    assert (is_Some (db' !! t) ∨ waits rec' t) as Ht' by exact Ht.
    eapply finalize_closure_visits in Ht' as [->|Ht']; [by rewrite Hmem| |done].
    apply Hinv. exact Ht'.
Qed.

Lemma graph_empty_keys (rec : graph) : (∀ k, is_Some (rec !! k) → k ∈ @nil string) → rec = ∅.
Proof.
  intros Hk. apply map_empty. intros k. apply eq_None_not_Some. intros Hs.
  by apply Hk, elem_of_nil in Hs.
Qed.

(** The outermost call: when it returns there is no recursive parent,
    nothing is left deferred, and the AS-SETs with a closure are the root and
    the AS-SETs the root reaches, all keys of the graph. *)
Lemma top_call `{IterOrder} (g : graph) fuel root rp c (db rec : graph) :
  get_origin_asns fuel root ∅ g [] ∅ = Ok (rp, c, db, rec) →
  rp = None ∧ rec = ∅
  ∧ (∀ k, is_Some (db !! k) ↔ k = root ∨ (reaches g root k ∧ has_hyphen k = true))
  ∧ complete_from g root.
Proof.
  intros Hrun.
  assert (Hk0 : ∀ k, is_Some ((∅ : graph) !! k) → k ∈ @nil string).
  { intros k. rewrite lookup_empty. by intros []. }
  assert (Hr0 : ∀ t, resolved (∅ : closures) (∅ : graph) t → False).
  { intros t [Hs|(k & X & HX & _)].
    - rewrite lookup_empty in Hs. by destruct Hs.
    - by rewrite lookup_empty in HX. }
  destruct (resolver_parents g _ _ _ _ _ _ _ _ _ Hrun Hk0) as [Hrp Hrec].
  apply graph_empty_keys in Hrec as ->.
  assert (rp = None) as ->.
  { destruct rp as [p|]; [|done]. by destruct (Hrp p eq_refl) as [?%elem_of_nil _]. }
  destruct (resolver_covers g _ _ _ _ _ _ _ _ _ Hrun Hk0) as (Hroot & _ & Hcl).
  { intros x m Hx. by apply Hr0 in Hx. }
  assert (Hres : ∀ t, resolved db ∅ t → is_Some (db !! t)).
  { intros t [?|(k & X & HX & _)]; [done|]. by rewrite lookup_empty in HX. }
  assert (Hkeys : ∀ t, is_Some (db !! t) → is_Some (g !! t)).
  { intros t Ht. eapply (resolver_keys g _ _ _ _ _ _ _ _ _ Hrun).
    - intros x Hx. by apply Hr0 in Hx.
    - by left. }
  assert (Hreach : ∀ s t, reaches g s t → is_Some (db !! s) → has_hyphen t = true →
            is_Some (db !! t)).
  { intros s t Hst. induction Hst as [s m Hm|s m x Hm Hh Hmx IHr]; intros Hs Ht.
    - destruct (Hcl s m (or_introl Hs) Hm Ht) as [?|?%elem_of_nil]; [auto|done].
    - apply IHr; [|done].
      destruct (Hcl s m (or_introl Hs) Hm Hh) as [?|?%elem_of_nil]; [auto|done]. }
  split; [done|]. split; [done|]. split; [|split].
  - intros k. split.
    + intros Hk.
      destruct (resolver_visits g _ _ _ _ _ _ _ _ _ Hrun k (or_introl Hk))
        as [Hs|[(k' & X & HX & _)|[->|?]]]; auto.
      * rewrite lookup_empty in Hs. by destruct Hs.
      * by rewrite lookup_empty in HX.
    + intros [->|[Hr Hh]]; [auto|]. eapply Hreach; eauto.
  - auto.
  - intros m Hr Hh. apply Hkeys. eapply Hreach; eauto.
Qed.

Lemma top_call_returns `{IterOrder} (g : graph) root :
  complete_from g root →
  ∃ c db, get_origin_asns (resolver_fuel g) root ∅ g [] ∅ = Ok (None, c, db, ∅).
Proof.
  intros [Hroot Hcompl].
  destruct (get_origin_asns_returns g (resolver_fuel g) root ∅ [] ∅)
    as (rp & c & db & rec & Hrun & _); try done.
  - unfold resolver_fuel. simpl. lia.
  - constructor.
  - intros p Hp. by apply elem_of_nil in Hp.
  - apply not_elem_of_nil.
  - destruct (top_call _ _ _ _ _ _ _ Hrun) as (-> & -> & _). eauto.
Qed.

(** X1. [get_origin_asns_from_members] returns exactly when the part of the
    graph under the root is complete and every key is the root or an AS-SET
    the root reaches; cycles do not matter. *)
Theorem get_origin_asns_from_members_returns_iff `{IterOrder} (g : graph) (root : string) :
  (∃ db, get_origin_asns_from_members root g = Ok db)
  ↔ complete_from g root ∧ rooted g root.
Proof.
  split.
  - intros [db Hrun]. unfold get_origin_asns_from_members in Hrun.
    destruct (get_origin_asns _ _ _ _ _ _) as [[[[rp c] db1] rec1]| |] eqn:Hcall;
      simpl in Hrun; [|done..].
    destruct (top_call _ _ _ _ _ _ _ Hcall) as (-> & -> & Hdom & Hcompl).
    rewrite !bool_decide_eq_true_2 in Hrun by done. simpl in Hrun.
    case_bool_decide as Heq; simpl in Hrun; [|done]. simplify_eq.
    split; [done|]. intros k Hk. apply Hdom.
    by rewrite <- elem_of_dom, Heq, elem_of_dom.
  - intros [Hcompl Hrooted].
    destruct (top_call_returns g root Hcompl) as (c & db & Hcall).
    destruct (top_call _ _ _ _ _ _ _ Hcall) as (_ & _ & Hdom & _).
    assert (Hdg : dom db = dom g).
    { apply set_eq. intros k. rewrite !elem_of_dom, Hdom. split.
      - intros [->|[Hr Hh]]; [apply (proj1 Hcompl)|by apply (proj2 Hcompl)].
      - apply Hrooted. }
    exists db. unfold get_origin_asns_from_members. rewrite Hcall. simpl.
    by rewrite !bool_decide_eq_true_2.
Qed.

(** X2. What [get_origin_asns_from_members] raises.  A missing key under the
    root gives the [KeyError] of a name that is not a key; otherwise the only
    failure is the third assertion, for a key the walk does not visit.  The
    first two assertions, the [ValueError] of [parents.index] and the
    exception for an unknown recursive parent are never raised. *)
Theorem get_origin_asns_from_members_raises `{IterOrder} (g : graph) (root : string) e :
  get_origin_asns_from_members root g = Raise e →
  (∃ m, e = KeyError m ∧ g !! m = None
        ∧ (m = root ∨ (reaches g root m ∧ has_hyphen m = true)))
  ∨ (e = AssertionError "we did not find the origin ases for all as-sets on the tree"
     ∧ complete_from g root
     ∧ ∃ k, is_Some (g !! k) ∧ k ≠ root
            ∧ ¬ (reaches g root k ∧ has_hyphen k = true)).
Proof.
  unfold get_origin_asns_from_members.
  destruct (get_origin_asns _ _ _ _ _ _) as [[[[rp c] db1] rec1]|e1|] eqn:Hcall;
    simpl; [| |done].
  - destruct (top_call _ _ _ _ _ _ _ Hcall) as (-> & -> & Hdom & Hcompl).
    rewrite !bool_decide_eq_true_2 by done. simpl.
    case_bool_decide as Heq; simpl; [done|]. intros [= <-]. right.
    split; [done|]. split; [done|].
    assert (Hsub : dom db1 ⊆ dom g).
    { intros k. rewrite !elem_of_dom, Hdom.
      intros [->|[Hr Hh]]; [apply (proj1 Hcompl)|by apply (proj2 Hcompl)]. }
    destruct (set_choose_L (dom g ∖ dom db1)) as [k Hk].
    { intros Hempty. apply Heq. apply set_eq. intros k. split; [apply Hsub|].
      intros Hk. destruct (decide (k ∈ dom db1)); [done|].
      assert (k ∈ dom g ∖ dom db1) as Hd by set_solver. rewrite Hempty in Hd.
      set_solver. }
    apply elem_of_difference in Hk as [Hkg Hkd].
    exists k. split; [by apply elem_of_dom|].
    rewrite elem_of_dom, Hdom in Hkd. split; [|tauto].
    intros ->. apply Hkd. by left.
  - intros [= <-]. left.
    apply (resolver_raises g _ _ _ _ _ _ Hcall).
    intros k. rewrite lookup_empty. by intros [].
Qed.

(** X4. [get_irr_output] returns exactly when the part of the graph under the
    root is complete; the result has a closure for the root and for every
    AS-SET the root reaches and for nothing else, and it is the result of
    [get_origin_asns_from_members] whenever that one returns. *)
Theorem get_irr_output_returns `{IterOrder} (g : graph) (root : string) :
  ((∃ db, get_irr_output root g = Ok db) ↔ complete_from g root)
  ∧ (∀ db, get_irr_output root g = Ok db →
       ∀ k, is_Some (db !! k) ↔ k = root ∨ (reaches g root k ∧ has_hyphen k = true))
  ∧ (∀ db, get_origin_asns_from_members root g = Ok db → get_irr_output root g = Ok db).
Proof.
  split; [split|split].
  - intros [db Hrun]. unfold get_irr_output in Hrun.
    destruct (get_origin_asns _ _ _ _ _ _) as [[[[rp c] db1] rec1]| |] eqn:Hcall;
      simpl in Hrun; [|done..].
    by destruct (top_call _ _ _ _ _ _ _ Hcall) as (_ & _ & _ & Hcompl).
  - intros Hcompl. destruct (top_call_returns g root Hcompl) as (c & db & Hcall).
    exists db. unfold get_irr_output. rewrite Hcall. simpl.
    by rewrite !bool_decide_eq_true_2.
  - intros db Hrun. unfold get_irr_output in Hrun.
    destruct (get_origin_asns _ _ _ _ _ _) as [[[[rp c] db1] rec1]| |] eqn:Hcall;
      simpl in Hrun; [|done..].
    destruct (top_call _ _ _ _ _ _ _ Hcall) as (-> & -> & Hdom & _).
    rewrite !bool_decide_eq_true_2 in Hrun by done. simpl in Hrun. by simplify_eq.
  - intros db. unfold get_origin_asns_from_members, get_irr_output.
    destruct (get_origin_asns _ _ _ _ _ _) as [[[[rp c] db1] rec1]| |] eqn:Hcall;
      simpl; [|done..].
    destruct (top_call _ _ _ _ _ _ _ Hcall) as (-> & -> & _).
    rewrite !bool_decide_eq_true_2 by done. simpl.
    case_bool_decide; simpl; [|done]. done.
Qed.

Lemma reaches_trans g a b c :
  reaches g a b → has_hyphen b = true → reaches g b c → reaches g a c.
Proof.
  induction 1 as [s m Hm|s m x Hm Hh Hmx IH]; intros Hb Hbc.
  - by eapply reaches_step.
  - eapply reaches_step; [done|done|]. by apply IH.
Qed.

Lemma setdefault_add_inv k x (rec : graph) k' X t :
  setdefault_add k x rec !! k' = Some X → t ∈ X →
  (k' = k ∧ t = x) ∨ (∃ X', rec !! k' = Some X' ∧ t ∈ X').
Proof.
  unfold setdefault_add. destruct (decide (k = k')) as [->|Hne].
  - rewrite lookup_insert_eq. intros [= <-] [Ht|Ht%elem_of_singleton]%elem_of_union; [|by left].
    right. destruct (rec !! k') as [X'|]; simpl in Ht; [eauto|set_solver].
  - rewrite lookup_insert_ne by done. eauto.
Qed.

Lemma foldl_setdefault_add_inv k l (rec : graph) k' X t :
  foldl (λ r child, setdefault_add k child r) rec l !! k' = Some X → t ∈ X →
  (k' = k ∧ t ∈ l) ∨ (∃ X', rec !! k' = Some X' ∧ t ∈ X').
Proof.
  revert rec. induction l as [|x l IH]; intros rec HX Ht; simpl in *; [eauto|].
  destruct (IH _ HX Ht) as [[-> Hl]|(X' & HX' & Ht')].
  - left. split; [done|by right].
  - destruct (setdefault_add_inv _ _ _ _ _ _ HX' Ht') as [[-> ->]|?]; [|by right].
    left. split; [done|left].
Qed.

(** Where an entry of the table comes from after [defer_under]. *)
Lemma defer_under_inv `{IterOrder} rp s (rec : graph) k X t :
  defer_under rp s rec !! k = Some X → t ∈ X →
  (k = rp ∧ (t = s ∨ ∃ Y, rec !! s = Some Y ∧ t ∈ Y))
  ∨ (k ≠ s ∧ ∃ X', rec !! k = Some X' ∧ t ∈ X').
Proof.
  unfold defer_under.
  destruct (setdefault_add rp s rec !! s) as [children|] eqn:Hc.
  - intros HX Ht. destruct (decide (k = s)) as [->|Hks].
    { by rewrite lookup_delete_eq in HX. }
    rewrite lookup_delete_ne in HX by done.
    destruct (foldl_setdefault_add_inv _ _ _ _ _ _ HX Ht) as [[-> Hl]|(X' & HX' & Ht')].
    + left. split; [done|]. rewrite set_iter_perm, elem_of_elements in Hl.
      destruct (setdefault_add_inv _ _ _ _ _ _ Hc Hl) as [[_ ->]|?]; auto.
    + destruct (setdefault_add_inv _ _ _ _ _ _ HX' Ht') as [[-> ->]|?]; auto.
  - intros HX Ht.
    destruct (setdefault_add_inv _ _ _ _ _ _ HX Ht) as [[-> ->]|(X' & HX' & Ht')]; [auto|].
    right. split; [|eauto]. intros ->.
    destruct (setdefault_add_keeps rp s rec s t) as (? & ? & _); [eauto|congruence].
Qed.

Lemma foldl_insert_inv (v : gset string) l (db : closures) t c :
  foldl (λ d child, <[child := v]> d) db l !! t = Some c →
  (t ∈ l ∧ c = v) ∨ db !! t = Some c.
Proof.
  revert db. induction l as [|x l IH]; intros db Hc; simpl in *; [auto|].
  destruct (IH _ Hc) as [[Hl ->]|Hx].
  - left. split; [by right|done].
  - destruct (decide (x = t)) as [->|Hne].
    + rewrite lookup_insert_eq in Hx. simplify_eq. left. split; [left|done].
    + rewrite lookup_insert_ne in Hx by done. auto.
Qed.

(** Where a closure comes from after [finalize_closure]. *)
Lemma finalize_closure_inv `{IterOrder} s nr (db : closures) (rec : graph) db' rec' :
  finalize_closure s nr db rec = (db', rec') →
  (∀ t c, db' !! t = Some c →
     (c = nr ∧ (t = s ∨ ∃ Y, rec !! s = Some Y ∧ t ∈ Y)) ∨ db !! t = Some c)
  ∧ (∀ k X, rec' !! k = Some X → k ≠ s ∧ rec !! k = Some X).
Proof.
  unfold finalize_closure. destruct (rec !! s) as [children|] eqn:Hc; intros [= <- <-].
  - split.
    + intros t c Ht. destruct (foldl_insert_inv _ _ _ _ _ Ht) as [[Hl ->]|Hx].
      * left. split; [done|]. right. exists children. split; [done|].
        by rewrite set_iter_perm, elem_of_elements in Hl.
      * destruct (decide (s = t)) as [->|Hne].
        -- rewrite lookup_insert_eq in Hx. simplify_eq. auto.
        -- rewrite lookup_insert_ne in Hx by done. auto.
    + intros k X HX. destruct (decide (k = s)) as [->|Hne].
      * by rewrite lookup_delete_eq in HX.
      * by rewrite lookup_delete_ne in HX.
  - split.
    + intros t c Hx. destruct (decide (s = t)) as [->|Hne].
      * rewrite lookup_insert_eq in Hx. simplify_eq. auto.
      * rewrite lookup_insert_ne in Hx by done. auto.
    + intros k X HX. split; [|done]. intros ->. congruence.
Qed.

(** The walk only collects what is reached: the AUT-NUMs a call returns are
    reached from its AS-SET, so is the recursive parent, every stored closure
    holds AUT-NUMs its AS-SET reaches, and what is deferred reaches the key it
    is deferred under. *)
Lemma resolver_sound `{IterOrder} (g : graph) fuel :
  ∀ s (db : closures) parents (rec : graph) rp c db' rec',
  get_origin_asns fuel s db g parents rec = Ok (rp, c, db', rec') →
  has_hyphen s = true →
  (∀ p, p ∈ parents → has_hyphen p = true) →
  (∀ k, is_Some (rec !! k) → k ∈ parents) →
  db_sound g db → rec_sound g rec →
  (∀ a, a ∈ c → has_hyphen a = false ∧ reaches g s a)
  ∧ (∀ p, rp = Some p → reaches g s p)
  ∧ db_sound g db' ∧ rec_sound g rec'.
Proof.
  induction fuel as [|fuel IH];
    intros s db parents rec rp c db' rec' Hrun Hhs Hhp Hkeys Hdb Hrec; [done|].
  pose proof (resolver_parents _ _ _ _ _ _ _ _ _ _ Hrun Hkeys) as [Hrp _].
  rewrite get_origin_asns_S in Hrun. unfold get_origin_asns_body in Hrun.
  destruct (db !! s) as [c0|] eqn:Hdb0.
  { simplify_eq. split; [|done]. intros a Ha. by eapply Hdb. }
  destruct (g !! s) as [members|] eqn:Hmem; [|done].
  destruct (for_each _ _ _) as [[[[rp1 nr] db1] rec1]| |] eqn:Hloop; simplify_eq/=.
  assert (Hinv :
    (∀ k, is_Some (rec1 !! k) → k ∈ parents ++ [s])
    ∧ (∀ a, a ∈ nr → has_hyphen a = false ∧ reaches g s a)
    ∧ (∀ p, rp1 = Some p → reaches g s p)
    ∧ db_sound g db1 ∧ rec_sound g rec1).
  { refine (for_each_inv_ok
      (λ st : loop_state,
         (∀ k, is_Some (st.2 !! k) → k ∈ parents ++ [s])
         ∧ (∀ a, a ∈ st.1.1.2 → has_hyphen a = false ∧ reaches g s a)
         ∧ (∀ p, st.1.1.1 = Some p → reaches g s p)
         ∧ db_sound g st.1.2 ∧ rec_sound g st.2)
      _ _ _ _ Hloop _ _); simpl.
    { split; [|split; [|done]].
      - intros k Hk. apply elem_of_app. left. auto.
      - intros a Ha. set_solver. }
    intros m [[[rpi nri] dbi] reci] st' Hm (Hreci & Hnri & Hrpi & Hdbi & Hrci) Hstep.
    simpl in *. rewrite set_iter_perm, elem_of_elements in Hm.
    assert (Hmem_m : member_of g s m) by (by exists members).
    unfold member_step in Hstep.
    case_bool_decide as Hms; [by simplify_eq|].
    case_bool_decide as Hmp.
    { destruct (pick_highest _ _ _) as [r| |] eqn:Hpick; simplify_eq/=.
      split; [done|]. split; [done|]. split; [|done]. intros p ->.
      apply pick_highest_cases in Hpick as [[= <-]|[<- _]]; [|auto].
      by apply reaches_member. }
    destruct (has_hyphen m) eqn:Hh; simpl in Hstep.
    2:{ simplify_eq/=. split; [done|]. split; [|done].
        intros a [Ha|Ha%elem_of_singleton]%elem_of_union; [auto|]. subst.
        split; [done|by apply reaches_member]. }
    destruct (get_origin_asns fuel m dbi g _ reci) as [[[[mrp mo] db2] rec2]| |] eqn:Hcall;
      simplify_eq/=.
    destruct (resolver_parents _ _ _ _ _ _ _ _ _ _ Hcall Hreci) as [_ Hrec2].
    destruct (IH _ _ _ _ _ _ _ _ Hcall Hh) as (Hmo & Hmrp & Hdb2 & Hrc2); try done.
    { intros p [?|Hp%list_elem_of_singleton]%elem_of_app; [auto|by subst]. }
    assert (Hnr2 : ∀ a, a ∈ nri ∪ mo → has_hyphen a = false ∧ reaches g s a).
    { intros a [Ha|Ha]%elem_of_union; [auto|].
      destruct (Hmo a Ha). split; [done|]. by eapply reaches_step. }
    destruct mrp as [mrp|]; [|by simplify_eq].
    case_bool_decide as Hmrps; [by simplify_eq|].
    case_bool_decide as Hmrpp; simpl in Hstep; [|done].
    destruct (pick_highest _ _ _) as [r| |] eqn:Hpick; simplify_eq/=.
    split; [done|]. split; [done|]. split; [|done]. intros p ->.
    apply pick_highest_cases in Hpick as [[= <-]|[<- _]]; [|auto].
    eapply reaches_step; [done|done|]. by apply Hmrp. }
  destruct Hinv as (Hrec1 & Hnr & Hrp1 & Hdb1 & Hrc1).
  destruct (truthy rp1) eqn:Htr.
  - simplify_eq. destruct rp as [p|]; [|done]. simpl.
    destruct (Hrp p eq_refl) as [Hpin Hne].
    split; [done|]. split; [done|]. split; [done|].
    intros k X t HX Ht.
    destruct (defer_under_inv _ _ _ _ _ _ HX Ht) as [[-> Hcase]|[_ (X' & HX' & Ht')]].
    + split; [by apply Hhp|]. destruct Hcase as [->|(Y & HY & HtY)]; [by apply Hrp1|].
      destruct (Hrc1 _ _ _ HY HtY) as [_ Hts].
      eapply reaches_trans; [done|done|]. by apply Hrp1.
    + by eapply Hrc1.
  - destruct (finalize_closure s nr db1 rec1) as [db2 rec2] eqn:Hfin. simplify_eq.
    destruct (finalize_closure_inv _ _ _ _ _ _ Hfin) as [Hdbi Hreci].
    split; [done|]. split; [done|]. split.
    + intros t c' a Hc Hin.
      destruct (Hdbi _ _ Hc) as [[-> Hcase]|Hold]; [|by eapply Hdb1].
      destruct (Hnr _ Hin) as [Hha Hsa]. split; [done|].
      destruct Hcase as [->|(Y & HY & HtY)]; [done|].
      destruct (Hrc1 _ _ _ HY HtY) as [_ Hts].
      by eapply reaches_trans.
    + intros k X t HX Ht. destruct (Hreci _ _ HX) as [_ HX'']. by eapply Hrc1.
Qed.

Lemma index_Some_elem parents x i : index parents x = Some i → x ∈ parents.
Proof.
  revert i. induction parents as [|p ps IH]; intros i; simpl; [done|].
  case_decide as Hp; [intros _; subst; left|].
  destruct (index ps x) as [j|] eqn:Hj; [|done]. intros _. right. by eapply IH.
Qed.

Lemma index_app_l parents s x :
  x ∈ parents → index (parents ++ [s]) x = index parents x.
Proof.
  induction parents as [|p ps IH]; intros Hx; [by apply elem_of_nil in Hx|].
  simpl. case_decide; [done|].
  apply elem_of_cons in Hx as [->|Hx]; [done|]. by rewrite IH.
Qed.

Lemma index_app_last parents s :
  s ∉ parents → index (parents ++ [s]) s = Some (length parents).
Proof.
  induction parents as [|p ps IH]; intros Hs; simpl.
  - by rewrite decide_True.
  - rewrite decide_False by (intros ->; apply Hs; left).
    rewrite IH; [done|]. intros Hin. apply Hs. by right.
Qed.

Lemma index_lt_length parents x i : index parents x = Some i → (i < length parents)%nat.
Proof.
  revert i. induction parents as [|p ps IH]; intros i; simpl; [done|].
  case_decide; [intros [= <-]; lia|].
  destruct (index ps x) as [j|] eqn:Hj; [|done]. intros [= <-].
  specialize (IH j eq_refl). lia.
Qed.

Lemma at_or_above_refl parents x : x ∈ parents → at_or_above parents x x.
Proof.
  intros Hx. destruct (index_is_Some parents x Hx) as [i Hi]. by exists i, i.
Qed.

Lemma at_or_above_trans parents a b c :
  at_or_above parents a b → at_or_above parents b c → at_or_above parents a c.
Proof.
  intros (i & j & Hi & Hj & Hij) (j' & k & Hj' & Hk & Hjk).
  exists i, k. split; [done|]. split; [done|]. simplify_eq. lia.
Qed.

Lemma at_or_above_elem parents a b : at_or_above parents a b → a ∈ parents ∧ b ∈ parents.
Proof. intros (i & j & Hi & Hj & _). split; by eapply index_Some_elem. Qed.

(** In [parents ++ [s]] the positions of the parents are the ones they have
    in [parents], and [s] is the last. *)
Lemma at_or_above_app parents s a b :
  s ∉ parents → at_or_above (parents ++ [s]) a b → a ∈ parents →
  (b ∈ parents ∧ at_or_above parents a b) ∨ b = s.
Proof.
  intros Hs (i & j & Hi & Hj & Hij) Ha.
  pose proof (index_Some_elem _ _ _ Hj) as [Hb|Hb%list_elem_of_singleton]%elem_of_app;
    [|by right].
  left. split; [done|]. rewrite index_app_l in Hi, Hj by done. by exists i, j.
Qed.

Lemma at_or_above_last parents s b :
  s ∉ parents → at_or_above (parents ++ [s]) s b → b = s.
Proof.
  intros Hs (i & j & Hi & Hj & Hij).
  rewrite index_app_last in Hi by done. simplify_eq.
  pose proof (index_Some_elem _ _ _ Hj) as [Hb|Hb%list_elem_of_singleton]%elem_of_app;
    [|done].
  rewrite index_app_l in Hj by done. apply index_lt_length in Hj. lia.
Qed.

(** What [pick_highest] returns is at or above the candidate and the parent
    recorded before. *)
Lemma pick_highest_above parents rp m r :
  pick_highest parents rp m = Ok r → m ∈ parents →
  ∃ q, r = Some q ∧ at_or_above parents q m
       ∧ ∀ p, rp = Some p → at_or_above parents q p.
Proof.
  unfold pick_highest. intros Hpick Hm. destruct rp as [p|].
  - destruct (index parents m) as [i|] eqn:Hi; [|done].
    destruct (index parents p) as [j|] eqn:Hj; [|done].
    simplify_eq. case_decide.
    + exists m. split; [done|]. split; [by exists i, i|].
      intros ? [= <-]. exists i, j. split; [done|]. split; [done|]. lia.
    + exists p. split; [done|]. split.
      * exists j, i. split; [done|]. split; [done|]. lia.
      * intros ? [= <-]. by exists j, j.
  - simplify_eq. exists m. split; [done|]. split; [by apply at_or_above_refl|done].
Qed.

Lemma under_mono parents rp rp' x :
  (∀ p, rp = Some p → ∃ q, rp' = Some q ∧ at_or_above parents q p) →
  under parents rp x → under parents rp' x.
Proof.
  intros Hm (p & -> & Hp). destruct (Hm p eq_refl) as (q & -> & Hq).
  exists q. split; [done|]. by eapply at_or_above_trans.
Qed.

Lemma foldl_insert_in (v : gset string) l (db : closures) t :
  t ∈ l → foldl (λ d child, <[child := v]> d) db l !! t = Some v.
Proof.
  intros Ht. destruct (foldl_insert_adds v l db t Ht) as [c Hc].
  destruct (foldl_insert_inv _ _ _ _ _ Hc) as [[_ ->]|Hdb]; [done|].
  revert db Hc Hdb. induction l as [|x l IH]; intros db Hc Hdb; [by apply elem_of_nil in Ht|].
  simpl in *. apply elem_of_cons in Ht as [->|Ht].
  - destruct (foldl_insert_inv _ _ _ _ _ Hc) as [[_ ->]|Hx]; [done|].
    rewrite lookup_insert_eq in Hx. by simplify_eq.
  - destruct (foldl_insert_inv _ _ _ _ _ Hc) as [[_ ->]|Hx]; [done|].
    destruct (decide (x = t)) as [->|Hne].
    + rewrite lookup_insert_eq in Hx. by simplify_eq.
    + rewrite lookup_insert_ne in Hx by done. eapply IH; [done|exact Hc|].
      by rewrite lookup_insert_ne.
Qed.

Lemma foldl_insert_notin (v : gset string) l (db : closures) t :
  t ∉ l → foldl (λ d child, <[child := v]> d) db l !! t = db !! t.
Proof.
  revert db. induction l as [|x l IH]; intros db Ht; simpl; [done|].
  rewrite IH by (intros Hin; apply Ht; by right).
  rewrite lookup_insert_ne; [done|]. intros ->. apply Ht. left.
Qed.

(** The closures after [finalize_closure]. *)
Lemma finalize_closure_lookup `{IterOrder} s nr (db : closures) (rec : graph) db' rec' :
  finalize_closure s nr db rec = (db', rec') →
  rec' = delete s rec
  ∧ (∀ t, t = s ∨ (∃ Y, rec !! s = Some Y ∧ t ∈ Y) → db' !! t = Some nr)
  ∧ (∀ t, t ≠ s → (∀ Y, rec !! s = Some Y → t ∉ Y) → db' !! t = db !! t).
Proof.
  unfold finalize_closure. destruct (rec !! s) as [children|] eqn:Hc; intros [= <- <-].
  - split; [done|]. split.
    + intros t Ht.
      destruct (decide (t ∈ set_iter children)) as [Hin|Hnin].
      * by apply foldl_insert_in.
      * rewrite foldl_insert_notin by done.
        destruct Ht as [->|(Y & [= <-] & HtY)]; [by rewrite lookup_insert_eq|].
        exfalso. apply Hnin. by rewrite set_iter_perm, elem_of_elements.
    + intros t Hts HtY. rewrite foldl_insert_notin.
      * by rewrite lookup_insert_ne.
      * rewrite set_iter_perm, elem_of_elements. by apply HtY.
  - split; [by rewrite delete_id|]. split.
    + intros t [->|(Y & ? & _)]; [by rewrite lookup_insert_eq|done].
    + intros t Hts _. by rewrite lookup_insert_ne.
Qed.

(** A closed map of closures holds what its AS-SETs reach. *)
Lemma closures_local_reaches (g : graph) (db : closures) x y :
  closures_local g db → reaches g x y → is_Some (db !! x) →
  has_hyphen y = true → is_Some (db !! y).
Proof.
  intros HL. induction 1 as [s m Hm|s m z Hm Hh Hmz IH]; intros [c Hc] Hy.
  - destruct (HL s c m Hc Hm) as [_ Hhyp]. destruct (Hhyp Hy) as (c' & -> & _). eauto.
  - destruct (HL s c m Hc Hm) as [_ Hhyp]. destruct (Hhyp Hh) as (c' & Hc' & _).
    apply IH; eauto.
Qed.

Lemma closures_local_complete (g : graph) (db : closures) x c a :
  closures_local g db → reaches g x a → db !! x = Some c →
  has_hyphen a = false → a ∈ c.
Proof.
  intros HL Hr. revert c. induction Hr as [s m Hm|s m z Hm Hh Hmz IH]; intros c Hc Ha.
  - by apply (HL s c m Hc Hm).
  - destruct (HL s c m Hc Hm) as [_ Hhyp]. destruct (Hhyp Hh) as (c' & Hc' & Hsub).
    apply Hsub. by apply IH.
Qed.

(** What waits has no closure: it reaches an AS-SET that is being walked. *)
Lemma walk_inv_waits (g : graph) parents (db : closures) (rec : graph) t :
  walk_inv g parents db rec → waits rec t → db !! t = None.
Proof.
  intros (Hkeys & Hrec & _ & Hpar & HL) (k & X & HX & Ht).
  destruct (Hrec k X t HX Ht) as [Hhk Hreach].
  apply eq_None_not_Some. intros Hs.
  assert (is_Some (db !! k)) as [c Hc] by (by eapply closures_local_reaches).
  rewrite Hpar in Hc; [done|]. apply Hkeys. rewrite HX. eauto.
Qed.

Lemma deferred_in_mono (g : graph) W (B B' : string → Prop) (c c' : gset string)
    (db : closures) (rec rec' : graph) N :
  deferred_in g W B c db rec rec' N →
  (∀ x, B x → B' x) → c ⊆ c' →
  deferred_in g W B' c' db rec rec' N.
Proof.
  intros (H1 & H2 & H3 & H4 & H5) HB Hc. split; [done|]. split; [|split; [|split]].
  - intros t Ht. destruct (H2 t Ht) as (k & X & ? & ? & ?). eauto 10.
  - intros t m Ht Hm Hh. destruct (H3 t m Ht Hm Hh) as [?|[?|?]]; auto.
  - intros t m Ht Hm. destruct (H4 t m Ht Hm) as [Ha Hb]. split.
    + intros Hh. apply Hc. auto.
    + intros Hh c0 Hc0. etrans; [by eapply Hb|done].
  - intros k X t HX Ht. destruct (H5 k X t HX Ht) as [?|[? ?]]; auto.
Qed.

Lemma members_seen_mono (B B' : string → Prop) (nr nr' : gset string)
    (db db' : closures) (N N' : gset string) done :
  members_seen B nr db N done →
  (∀ x, B x → B' x) → nr ⊆ nr' →
  (∀ t c0, db !! t = Some c0 → db' !! t = Some c0) → N ⊆ N' →
  members_seen B' nr' db' N' done.
Proof.
  intros Hs HB Hnr Hdb HN m Hm. destruct (Hs m Hm) as [Ha Hb]. split.
  - intros Hh. apply Hnr. auto.
  - intros Hh. destruct (Hb Hh) as [?|[(c' & Hc' & Hsub)|?]]; [auto| |auto].
    right; left. exists c'. split; [auto|]. by etrans.
Qed.

(** The AS-SETs deferred before a nested call and the ones the nested call
    defers. *)
Lemma deferred_in_union (g : graph) W (B Bm B' : string → Prop)
    (c1 c2 : gset string) (db1 db2 : closures) (rec rec1 rec2 : graph) N1 N2 :
  deferred_in g W B c1 db1 rec rec1 N1 →
  deferred_in g W Bm c2 db2 rec1 rec2 N2 →
  walk_inv g W db2 rec2 →
  (∀ x, B x → x ∈ W) →
  (∀ x, B x → B' x) → (∀ x, Bm x → B' x) →
  (∀ t c0, db1 !! t = Some c0 → db2 !! t = Some c0) →
  (∀ k X t, rec1 !! k = Some X → t ∈ X → ∃ X', rec2 !! k = Some X' ∧ t ∈ X') →
  deferred_in g W B' (c1 ∪ c2) db2 rec rec2 (N1 ∪ N2).
Proof.
  intros (A1 & A2 & A3 & A4 & A5) (M1 & M2 & M3 & M4 & M5) Hinv HW HB HBm Hdb Hrec.
  assert (Hwait1 : ∀ t, t ∈ N1 → waits rec2 t).
  { intros t Ht. destruct (A2 t Ht) as (k & X & HX & HtX & _).
    destruct (Hrec k X t HX HtX) as (X' & ? & ?). by exists k, X'. }
  split; [|split; [|split; [|split]]].
  - intros t [Ht|Ht]%elem_of_union; auto.
  - intros t [Ht|Ht]%elem_of_union.
    + destruct (A2 t Ht) as (k & X & HX & HtX & Hb).
      destruct (Hrec k X t HX HtX) as (X' & ? & ?). eauto 10.
    + destruct (M2 t Ht) as (k & X & ? & ? & ?). eauto 10.
  - intros t m [Ht|Ht]%elem_of_union Hm Hh.
    + destruct (A3 t m Ht Hm Hh) as [[c0 Hc0]|[?|?]].
      * left. erewrite Hdb; eauto.
      * right; left. set_solver.
      * auto.
    + destruct (M3 t m Ht Hm Hh) as [?|[?|?]]; [auto| |auto].
      right; left. set_solver.
  - intros t m [Ht|Ht]%elem_of_union Hm.
    + destruct (A4 t m Ht Hm) as [Ha Hb]. split; [set_solver|].
      intros Hh c' Hc'.
      assert (db1 !! m = Some c') as Hold.
      { destruct (A3 t m Ht Hm Hh) as [[c0 Hc0]|[Hin|Hbm]].
        - pose proof (Hdb _ _ Hc0). congruence.
        - pose proof (walk_inv_waits _ _ _ _ _ Hinv (Hwait1 m Hin)). congruence.
        - destruct Hinv as (_ & _ & _ & Hpar & _). rewrite Hpar in Hc'; [done|auto]. }
      specialize (Hb Hh c' Hold). set_solver.
    + destruct (M4 t m Ht Hm) as [Ha Hb]. split; [set_solver|].
      intros Hh c' Hc'. specialize (Hb Hh c' Hc'). set_solver.
  - intros k X t HX Ht. destruct (M5 k X t HX Ht) as [(X0 & HX0 & Ht0)|[? ?]].
    + destruct (A5 k X0 t HX0 Ht0) as [?|[? ?]]; [auto|].
      right. split; [set_solver|auto].
    + right. split; [set_solver|auto].
Qed.

Lemma members_seen_snoc (B : string → Prop) (nr : gset string) (db : closures)
    (N : gset string) done m :
  members_seen B nr db N done →
  (has_hyphen m = false → m ∈ nr) →
  (has_hyphen m = true → B m ∨ (∃ c', db !! m = Some c' ∧ c' ⊆ nr) ∨ m ∈ N) →
  members_seen B nr db N (done ++ [m]).
Proof.
  intros Hs Ha Hb m' [Hm|Hm%list_elem_of_singleton]%elem_of_app; [by apply Hs|].
  by subst.
Qed.

Lemma truthy_parent (parents : list string) rp :
  (∀ p, p ∈ parents → has_hyphen p = true) →
  (∀ p, rp = Some p → p ∈ parents) →
  truthy rp = false → rp = None.
Proof.
  intros Hh Hrp Htr. destruct rp as [p|]; [|done].
  specialize (Hh p (Hrp p eq_refl)). by destruct p.
Qed.

Lemma deferred_in_empty (g : graph) W (B : string → Prop) c (db : closures)
    (rec rec' : graph) :
  (∀ k X t, rec' !! k = Some X → t ∈ X → ∃ X0, rec !! k = Some X0 ∧ t ∈ X0) →
  deferred_in g W B c db rec rec' ∅.
Proof.
  intros Hold. split; [by intros t ?%elem_of_empty|]. split; [by intros t ?%elem_of_empty|].
  split; [by intros t m ?%elem_of_empty|]. split; [by intros t m ?%elem_of_empty|].
  intros k X t HX Ht. left. by eapply Hold.
Qed.

(** The walk keeps [walk_inv]: closures are never replaced, nothing that
    waits is dropped, and what a call defers is described by [deferred_in]. *)
Lemma resolver_walk `{IterOrder} (g : graph) fuel :
  ∀ s (db : closures) parents (rec : graph) rp c db' rec',
  get_origin_asns fuel s db g parents rec = Ok (rp, c, db', rec') →
  has_hyphen s = true →
  (∀ p, p ∈ parents → has_hyphen p = true) →
  s ∉ parents →
  walk_inv g parents db rec →
  walk_inv g parents db' rec'
  ∧ (∀ t c0, db !! t = Some c0 → db' !! t = Some c0)
  ∧ (∀ k X t, rec !! k = Some X → t ∈ X → ∃ X', rec' !! k = Some X' ∧ t ∈ X')
  ∧ (∀ c', db' !! s = Some c' → c' ⊆ c)
  ∧ ∃ N, (is_Some (db' !! s) ∨ s ∈ N)
         ∧ deferred_in g parents (under parents rp) c db' rec rec' N.
Proof.
  induction fuel as [|fuel IH];
    intros s db parents rec rp c db' rec' Hrun Hhs Hhp Hsp Hinv; [done|].
  pose proof Hinv as (Hkeys & Hrsound & Hdsound & Hpar & HL).
  pose proof (resolver_parents _ _ _ _ _ _ _ _ _ _ Hrun Hkeys) as [Hrp Hkeys'].
  destruct (resolver_sound _ _ _ _ _ _ _ _ _ _ Hrun Hhs Hhp Hkeys Hdsound Hrsound)
    as (_ & _ & Hdsound' & Hrsound').
  rewrite get_origin_asns_S in Hrun. unfold get_origin_asns_body in Hrun.
  destruct (db !! s) as [c0|] eqn:Hdb0.
  { simplify_eq. split; [done|]. split; [done|]. split; [eauto|]. split.
    { intros c' Hc'. rewrite Hdb0 in Hc'. by simplify_eq. }
    exists ∅. split; [left; rewrite Hdb0; eauto|].
    apply deferred_in_empty. eauto. }
  destruct (g !! s) as [members|] eqn:Hmem; [|done].
  destruct (for_each _ _ _) as [[[[rp1 nr] db1] rec1]| |] eqn:Hloop; simplify_eq/=.
  assert (Hsnot : ∀ k X, rec !! k = Some X → k ≠ s).
  { intros k X HX ->. apply Hsp, Hkeys. rewrite HX. eauto. }
  assert (Hloopinv :
    walk_inv g (parents ++ [s]) db1 rec1
    ∧ (∀ p, rp1 = Some p → p ∈ parents)
    ∧ (∀ t c0, db !! t = Some c0 → db1 !! t = Some c0)
    ∧ (∀ k X t, rec !! k = Some X → t ∈ X → ∃ X', rec1 !! k = Some X' ∧ t ∈ X')
    ∧ ∃ N, deferred_in g (parents ++ [s]) (λ x, x = s ∨ under parents rp1 x)
             nr db1 rec rec1 N
           ∧ members_seen (λ x, x = s ∨ under parents rp1 x) nr db1 N
               (set_iter members)).
  { refine (for_each_inv_done
      (λ done (st : loop_state),
         walk_inv g (parents ++ [s]) st.1.2 st.2
         ∧ (∀ p, st.1.1.1 = Some p → p ∈ parents)
         ∧ (∀ t c0, db !! t = Some c0 → st.1.2 !! t = Some c0)
         ∧ (∀ k X t, rec !! k = Some X → t ∈ X → ∃ X', st.2 !! k = Some X' ∧ t ∈ X')
         ∧ ∃ N, deferred_in g (parents ++ [s]) (λ x, x = s ∨ under parents st.1.1.1 x)
                  st.1.1.2 st.1.2 rec st.2 N
                ∧ members_seen (λ x, x = s ∨ under parents st.1.1.1 x)
                    st.1.1.2 st.1.2 N done)
      _ _ _ _ Hloop _ _); simpl.
    { split.
      { split; [|split; [done|split; [done|split; [|done]]]].
        - intros k Hk. apply elem_of_app. left. auto.
        - intros p [Hp|Hp%list_elem_of_singleton]%elem_of_app; [auto|by subst]. }
      split; [done|]. split; [done|]. split; [eauto|].
      exists ∅. split; [apply deferred_in_empty; eauto|].
      intros m Hm. by apply elem_of_nil in Hm. }
    intros done m [[[rpi nri] dbi] reci] st' Hm
      (Hinvi & Hrpi & Hdbi & Hreci & Ni & HNi & Hseen) Hstep.
    simpl in *. rewrite set_iter_perm, elem_of_elements in Hm.
    assert (Hmem_m : member_of g s m) by (by exists members).
    assert (HBW : ∀ x, x = s ∨ under parents rpi x → x ∈ parents ++ [s]).
    { intros x [->|(p & _ & Hp)]; apply elem_of_app.
      - right. left.
      - left. by apply at_or_above_elem in Hp as [_ ?]. }
    unfold member_step in Hstep.
    case_bool_decide as Hms.
    { simplify_eq/=. split; [done|]. split; [done|]. split; [done|]. split; [done|].
      exists Ni. split; [done|]. apply members_seen_snoc; [done| |].
      - intros Hf. congruence.
      - intros _. left. by left. }
    case_bool_decide as Hmp.
    { destruct (pick_highest _ _ _) as [r| |] eqn:Hpick; simplify_eq/=.
      destruct (pick_highest_above _ _ _ _ Hpick Hmp) as (q & -> & Hqm & Hqp).
      assert (HB : ∀ x, x = s ∨ under parents rpi x → x = s ∨ under parents (Some q) x).
      { intros x [?|Hx]; [by left|]. right. eapply under_mono; [|done].
        intros p Hp. exists q. auto. }
      split; [done|]. split.
      { intros p [= <-]. by apply at_or_above_elem in Hqm as [? _]. }
      split; [done|]. split; [done|].
      exists Ni. split; [by eapply deferred_in_mono|].
      apply members_seen_snoc.
      - by apply (members_seen_mono _ _ nri nri dbi dbi Ni Ni done Hseen HB).
      - intros Hf. rewrite (Hhp m Hmp) in Hf. done.
      - intros _. left. right. by exists q. }
    destruct (has_hyphen m) eqn:Hh; simpl in Hstep.
    2:{ simplify_eq/=. split; [done|]. split; [done|]. split; [done|]. split; [done|].
        exists Ni. split.
        - eapply deferred_in_mono; [done|done|apply union_subseteq_l].
        - apply members_seen_snoc.
          + apply (members_seen_mono _ _ nri (nri ∪ {[m]}) dbi dbi Ni Ni done Hseen);
              [done|apply union_subseteq_l|done|done].
          + intros _. apply elem_of_union_r. by apply elem_of_singleton.
          + intros Hf. congruence. }
    destruct (get_origin_asns fuel m dbi g _ reci) as [[[[mrp mo] db2] rec2]| |] eqn:Hcall;
      simplify_eq/=.
    assert (Hmnot : m ∉ parents ++ [s]).
    { intros [?|?%list_elem_of_singleton]%elem_of_app; done. }
    destruct (IH _ _ _ _ _ _ _ _ Hcall Hh) as (Hinv2 & Hdb2 & Hrec2 & HcM & Nm & HNm0 & HNm);
      [|done|done|].
    { intros p [?|Hp%list_elem_of_singleton]%elem_of_app; [auto|by subst]. }
    destruct Hinvi as (Hkeysi & _).
    destruct (resolver_parents _ _ _ _ _ _ _ _ _ _ Hcall Hkeysi) as [Hmrp _].
    assert (Hgen : ∀ rp',
      (∀ p, rp' = Some p → p ∈ parents) →
      (∀ x, x = s ∨ under parents rpi x → x = s ∨ under parents rp' x) →
      (∀ x, under (parents ++ [s]) mrp x → x = s ∨ under parents rp' x) →
      walk_inv g (parents ++ [s]) db2 rec2
      ∧ (∀ p, rp' = Some p → p ∈ parents)
      ∧ (∀ t c0, db !! t = Some c0 → db2 !! t = Some c0)
      ∧ (∀ k X t, rec !! k = Some X → t ∈ X → ∃ X', rec2 !! k = Some X' ∧ t ∈ X')
      ∧ ∃ N, deferred_in g (parents ++ [s]) (λ x, x = s ∨ under parents rp' x)
               (nri ∪ mo) db2 rec rec2 N
             ∧ members_seen (λ x, x = s ∨ under parents rp' x) (nri ∪ mo) db2 N
                 (done ++ [m])).
    { intros rp' Hrp' HB HBm. split; [done|]. split; [done|]. split; [auto|]. split.
      { intros k X t HX Ht. destruct (Hreci k X t HX Ht) as (X1 & HX1 & Ht1). eauto. }
      exists (Ni ∪ Nm). split.
      - by apply (deferred_in_union g _ _ _ _ _ _ _ _ _ _ _ _ _ HNi HNm Hinv2 HBW HB HBm
                    Hdb2 Hrec2).
      - apply members_seen_snoc.
        + apply (members_seen_mono _ _ nri (nri ∪ mo) dbi db2 Ni (Ni ∪ Nm) done Hseen HB);
            [apply union_subseteq_l|done|apply union_subseteq_l].
        + intros Hf. congruence.
        + intros _. destruct HNm0 as [[c' Hc']|Hin].
          * right; left. exists c'. split; [done|]. specialize (HcM c' Hc').
            etrans; [done|apply union_subseteq_r].
          * right; right. by apply elem_of_union_r. }
    destruct mrp as [mrp|].
    2:{ simplify_eq. apply Hgen; [done|done|]. by intros x (p & ? & _). }
    case_bool_decide as Hmrps.
    { simplify_eq. apply Hgen; [done|done|]. intros x (p & [= <-] & Hp).
      left. by eapply at_or_above_last. }
    case_bool_decide as Hmrpp; simpl in Hstep; [|done].
    destruct (pick_highest _ _ _) as [r| |] eqn:Hpick; simplify_eq/=.
    destruct (pick_highest_above _ _ _ _ Hpick Hmrpp) as (q & -> & Hqm & Hqp).
    apply Hgen.
    - intros p [= <-]. by apply at_or_above_elem in Hqm as [? _].
    - intros x [?|Hx]; [by left|]. right. eapply under_mono; [|done].
      intros p Hp. exists q. auto.
    - intros x (p & [= <-] & Hp).
      destruct (at_or_above_app _ _ _ _ Hsp Hp Hmrpp) as [[_ Hx]|?]; [|by left].
      right. exists q. split; [done|]. by eapply at_or_above_trans. }
  destruct Hloopinv as (Hinv1 & Hrp1 & Hdb1 & Hrec1 & N1 & HN1 & Hseen).
  pose proof Hinv1 as (Hkeys1 & _ & _ & Hpar1 & HL1).
  pose proof HN1 as (HN1a & HN1b & HN1c & HN1d & HN1e).
  assert (Hs1 : db1 !! s = None).
  { apply Hpar1, elem_of_app. right. left. }
  assert (Hwait1 : ∀ t, t ∈ N1 → db1 !! t = None).
  { intros t Ht. destruct (HN1b t Ht) as (k & X & HX & HtX & _).
    eapply walk_inv_waits; [done|]. by exists k, X. }
  assert (Hall : ∀ m, member_of g s m → m ∈ set_iter members).
  { intros m (ms & Hms & Hm). rewrite Hmem in Hms. simplify_eq.
    by rewrite set_iter_perm, elem_of_elements. }
  destruct (truthy rp1) eqn:Htr.
  - simplify_eq. destruct rp as [p|]; [|done]. simpl.
    destruct (Hrp p eq_refl) as [Hpin Hne].
    destruct (defer_under_waits p s rec1 Hne) as [(Xs & HXs & HsXs) Hkeep].
    assert (Hpp : under parents (Some p) p).
    { exists p. split; [done|]. by apply at_or_above_refl. }
    assert (Hkeep' : ∀ k X t, rec1 !! k = Some X → t ∈ X →
              ∃ k' X', defer_under p s rec1 !! k' = Some X' ∧ t ∈ X'
                       ∧ ((k ≠ s ∧ k' = k) ∨ (k = s ∧ k' = p))).
    { intros k X t HX Ht. destruct (Hkeep k X t HX Ht) as (k' & X' & HX' & Ht' & Hk').
      exists k', X'. split; [done|]. split; [done|].
      destruct Hk' as [->|[-> ->]]; [|by right].
      left. split; [|done]. intros ->.
      assert (is_Some (defer_under p s rec1 !! s)) as Hsome by (rewrite HX'; eauto).
      apply defer_under_keys in Hsome as [?|[? _]]; congruence. }
    split.
    { split; [done|]. split; [done|]. split; [done|]. split; [|done].
      intros q Hq. apply Hpar1, elem_of_app. by left. }
    split; [done|]. split.
    { intros k X t HX Ht. destruct (Hrec1 k X t HX Ht) as (X1 & HX1 & Ht1).
      destruct (Hkeep' k X1 t HX1 Ht1) as (k' & X' & HX' & Ht' & [[_ ->]|[-> _]]); [eauto|].
      by apply Hsnot in HX. }
    split; [intros c' Hc'; congruence|].
    assert (HsN : s ∈ N1 ∪ {[s]}) by (apply elem_of_union_r; by apply elem_of_singleton).
    exists (N1 ∪ {[s]}). split; [by right|].
    split; [|split; [|split; [|split]]].
    + intros t [Ht|Ht%elem_of_singleton]%elem_of_union; [|by subst].
      intros Hin. apply (HN1a t Ht), elem_of_app. by left.
    + intros t [Ht|Ht%elem_of_singleton]%elem_of_union.
      * destruct (HN1b t Ht) as (k & X & HX & HtX & Hb).
        destruct (Hkeep' k X t HX HtX) as (k' & X' & HX' & Ht' & [[Hks ->]|[-> ->]]).
        -- exists k, X'. split; [done|]. split; [done|]. by destruct Hb.
        -- exists p, X'. auto.
      * subst. exists p, Xs. auto.
    + intros t m [Ht|Ht%elem_of_singleton]%elem_of_union Hm Hhm.
      * destruct (HN1c t m Ht Hm Hhm) as [?|[?|[->|?]]]; [auto| | |auto].
        -- right; left. by apply elem_of_union_l.
        -- right; left. done.
      * subst. destruct (Hseen m (Hall m Hm)) as [_ Hb].
        destruct (Hb Hhm) as [[->|?]|[(c' & Hc' & _)|?]].
        -- right; left. done.
        -- auto.
        -- left. rewrite Hc'. eauto.
        -- right; left. by apply elem_of_union_l.
    + intros t m [Ht|Ht%elem_of_singleton]%elem_of_union Hm; [by apply (HN1d t m)|].
      subst. destruct (Hseen m (Hall m Hm)) as [Ha Hb]. split; [done|].
      intros Hhm c' Hc'. destruct (Hb Hhm) as [[->|(q & _ & Hq)]|[(c0 & Hc0 & Hsub)|Hin]].
      * congruence.
      * apply at_or_above_elem in Hq as [_ Hq].
        rewrite Hpar1 in Hc'; [done|]. apply elem_of_app. by left.
      * by simplify_eq.
      * rewrite Hwait1 in Hc'; done.
    + intros k X t HX Ht.
      destruct (defer_under_inv _ _ _ _ _ _ HX Ht) as [[-> Hcase]|[Hks (X' & HX' & Ht')]].
      * destruct Hcase as [->|(Y & HY & HtY)].
        -- right. split; [done|done].
        -- destruct (HN1e s Y t HY HtY) as [(X0 & HX0 & _)|[Hin _]].
           ++ by apply Hsnot in HX0.
           ++ right. split; [by apply elem_of_union_l|done].
      * destruct (HN1e k X' t HX' Ht') as [?|[Hin [?|?]]]; [auto|done|].
        right. split; [by apply elem_of_union_l|done].
  - pose proof (truthy_parent parents rp1 Hhp Hrp1 Htr) as ->.
    destruct (finalize_closure s nr db1 rec1) as [db2 rec2] eqn:Hfin.
    injection Hrun as <- <- <- <-.
    destruct (finalize_closure_lookup _ _ _ _ _ _ Hfin) as (-> & Hin & Hout).
    pose proof (finalize_closure_inv _ _ _ _ _ _ Hfin) as [Hdbinv _].
    assert (Hno : ∀ x, ¬ under parents None x) by (by intros x (p & ? & _)).
    assert (F1 : ∀ t, t ∈ N1 → ∃ Y, rec1 !! s = Some Y ∧ t ∈ Y).
    { intros t Ht. destruct (HN1b t Ht) as (k & X & HX & HtX & [->|Hu]); [eauto|].
      by apply Hno in Hu. }
    assert (F2 : ∀ Y t, rec1 !! s = Some Y → t ∈ Y → t ∈ N1).
    { intros Y t HY Ht. destruct (HN1e s Y t HY Ht) as [(X0 & HX0 & _)|[? _]]; [|done].
      by apply Hsnot in HX0. }
    assert (F3 : ∀ t c0, db1 !! t = Some c0 → db2 !! t = Some c0).
    { intros t c0 Hc0. rewrite Hout; [done| |].
      - intros ->. congruence.
      - intros Y HY HtY. pose proof (Hwait1 t (F2 Y t HY HtY)). congruence. }
    split.
    { split; [done|]. split; [done|]. split; [done|]. split.
      - intros p Hp. rewrite Hout.
        + apply Hpar1, elem_of_app. by left.
        + intros ->. done.
        + intros Y HY HtY. apply (HN1a p (F2 Y p HY HtY)), elem_of_app. by left.
      - intros x c m Hc Hm. destruct (Hdbinv x c Hc) as [[-> Hcase]|Hold].
        + assert (Hx : (has_hyphen m = false → m ∈ nr)
                     ∧ (has_hyphen m = true →
                          m = s ∨ (∃ c', db1 !! m = Some c' ∧ c' ⊆ nr) ∨ m ∈ N1)).
          { destruct Hcase as [->|(Y & HY & HtY)].
            - destruct (Hseen m (Hall m Hm)) as [Ha Hb]. split; [done|].
              intros Hhm. destruct (Hb Hhm) as [[?|Hu]|[?|?]]; auto.
              by apply Hno in Hu.
            - pose proof (F2 Y x HY HtY) as HxN.
              destruct (HN1d x m HxN Hm) as [Ha Hb]. split; [done|].
              intros Hhm. destruct (HN1c x m HxN Hm Hhm) as [[c0 Hc0]|[?|[?|Hu]]]; auto.
              + right; left. exists c0. split; [done|]. by apply Hb.
              + by apply Hno in Hu. }
          destruct Hx as [Ha Hb]. split; [done|]. intros Hhm.
          destruct (Hb Hhm) as [->|[(c' & Hc' & Hsub)|HmN]].
          * exists nr. split; [apply Hin; by left|done].
          * exists c'. split; [by apply F3|done].
          * exists nr. split; [apply Hin; right; by apply F1|done].
        + destruct (HL1 x c m Hold Hm) as [Ha Hb]. split; [done|].
          intros Hhm. destruct (Hb Hhm) as (c' & Hc' & Hsub). eauto. }
    split; [auto|]. split.
    { intros k X t HX Ht. destruct (Hrec1 k X t HX Ht) as (X1 & HX1 & Ht1).
      exists X1. split; [|done]. rewrite lookup_delete_ne; [done|].
      intros <-. by apply Hsnot in HX. }
    split.
    { intros c' Hc'. rewrite Hin in Hc' by (by left). by simplify_eq. }
    exists ∅. split; [left; rewrite Hin by (by left); eauto|].
    split; [by intros t ?%elem_of_empty|]. split; [by intros t ?%elem_of_empty|].
    split; [by intros t m ?%elem_of_empty|]. split; [by intros t m ?%elem_of_empty|].
    intros k X t HX Ht.
    destruct (decide (k = s)) as [->|Hks]; [by rewrite lookup_delete_eq in HX|].
    rewrite lookup_delete_ne in HX by done.
    destruct (HN1e k X t HX Ht) as [?|[_ [?|Hu]]]; [auto|done|].
    by apply Hno in Hu.
Qed.

Lemma walk_inv_empty (g : graph) : walk_inv g [] ∅ ∅.
Proof.
  split; [|split; [|split; [|split]]].
  - intros k. rewrite lookup_empty. by intros [].
  - intros k X t HX. by rewrite lookup_empty in HX.
  - intros t c a Hc. by rewrite lookup_empty in Hc.
  - intros p Hp. by apply elem_of_nil in Hp.
  - intros x c m Hc. by rewrite lookup_empty in Hc.
Qed.

(** The outermost call on an AS-SET: every closure it stores, and the set it
    returns, is the set of AUT-NUMs reached, cycles or not. *)
Lemma top_call_exact `{IterOrder} (g : graph) fuel root rp c (db rec : graph) :
  has_hyphen root = true →
  get_origin_asns fuel root ∅ g [] ∅ = Ok (rp, c, db, rec) →
  db_ok g db ∧ ∀ a, a ∈ c ↔ origin_of g root a.
Proof.
  intros Hh Hrun.
  destruct (top_call _ _ _ _ _ _ _ Hrun) as (-> & -> & Hdom & _).
  destruct (resolver_walk g _ _ _ _ _ _ _ _ _ Hrun Hh) as (Hinv & _ & _ & Hc & _).
  { intros p Hp. by apply elem_of_nil in Hp. }
  { apply not_elem_of_nil. }
  { apply walk_inv_empty. }
  destruct Hinv as (_ & _ & Hsound & _ & HL).
  assert (Hok : db_ok g db).
  { intros t ct Hct a. split.
    - intros Ha. destruct (Hsound t ct a Hct Ha) as [Hha Hr].
      split; [done|]. split; [done|]. intros ->.
      assert (has_hyphen t = true); [|congruence].
      destruct (proj1 (Hdom t)) as [->|[_ ?]]; [rewrite Hct; eauto|done..].
    - intros (Hr & Hha & _). by eapply closures_local_complete. }
  split; [done|]. intros a.
  destruct (proj2 (Hdom root) (or_introl eq_refl)) as [c' Hc'].
  destruct (resolver_sound g _ _ _ _ _ _ _ _ _ Hrun Hh) as (Hcs & _).
  { intros p Hp. by apply elem_of_nil in Hp. }
  { intros k. rewrite lookup_empty. by intros []. }
  { intros t ct a' Hct. by rewrite lookup_empty in Hct. }
  { intros k X t HX. by rewrite lookup_empty in HX. }
  split.
  - intros Ha. destruct (Hcs a Ha) as [Hha Hr]. split; [done|]. split; [done|].
    intros ->. congruence.
  - intros Ho. apply (Hc c' Hc'). by apply (Hok root c' Hc').
Qed.

(** X3. On every graph, with or without cycles, the closure that
    [get_origin_asns_from_members] stores for an AS-SET is exactly the set of
    AUT-NUMs the AS-SET reaches, when the root is an AS-SET name. *)
Theorem get_origin_asns_from_members_exact `{IterOrder} (g : graph) (root : string)
    (db : closures) :
  has_hyphen root = true →
  get_origin_asns_from_members root g = Ok db →
  ∀ s c, db !! s = Some c → ∀ a, a ∈ c ↔ origin_of g s a.
Proof.
  intros Hh Hrun. unfold get_origin_asns_from_members in Hrun.
  destruct (get_origin_asns _ _ _ _ _ _) as [[[[rp c] db1] rec1]| |] eqn:Hcall;
    simpl in Hrun; [|done..].
  destruct (top_call_exact _ _ _ _ _ _ _ Hh Hcall) as [Hok _].
  repeat (case_bool_decide; simpl in Hrun; try done).
  simplify_eq. exact Hok.
Qed.

Lemma is_ok_Ok {A} (r : result A) (d : A) :
  is_ok r = true → r = Ok (match r with Ok a => a | _ => d end).
Proof. by destruct r. Qed.

Lemma raises_assertion_Raise {A} (r : result A) msg :
  raises_assertion r msg = true → r = Raise (AssertionError msg).
Proof.
  destruct r as [a|[]|]; simpl; try done. by intros ->%String.eqb_eq.
Qed.

Example cycle_closures_run `{IterOrder} :
  get_origin_asns_from_members "AS-A" graph_cycle
  = Ok {[ "AS-A" := {[ "AS1" ]}; "AS-B" := {[ "AS1" ]} ]}.
Proof.
  assert (Hfuel : resolver_fuel graph_cycle = 3) by (vm_compute; reflexivity).
  unfold get_origin_asns_from_members. rewrite Hfuel, cycle_outer, bind_ok.
  rewrite !bool_decide_eq_true_2; [done|..|done|done].
  unfold graph_cycle. by rewrite !dom_insert_L, !dom_singleton_L.
Qed.

Example island_closures_run :
  island_run
  = Raise (AssertionError "we did not find the origin ases for all as-sets on the tree").
Proof. apply raises_assertion_Raise. vm_compute. reflexivity. Qed.

Lemma get_origin_asns_from_members_exact_witness :
  has_hyphen "AS-A" = true
  ∧ ∀ s c, ({[ "AS-A" := {[ "AS1" ]}; "AS-B" := {[ "AS1" ]} ]} : closures) !! s = Some c →
           ∀ a, a ∈ c ↔ origin_of graph_cycle s a.
Proof.
  split; [reflexivity|].
  apply (get_origin_asns_from_members_exact (H:=elements_order) graph_cycle "AS-A").
  - reflexivity.
  - apply cycle_closures_run.
Defined.

Lemma get_origin_asns_from_members_raises_witness :
  (∃ m, AssertionError "we did not find the origin ases for all as-sets on the tree"
        = KeyError m ∧ graph_island !! m = None
        ∧ (m = "AS-A" ∨ (reaches graph_island "AS-A" m ∧ has_hyphen m = true)))
  ∨ (AssertionError "we did not find the origin ases for all as-sets on the tree"
     = AssertionError "we did not find the origin ases for all as-sets on the tree"
     ∧ complete_from graph_island "AS-A"
     ∧ ∃ k, is_Some (graph_island !! k) ∧ k ≠ "AS-A"
            ∧ ¬ (reaches graph_island "AS-A" k ∧ has_hyphen k = true)).
Proof.
  apply (get_origin_asns_from_members_raises (H:=elements_order) graph_island "AS-A").
  exact island_closures_run.
Defined.

Lemma get_irr_output_returns_witness :
  get_irr_output (H:=elements_order) "AS-A" graph_cycle
  = Ok {[ "AS-A" := {[ "AS1" ]}; "AS-B" := {[ "AS1" ]} ]}.
Proof.
  apply (proj2 (proj2 (get_irr_output_returns (H:=elements_order) graph_cycle "AS-A"))).
  apply cycle_closures_run.
Defined.

(** ** Member names *)

Lemma upper_char_idemp c : upper_char (upper_char c) = upper_char c.
Proof. destruct c as [[] [] [] [] [] [] [] []]; reflexivity. Qed.

Lemma upper_char_aA c : is_aA (upper_char c) = is_aA c.
Proof. destruct c as [[] [] [] [] [] [] [] []]; reflexivity. Qed.

Lemma upper_char_sS c : is_sS (upper_char c) = is_sS c.
Proof. destruct c as [[] [] [] [] [] [] [] []]; reflexivity. Qed.

Lemma upper_char_digit c : is_digit (upper_char c) = is_digit c.
Proof. destruct c as [[] [] [] [] [] [] [] []]; reflexivity. Qed.

Lemma upper_char_hyphen c : Ascii.eqb (upper_char c) "-" = Ascii.eqb c "-".
Proof. destruct c as [[] [] [] [] [] [] [] []]; reflexivity. Qed.

Lemma upper_idemp s : upper (upper s) = upper s.
Proof. induction s as [|c s IH]; simpl; [done|]. by rewrite upper_char_idemp, IH. Qed.

Lemma has_hyphen_upper s : has_hyphen (upper s) = has_hyphen s.
Proof.
  unfold has_hyphen. induction s as [|c s IH]; simpl; [done|].
  by rewrite upper_char_hyphen, IH.
Qed.

Lemma re_asn_upper s : re_asn (upper s) = re_asn s.
Proof.
  destruct s as [|a [|b [|d s]]]; simpl; try done.
  by rewrite upper_char_aA, upper_char_sS, upper_char_digit.
Qed.

Lemma re_as_set_upper s : re_as_set (upper s) = re_as_set s.
Proof.
  destruct s as [|a [|b [|d s]]]; simpl; try done.
  by rewrite upper_char_aA, upper_char_sS, upper_char_hyphen.
Qed.

Lemma re_starts_asn_upper s : re_starts_asn (upper s) = re_starts_asn s.
Proof.
  destruct s as [|a [|b s]]; simpl; try done.
  by rewrite upper_char_aA, upper_char_sS.
Qed.

Lemma is_member_name_starts t : is_member_name t = true → re_starts_asn t = true.
Proof.
  unfold is_member_name, re_asn, re_as_set, re_starts_asn.
  destruct t as [|a [|b [|d s]]]; simpl; try done.
  destruct (is_aA a), (is_sS b); simpl; try done.
Qed.

(** A member name with a hyphen is accepted by [get_members] as an AS-SET
    to query. *)
Lemma is_member_name_as_set t :
  is_member_name t = true → has_hyphen t = true → is_as_set t = true.
Proof.
  intros Hn Hh. unfold is_as_set. by rewrite (is_member_name_starts t Hn), Hh.
Qed.

Lemma is_member_name_upper t : is_member_name (upper t) = is_member_name t.
Proof. unfold is_member_name. by rewrite re_asn_upper, re_as_set_upper. Qed.

(** What [get_members] returns: the AS-SET queried passes [is_as_set], and
    every member is an upper-case member name. *)
Lemma get_members_names `{IterOrder} as_set recurse w M w' :
  get_members as_set recurse w = Ok (M, w') →
  is_as_set as_set = true
  ∧ ∀ x, x ∈ M → is_member_name x = true ∧ upper x = x.
Proof.
  unfold get_members. destruct (is_as_set as_set); simpl; [|done].
  destruct (query "i" as_set recurse w) as [[R w1]| |]; simpl; [|done..].
  destruct (validate_member_foldl as_set (set_iter R) ∅ w1) as (M1 & w2 & -> & HM & _).
  intros [= <- <-]. split; [done|]. intros x Hx.
  apply HM in Hx as [Hx|(t & _ & Hn & ->)]; [set_solver|].
  by rewrite is_member_name_upper, upper_idemp.
Qed.

(** ** The crawl *)

(** A graph that gains a key keeps what was reached. *)
Lemma reaches_insert (g : graph) k ms s x :
  g !! k = None → reaches g s x → reaches (<[k := ms]> g) s x.
Proof.
  intros Hk. assert (Hm : ∀ a b, member_of g a b → member_of (<[k := ms]> g) a b).
  { intros a b (X & HX & Hb). exists X. split; [|done].
    rewrite lookup_insert_ne; [done|]. intros ->. congruence. }
  induction 1 as [s m H1|s m x H1 Hh Hr IH].
  - apply reaches_member. auto.
  - eapply reaches_step; eauto.
Qed.

Lemma enqueue_member_foldl l : ∀ st,
  tree_members (foldl enqueue_member st l) = tree_members st
  ∧ tree_visited st ⊆ tree_visited (foldl enqueue_member st l)
  ∧ (∀ x, x ∈ tree_queue st → x ∈ tree_queue (foldl enqueue_member st l))
  ∧ (∀ x, x ∈ tree_queue (foldl enqueue_member st l) →
       x ∈ tree_queue st
       ∨ (x ∈ l ∧ has_hyphen x = true ∧ x ∈ tree_visited (foldl enqueue_member st l)))
  ∧ (∀ x, x ∈ tree_visited (foldl enqueue_member st l) →
       x ∈ tree_visited st ∨ x ∈ tree_queue (foldl enqueue_member st l))
  ∧ (∀ m, m ∈ l → has_hyphen m = true →
       m ∈ tree_visited (foldl enqueue_member st l) ∨ is_Some (tree_members st !! m)).
Proof.
  induction l as [|a l IH]; intros st; simpl.
  { split; [done|]. split; [done|]. split; [done|]. split; [auto|]. split; [auto|].
    intros m Hm. by apply elem_of_nil in Hm. }
  destruct (IH (enqueue_member st a)) as (Hg & Hv & Hq & Hq' & Hv' & Hm).
  set (st2 := foldl enqueue_member (enqueue_member st a) l) in *.
  assert (Hstep :
    (enqueue_member st a = st
     ∧ (has_hyphen a = true → a ∈ tree_visited st ∨ is_Some (tree_members st !! a)))
    ∨ (has_hyphen a = true
       ∧ tree_members (enqueue_member st a) = tree_members st
       ∧ tree_queue (enqueue_member st a) = tree_queue st ++ [a]
       ∧ tree_visited (enqueue_member st a) = tree_visited st ∪ {[a]})).
  { unfold enqueue_member. destruct (has_hyphen a); simpl; [|by left].
    case_bool_decide as Hva; simpl; [left; auto|].
    case_bool_decide as Hka; simpl; [|right; auto].
    left. split; [done|]. intros _. right. by apply elem_of_dom. }
  destruct Hstep as [[Heq Ha]|(Hha & Hg1 & Hq1 & Hv1)].
  - rewrite Heq in *. split; [done|]. split; [done|]. split; [done|]. split; [|split; [done|]].
    + intros x Hx. destruct (Hq' x Hx) as [?|(? & ? & ?)]; [auto|].
      right. split; [by right|done].
    + intros m [->|Hin]%elem_of_cons Hh; [|auto].
      destruct (Ha Hh) as [?|?]; [left; by apply Hv|by right].
  - rewrite Hg1 in *. rewrite Hq1, Hv1 in *.
    split; [done|]. split; [set_solver|]. split; [|split; [|split]].
    + intros x Hx. apply Hq, elem_of_app. by left.
    + intros x Hx. destruct (Hq' x Hx) as [[?|Hxa%list_elem_of_singleton]%elem_of_app|(? & ? & ?)].
      * by left.
      * subst. right. split; [left|]. split; [done|]. apply Hv. set_solver.
      * right. split; [by right|done].
    + intros x Hx. destruct (Hv' x Hx) as [[?|Hxa%elem_of_singleton]%elem_of_union|?];
        [by left| |by right].
      subst. right. apply Hq, elem_of_app. right. left.
    + intros m [->|Hin]%elem_of_cons Hh; [|auto].
      left. apply Hv. set_solver.
Qed.

(** One turn of the crawl keeps the invariant. *)
Lemma get_tree_item_inv `{IterOrder} root filtered item items (g : graph) V w w' st' :
  tree_inv root filtered {| tree_queue := item :: items; tree_members := g;
                            tree_visited := V |} →
  get_tree_item filtered item w {| tree_queue := items; tree_members := g;
                                   tree_visited := V |} = Ok (w', st') →
  tree_inv root filtered st'.
Proof.
  intros (Hroot & Hvis & Hqueue & Hkeys) Hrun. simpl in *.
  unfold get_tree_item in Hrun. simpl in Hrun.
  case_bool_decide as Hin.
  { simplify_eq. apply elem_of_dom in Hin. split; [done|]. split; [|split; [|done]]; simpl.
    - intros x Hx. destruct (Hvis x Hx) as [?|[->|?]%elem_of_cons]; auto.
    - intros x Hx. apply Hqueue. by right. }
  apply not_elem_of_dom in Hin.
  destruct (get_members item false _) as [[M w1]| |] eqn:Hget; simpl in Hrun; [|done..].
  injection Hrun as <- <-.
  destruct (get_members_names _ _ _ _ _ Hget) as [Has HM].
  set (ms := filter (λ m, m ∉ filtered) M) in *.
  set (g' := <[item := ms]> g) in *.
  destruct (enqueue_member_foldl (set_iter ms)
              {| tree_queue := items; tree_members := g'; tree_visited := V |})
    as (Hg & Hv & Hq & Hq' & Hv' & Hm). simpl in *.
  set (st2 := foldl enqueue_member _ _) in *.
  destruct (Hqueue item) as [HitemV Hitem]; [left|].
  assert (Hmono : ∀ s x, reaches g s x → reaches (tree_members st2) s x).
  { intros s x Hr. rewrite Hg. by apply reaches_insert. }
  assert (Hitem' : item = root ∨ (reaches (tree_members st2) root item
                                  ∧ has_hyphen item = true)).
  { destruct Hitem as [?|[? ?]]; auto. }
  assert (Hmem : ∀ m, m ∈ ms → member_of (tree_members st2) item m).
  { intros m Hm'. exists ms. rewrite Hg. unfold g'. by rewrite lookup_insert_eq. }
  assert (Hhitem : has_hyphen item = true).
  { unfold is_as_set in Has. destruct (re_starts_asn item); simpl in Has; [|done].
    by destruct (has_hyphen item). }
  split; [by apply Hv|]. split; [|split].
  - intros x Hx. rewrite Hg. destruct (Hv' x Hx) as [HxV|?]; [|by right].
    destruct (Hvis x HxV) as [Hk|[->|?]%elem_of_cons].
    + left. unfold g'. destruct (decide (item = x)) as [->|?].
      * rewrite lookup_insert_eq. eauto.
      * by rewrite lookup_insert_ne.
    + left. unfold g'. rewrite lookup_insert_eq. eauto.
    + right. by apply Hq.
  - intros x Hx. destruct (Hq' x Hx) as [Hold|(Hxl & Hhx & HxV)].
    + destruct (Hqueue x) as [HxV Hxr]; [by right|]. split; [by apply Hv|].
      destruct Hxr as [?|[? ?]]; auto.
    + split; [done|]. right. split; [|done].
      rewrite set_iter_perm, elem_of_elements in Hxl.
      destruct Hitem' as [->|[Hr _]].
      * apply reaches_member. auto.
      * eapply reaches_trans; [done|done|]. apply reaches_member. auto.
  - intros k X HX. rewrite Hg in HX. unfold g' in HX.
    apply lookup_insert_Some in HX as [[<- <-]|[Hne HX]].
    + split; [done|]. split; [by apply Hv|]. split; [done|].
      intros m Hm'. pose proof Hm' as Hf. apply elem_of_filter in Hf as [Hnf HmM].
      destruct (HM m HmM) as [Hname Hup].
      split; [done|]. split; [done|]. split; [done|]. intros Hhm.
      destruct (Hm m) as [?|Hk]; [by rewrite set_iter_perm, elem_of_elements|done|done|].
      apply Hv. unfold g' in Hk. destruct (decide (item = m)) as [<-|Hne]; [done|].
      rewrite lookup_insert_ne in Hk by done. destruct Hk as [Y HY].
      by destruct (Hkeys m Y HY) as (_ & ? & _).
    + destruct (Hkeys k X HX) as (Hk1 & Hk2 & Hk3 & Hk4).
      split; [done|]. split; [by apply Hv|]. split.
      { destruct Hk3 as [?|[? ?]]; auto. }
      intros m Hm'. destruct (Hk4 m Hm') as (? & ? & ? & Hvm).
      split; [done|]. split; [done|]. split; [done|].
      intros Hh. by apply Hv, Hvm.
Qed.

(** The crawl keeps the invariant and leaves the queue empty. *)
Lemma run_get_tree_loop_inv `{IterOrder} root filtered fuel : ∀ w st w' st',
  run_get_tree_loop fuel filtered w st = Ok (w', st') →
  tree_inv root filtered st →
  tree_inv root filtered st' ∧ tree_queue st' = [].
Proof.
  induction fuel as [|fuel IH]; intros w st w' st' Hrun Hinv; [done|].
  simpl in Hrun. destruct st as [q g V]. simpl in Hrun.
  destruct q as [|item items]; [by simplify_eq|].
  destruct (get_tree_item _ _ _ _) as [[w1 st1]| |] eqn:Hitem; simpl in Hrun; [|done..].
  eapply IH; [done|]. by eapply get_tree_item_inv.
Qed.

Lemma tree_inv_start root filtered : tree_inv root filtered (tree_start root).
Proof.
  split; [set_solver|]. split; [|split]; simpl.
  - intros x Hx%elem_of_singleton. subst. right. left.
  - intros x Hx%list_elem_of_singleton. subst. split; [set_solver|by left].
  - intros k ms Hk. by rewrite lookup_empty in Hk.
Qed.

(** What a drained crawl leaves: a graph that has the root as a key, is
    closed under AS-SET members and has no key the root does not reach. *)
Lemma tree_inv_drained root filtered st :
  tree_inv root filtered st → tree_queue st = [] →
  complete_from (tree_members st) root
  ∧ members_closed (tree_members st)
  ∧ rooted (tree_members st) root
  ∧ has_hyphen root = true.
Proof.
  intros (Hroot & Hvis & _ & Hkeys) Hq.
  assert (Hkey : ∀ x, x ∈ tree_visited st → is_Some (tree_members st !! x)).
  { intros x Hx. destruct (Hvis x Hx) as [?|Hin]; [done|].
    rewrite Hq in Hin. by apply elem_of_nil in Hin. }
  assert (Hclosed : members_closed (tree_members st)).
  { intros s m (X & HX & Hm) Hh. apply Hkey.
    destruct (Hkeys s X HX) as (_ & _ & _ & Hms). by apply (Hms m Hm). }
  split; [by apply members_closed_complete; auto|]. split; [done|]. split.
  - intros k [X HX]. by destruct (Hkeys k X HX) as (_ & _ & ? & _).
  - destruct (Hkey root Hroot) as [X HX]. destruct (Hkeys root X HX) as (Has & _).
    unfold is_as_set in Has. destruct (re_starts_asn root); simpl in Has; [|done].
    by destruct (has_hyphen root).
Qed.

(** ** The second phase and the aggregation *)

(** [asn_objects] holds the members without a hyphen, over all keys. *)
Lemma asn_objects_spec `{IterOrder} (g : graph) a :
  a ∈ asn_objects g ↔ has_hyphen a = false ∧ ∃ k, member_of g k a.
Proof.
  unfold asn_objects.
  assert (Hinner : ∀ l (acc : gset string),
    a ∈ foldl (λ (acc : gset string) (member : string),
                 if has_hyphen member then acc else acc ∪ {[member]}) acc l
    ↔ a ∈ acc ∨ (has_hyphen a = false ∧ a ∈ l)).
  { induction l as [|m l IH]; intros acc; simpl.
    - split; [auto|]. intros [?|[_ Hin]]; [done|by apply elem_of_nil in Hin].
    - rewrite IH. destruct (has_hyphen m) eqn:Hm.
      + split; [intros [?|[? ?]]; [auto|right; split; [done|by right]]|].
        intros [?|[Ha [->|?]%elem_of_cons]]; [auto|congruence|auto].
      + rewrite elem_of_union, elem_of_singleton. split.
        * intros [[?| ->]|[? ?]]; [auto|right; split; [done|left]|right; split; [done|by right]].
        * intros [?|[Ha [->|?]%elem_of_cons]]; auto. }
  assert (Houter : ∀ (l : list (string * gset string)) (acc : gset string),
    a ∈ foldl (λ (acc : gset string) (item : string * gset string),
                 foldl (λ (acc : gset string) (member : string),
                          if has_hyphen member then acc else acc ∪ {[member]})
                       acc (set_iter item.2)) acc l
    ↔ a ∈ acc ∨ (has_hyphen a = false ∧ ∃ k X, (k, X) ∈ l ∧ a ∈ X)).
  { induction l as [|[k X] l IH]; intros acc; simpl.
    - split; [auto|]. intros [?|[_ (k & X & Hin & _)]]; [done|by apply elem_of_nil in Hin].
    - rewrite IH, Hinner, set_iter_perm, elem_of_elements. split.
      + intros [[?|[? ?]]|[? (k' & X' & ? & ?)]]; [by left| |].
        * right. split; [done|]. exists k, X. split; [left|done].
        * right. split; [done|]. exists k', X'. split; [by right|done].
      + intros [?|[Ha (k' & X' & [[= -> ->]|?]%elem_of_cons & ?)]]; [auto|auto|].
        right. split; [done|]. eauto. }
  rewrite Houter. split.
  - intros [?|[Ha (k & X & Hin & HaX)]]; [set_solver|]. split; [done|].
    rewrite dict_items_perm, elem_of_map_to_list in Hin. exists k, X. done.
  - intros [Ha (k & X & HX & HaX)]. right. split; [done|]. exists k, X. split; [|done].
    by rewrite dict_items_perm, elem_of_map_to_list.
Qed.

(** What one turn of [run_resolve_objects] does to [prefixes_per_autun]. *)
Lemma resolve_item_keys item w (prefixes : graph) w' prefixes' :
  resolve_item item w prefixes = Ok (w', prefixes') →
  has_hyphen item = false
  ∧ (∀ x, is_Some (prefixes' !! x) ↔ is_Some (prefixes !! x) ∨ x = item)
  ∧ (∀ x c, prefixes !! x = Some c → prefixes' !! x = Some c).
Proof.
  unfold resolve_item. destruct (has_hyphen item); [done|].
  case_bool_decide as Hin.
  - intros [= <- <-]. split; [done|]. split; [|done].
    intros x. split; [auto|]. intros [?| ->]; [done|]. by apply elem_of_dom.
  - destruct (query _ _ _ _) as [[c w1]| |]; simpl; [|done..].
    intros [= <- <-]. split; [done|]. split.
    + intros x. destruct (decide (item = x)) as [->|Hne].
      * rewrite lookup_insert_eq. split; [auto|eauto].
      * rewrite lookup_insert_ne by done. split; [auto|]. by intros [?| ->].
    + intros x c' Hx. rewrite lookup_insert_ne; [done|]. intros ->.
      apply Hin, elem_of_dom. eauto.
Qed.

(** A drained second phase has an entry for every item of the queue, keeps
    the entries it found, and adds no other key. *)
Lemma run_resolve_objects_loop_keys fuel : ∀ w queue (prefixes : graph) w' prefixes',
  run_resolve_objects_loop fuel w queue prefixes = Ok (w', prefixes') →
  (∀ x, x ∈ queue → has_hyphen x = false)
  ∧ (∀ x, is_Some (prefixes' !! x) ↔ is_Some (prefixes !! x) ∨ x ∈ queue)
  ∧ (∀ x c, prefixes !! x = Some c → prefixes' !! x = Some c).
Proof.
  induction fuel as [|fuel IH]; intros w queue prefixes w' prefixes' Hrun; [done|].
  simpl in Hrun. destruct queue as [|item items].
  { simplify_eq. split; [by intros x ?%elem_of_nil|]. split; [|done].
    intros x. split; [auto|]. by intros [?|?%elem_of_nil]. }
  destruct (resolve_item item w prefixes) as [[w1 p1]| |] eqn:Hitem; simpl in Hrun; [|done..].
  destruct (resolve_item_keys _ _ _ _ _ Hitem) as (Hh & Hk & Hkeep).
  destruct (IH _ _ _ _ _ Hrun) as (Hh' & Hk' & Hkeep').
  split; [|split].
  - intros x [->|?]%elem_of_cons; auto.
  - intros x. rewrite Hk', Hk, elem_of_cons. tauto.
  - auto.
Qed.

(** The aggregation returns when every AUT-NUM of every closure has an entry
    in [prefixes_per_autun]. *)
Lemma number_per_asset_returns `{IterOrder} (origin : closures) (prefixes : graph) :
  (∀ s c a, origin !! s = Some c → a ∈ c → is_Some (prefixes !! a)) →
  ∃ r, number_per_asset origin prefixes = Ok r.
Proof.
  intros Hpre. unfold number_per_asset.
  edestruct (for_each_inv
    (λ _ (_ : gmap string nat * gmap string nat), True)
    (λ (st : gmap string nat * gmap string nat) (item : gset string * gset string),
       let '(origin_as_set, assets) := item in
       prefix_set ← this_prefix_set prefixes origin_as_set ;
       Ok (foldl (λ (st : gmap string nat * gmap string nat) (asset : string),
                    (<[asset := size prefix_set]> st.1,
                     <[asset := size origin_as_set]> st.2))
                 st (set_iter assets)))
    (dict_items (assets_per_origin_as_set origin)) (∅, ∅)) as (r & Hrun & _);
    [done| |eauto].
  intros done [c A] st Hitem _.
  rewrite dict_items_perm, elem_of_map_to_list in Hitem.
  destruct (assets_per_origin_as_set_spec origin c A Hitem) as [HA [s0 Hs0]].
  rewrite this_prefix_set_ok; simpl; [eauto|].
  intros a Ha. eapply Hpre; [|done]. by apply HA.
Qed.

Lemma reaches_member_of (g : graph) s a : reaches g s a → ∃ k, member_of g k a.
Proof. induction 1; eauto. Qed.

Example crawl_example : crawl_run = Ok crawl_out.
Proof. apply is_ok_Ok. vm_compute. reflexivity. Qed.

Example resolve_example : resolve_run = Ok resolve_out.
Proof. apply is_ok_Ok. vm_compute. reflexivity. Qed.

Example crawl_example_graph :
  tree_queue crawl_out.2 = [] ∧ tree_members crawl_out.2 = crawl_graph.
Proof.
  split; [vm_compute; reflexivity|].
  apply (bool_decide_eq_true_1 (tree_members crawl_out.2 = crawl_graph)).
  vm_compute. reflexivity.
Qed.

Example resolve_example_keys :
  elements (dom resolve_out.2) = ["AS1"; "AS2"]
  ∨ elements (dom resolve_out.2) = ["AS2"; "AS1"].
Proof. vm_compute. first [left; reflexivity|right; reflexivity]. Qed.

Lemma run_get_tree_inv `{IterOrder} root filtered fuel w w' st' :
  run_get_tree fuel filtered w (tree_start root) = Ok (w', st') →
  tree_inv root filtered st' ∧ tree_queue st' = [].
Proof.
  unfold run_get_tree. destruct (connection w); [|done].
  case_bool_decide; [done|]. intros Hrun.
  eapply run_get_tree_loop_inv; [done|]. apply tree_inv_start.
Qed.

(** X5. The graph a drained crawl leaves.  When [run_get_tree], started by
    [irrtree_process] on a root and run by one worker, has emptied the queue:
    the root is a key, every AS-SET member of a key is a key, every key is
    the root or an AS-SET the root reaches and passes [is_as_set], and every
    member is outside the filter, an upper-case AUT-NUM or AS-SET name, and
    when it has a hyphen a name [get_members] accepts. *)
Theorem run_get_tree_graph `{IterOrder} (root : string) (filtered : gset string)
    (fuel : nat) (w w' : Worker) (st' : tree_state) :
  run_get_tree fuel filtered w (tree_start root) = Ok (w', st') →
  tree_queue st' = []
  ∧ is_Some (tree_members st' !! root)
  ∧ members_closed (tree_members st')
  ∧ rooted (tree_members st') root
  ∧ (∀ k ms, tree_members st' !! k = Some ms →
       is_as_set k = true
       ∧ ∀ m, m ∈ ms → (m ∉ filtered) ∧ is_member_name m = true ∧ upper m = m
                       ∧ (has_hyphen m = true → is_as_set m = true)).
Proof.
  intros Hrun. destruct (run_get_tree_inv _ _ _ _ _ _ Hrun) as [Hinv Hq].
  destruct (tree_inv_drained _ _ _ Hinv Hq) as ([Hroot _] & Hclosed & Hrooted & _).
  split; [done|]. split; [done|]. split; [done|]. split; [done|].
  intros k ms Hk. destruct Hinv as (_ & _ & _ & Hkeys).
  destruct (Hkeys k ms Hk) as (Has & _ & _ & Hms). split; [done|].
  intros m Hm. destruct (Hms m Hm) as (Hf & Hn & Hup & _).
  split; [done|]. split; [done|]. split; [done|]. by apply is_member_name_as_set.
Qed.

Lemma run_get_tree_graph_witness :
  tree_queue crawl_out.2 = []
  ∧ is_Some (crawl_graph !! "AS-FOO")
  ∧ members_closed crawl_graph
  ∧ rooted crawl_graph "AS-FOO"
  ∧ (∀ k ms, crawl_graph !! k = Some ms →
       is_as_set k = true
       ∧ ∀ m, m ∈ ms → (m ∉ (∅ : gset string)) ∧ is_member_name m = true ∧ upper m = m
                       ∧ (has_hyphen m = true → is_as_set m = true)).
Proof.
  rewrite <- (proj2 crawl_example_graph).
  apply (run_get_tree_graph (H:=elements_order) "AS-FOO" ∅ 3 crawl_session
           crawl_out.1 crawl_out.2).
  rewrite <- surjective_pairing. exact crawl_example.
Defined.

(** X6. The phases of [irrtree_process] compose.  When the crawl has emptied
    its queue and [run_resolve_objects] has emptied the queue of the
    [asn_objects] of the crawled graph (no search, no removal of cycles in
    between), [prefixes_per_autun] has exactly the AUT-NUM members as keys,
    [get_origin_asns_from_members] returns, whatever cycles the registry has,
    and the aggregation returns: none of the [KeyError], the three
    assertions and the preload exception can be raised. *)
Theorem crawl_then_resolve `{IterOrder} (root : string) (filtered : gset string)
    (fuel1 fuel2 : nat) (w w1 w2 : Worker) (st1 : tree_state) (prefixes : graph) :
  run_get_tree fuel1 filtered w (tree_start root) = Ok (w1, st1) →
  run_resolve_objects fuel2 w1 (set_iter (asn_objects (tree_members st1))) ∅
    = Ok (w2, prefixes) →
  dom prefixes = asn_objects (tree_members st1)
  ∧ ∃ db r, get_origin_asns_from_members root (tree_members st1) = Ok db
            ∧ dom db = dom (tree_members st1)
            ∧ number_per_asset db prefixes = Ok r.
Proof.
  intros Hcrawl Hres. destruct (run_get_tree_inv _ _ _ _ _ _ Hcrawl) as [Hinv Hq].
  destruct (tree_inv_drained _ _ _ Hinv Hq) as (Hcompl & _ & Hrooted & Hhroot).
  unfold run_resolve_objects in Hres. destruct (connection w1); [|done].
  destruct (run_resolve_objects_loop_keys _ _ _ _ _ _ Hres) as (_ & Hkeys & _).
  assert (Hdom : dom prefixes = asn_objects (tree_members st1)).
  { apply set_eq. intros a. rewrite elem_of_dom, Hkeys, set_iter_perm, elem_of_elements.
    rewrite lookup_empty. split; [intros [[? ?]|?]; done|auto]. }
  split; [done|].
  destruct (top_call_returns _ _ Hcompl) as (c & db & Hcall).
  destruct (top_call _ _ _ _ _ _ _ Hcall) as (_ & _ & Hdb & _).
  destruct (top_call_exact _ _ _ _ _ _ _ Hhroot Hcall) as [Hok _].
  assert (Hdg : dom db = dom (tree_members st1)).
  { apply set_eq. intros k. rewrite !elem_of_dom, Hdb. split.
    - intros [->|[Hr Hh]]; [apply (proj1 Hcompl)|by apply (proj2 Hcompl)].
    - apply Hrooted. }
  destruct (number_per_asset_returns db prefixes) as [r Hr].
  { intros s cs a Hs Ha. apply elem_of_dom. rewrite Hdom. apply asn_objects_spec.
    apply (Hok s cs Hs) in Ha as (Hreach & Hh & _). split; [done|].
    by eapply reaches_member_of. }
  exists db, r. split; [|done].
  unfold get_origin_asns_from_members. rewrite Hcall. simpl.
  by rewrite !bool_decide_eq_true_2.
Qed.

Lemma crawl_then_resolve_witness :
  dom resolve_out.2 = asn_objects (H:=elements_order) (tree_members crawl_out.2)
  ∧ ∃ db r, get_origin_asns_from_members (H:=elements_order) "AS-FOO"
              (tree_members crawl_out.2) = Ok db
            ∧ dom db = dom (tree_members crawl_out.2)
            ∧ number_per_asset (H:=elements_order) db resolve_out.2 = Ok r.
Proof.
  apply (crawl_then_resolve (H:=elements_order) "AS-FOO" ∅ 3 3 crawl_session
           crawl_out.1 resolve_out.1 crawl_out.2 resolve_out.2).
  - rewrite <- surjective_pairing. exact crawl_example.
  - rewrite <- surjective_pairing. exact resolve_example.
Defined.
